(** * ppci: Intel HEX image files and the RISC-V call lowering

    A shallow embedding of [ppci/utils/hexfile.py] and of the calling
    convention code of [ppci/arch/riscv/arch.py], with the properties of the
    specification proved (or refuted) on it.

    Python integers are [Z]; [bytes] and [bytearray] are [list byte]; [str] is
    [string] (code points below 256); exceptions are the [Raise] results of a small
    error monad; the region objects that [HexFile.check] mutates while it
    iterates over a snapshot of the list live in an explicit store. *)

From Stdlib Require Import ZArith List String Ascii Bool Lia DecimalString.
From Stdlib.Strings Require Import Byte.
From Stdlib Require DecimalN DecimalPos.
From stdpp Require Import base list gmap.

Import ListNotations.
Local Open Scope Z_scope.

(** ** Exceptions and the error monad *)

Inductive exception : Type :=
  | HexFileException (msg : string)
  | ValueError
  | IndexError
  | StructError
  | OutOfFuel.

Inductive result (A : Type) : Type :=
  | Ok (a : A)
  | Raise (e : exception).

Arguments Ok {A} a.
Arguments Raise {A} e.

Definition bind {A B : Type} (m : result A) (k : A -> result B) : result B :=
  match m with
  | Ok a => k a
  | Raise e => Raise e
  end.

Notation "x <-- m ;; k" := (bind m (fun x => k))
  (at level 100, m at next level, right associativity).

(** ** Bytes *)

Definition byte_val (b : byte) : Z := Z.of_N (Byte.to_N b).

(** [bytearray.append(v)]: [ValueError] unless [0 <= v < 256]. *)
Definition byte_of_int (v : Z) : result byte :=
  if (0 <=? v) && (v <? 256) then
    match Byte.of_N (Z.to_N v) with
    | Some b => Ok b
    | None => Raise ValueError
    end
  else Raise ValueError.

(** [sum(nums)] *)
Definition sum_bytes (nums : list byte) : Z :=
  fold_right (fun b acc => byte_val b + acc) 0 nums.

(** The byte whose value is [v mod 256]; total. *)
Definition low_byte (v : Z) : byte :=
  match Byte.of_N (Z.to_N (v mod 256)) with
  | Some b => b
  | None => x00
  end.

(** [struct.pack('>H', v)]: two bytes, big endian; [struct.error] out of
    range. *)
Definition pack_H (v : Z) : result (list byte) :=
  if (0 <=? v) && (v <=? 65535) then Ok [low_byte (v / 256); low_byte v]
  else Raise StructError.

(** [struct.unpack('>H', b)[0]]: needs exactly two bytes. *)
Definition unpack_H (b : list byte) : result Z :=
  match b with
  | [hi; lo] => Ok (byte_val hi * 256 + byte_val lo)
  | _ => Raise StructError
  end.

(** [struct.unpack('>I', b)[0]]: needs exactly four bytes. *)
Definition unpack_I (b : list byte) : result Z :=
  match b with
  | [b3; b2; b1; b0] =>
      Ok (((byte_val b3 * 256 + byte_val b2) * 256 + byte_val b1) * 256
          + byte_val b0)
  | _ => Raise StructError
  end.

(** ** Hexadecimal text *)

(** One digit of [binascii.hexlify]: lower case. *)
Definition hexdigit (n : N) : ascii :=
  match n with
  | 0 => "0" | 1 => "1" | 2 => "2" | 3 => "3" | 4 => "4" | 5 => "5"
  | 6 => "6" | 7 => "7" | 8 => "8" | 9 => "9" | 10 => "a" | 11 => "b"
  | 12 => "c" | 13 => "d" | 14 => "e" | _ => "f"
  end%N%char.

(** [binascii.hexlify(nums).decode('ascii')] *)
Fixpoint hexlify (nums : list byte) : string :=
  match nums with
  | [] => EmptyString
  | b :: rest =>
      String (hexdigit (Byte.to_N b / 16))
        (String (hexdigit (Byte.to_N b mod 16)) (hexlify rest))
  end.

(** The value of a hexadecimal digit, either case. *)
Definition hexval (c : ascii) : option N :=
  let n := N_of_ascii c in
  if ((48 <=? n) && (n <=? 57))%N then Some (n - 48)%N
  else if ((97 <=? n) && (n <=? 102))%N then Some (n - 87)%N
  else if ((65 <=? n) && (n <=? 70))%N then Some (n - 55)%N
  else None.

(** ASCII white space, which [bytes.fromhex] skips between bytes. *)
Definition is_ascii_space (c : ascii) : bool :=
  let n := N_of_ascii c in
  (((9 <=? n) && (n <=? 13)) || (n =? 32))%N.

(** White space of [str.strip()], for the code points below 256: the ASCII
    white space, the separators 0x1c to 0x1f, 0x85 and 0xa0. *)
Definition is_space (c : ascii) : bool :=
  let n := N_of_ascii c in
  (((9 <=? n) && (n <=? 13)) || ((28 <=? n) && (n <=? 32))
   || (n =? 133) || (n =? 160))%N.

(** [bytes.fromhex(s)]: pairs of digits, white space allowed between the
    pairs; [ValueError] on anything else. *)
Fixpoint fromhex (s : string) : result (list byte) :=
  match s with
  | EmptyString => Ok []
  | String c rest =>
      if is_ascii_space c then fromhex rest
      else
        match hexval c, rest with
        | Some hi, String c2 rest' =>
            match hexval c2 with
            | Some lo =>
                match Byte.of_N (hi * 16 + lo) with
                | Some b => tl <-- fromhex rest' ;; Ok (b :: tl)
                | None => Raise ValueError
                end
            | None => Raise ValueError
            end
        | _, _ => Raise ValueError
        end
  end.

(** ** Records: [parseHexLine] and [makeHexLine] *)

Definition DATA : Z := 0.
Definition EOF : Z := 1.
Definition EXTLINADR : Z := 4.

(** [nums[4:-1]] *)
Definition slice_4_m1 (nums : list byte) : list byte :=
  removelast (skipn 4 nums).

(** [line[1:]] *)
Definition str_tail (s : string) : string :=
  match s with
  | EmptyString => EmptyString
  | String _ r => r
  end.

Definition parseHexLine (line : string) : result (Z * Z * list byte) :=
  let line := str_tail line in
  nums <-- fromhex line ;;
  match nums with
  | [] => Raise IndexError
  | bytecount :: _ =>
      if negb (Z.of_nat (List.length nums) =? byte_val bytecount + 5) then
        Raise (HexFileException "byte count field incorrect")
      else
        let crc := sum_bytes nums in
        if negb (Z.land crc 255 =? 0) then
          Raise (HexFileException "crc incorrect")
        else
          address <-- unpack_H (firstn 2 (skipn 1 nums)) ;;
          match nth_error nums 3 with
          | None => Raise IndexError
          | Some typ => Ok (address, byte_val typ, slice_4_m1 nums)
          end
  end.

Definition makeHexLine (address typ : Z) (data : list byte) : result string :=
  let bytecount := Z.of_nat (List.length data) in
  bc <-- byte_of_int bytecount ;;
  let nums := [bc] in
  ad <-- pack_H address ;;
  let nums := nums ++ ad in
  ty <-- byte_of_int typ ;;
  let nums := nums ++ [ty] in
  let nums := nums ++ data in
  let crc := sum_bytes nums in
  let crc := Z.land (Z.lnot crc + 1) 255 in
  cb <-- byte_of_int crc ;;
  let nums := nums ++ [cb] in
  Ok (String ":" (hexlify nums)).

(** ** Streams of text *)

Definition newline : ascii := ascii_of_N 10.

(** [print(line, file=f)]: the line and a line feed are appended. *)
Definition print (line : string) (f : string) : string :=
  (f ++ line ++ String newline EmptyString)%string.

(** [for line in f]: the text is cut after each line feed; the lines keep
    their line feed. *)
Fixpoint readlines (f : string) : list string :=
  match f with
  | EmptyString => []
  | String c rest =>
      if Ascii.eqb c newline then String c EmptyString :: readlines rest
      else
        match readlines rest with
        | [] => [String c EmptyString]
        | l :: ls => String c l :: ls
        end
  end.

Fixpoint lstrip (s : string) : string :=
  match s with
  | EmptyString => EmptyString
  | String c rest => if is_space c then lstrip rest else s
  end.

Fixpoint rstrip (s : string) : string :=
  match s with
  | EmptyString => EmptyString
  | String c rest =>
      match rstrip rest with
      | EmptyString => if is_space c then EmptyString else String c EmptyString
      | r => String c r
      end
  end.

(** [line.strip()] *)
Definition strip (s : string) : string := rstrip (lstrip s).

(** One step of the generator [hexfields]: [None] when the line is skipped,
    otherwise what [parseHexLine] yields or raises. *)
Definition hexfield (line : string) : option (result (Z * Z * list byte)) :=
  let line := strip line in
  match line with
  | EmptyString => None
  | String c _ => if negb (Ascii.eqb c ":") then None else Some (parseHexLine line)
  end.

(** ** Regions *)

Record HexFileRegion : Type := mkRegion { address : Z; data : list byte }.

Definition addData (r : HexFileRegion) (d : list byte) : HexFileRegion :=
  {| address := address r; data := data r ++ d |}.

Definition Size (r : HexFileRegion) : Z := Z.of_nat (List.length (data r)).

Definition EndAddress (r : HexFileRegion) : Z :=
  address r + Z.of_nat (List.length (data r)).

Fixpoint bytes_eqb (a b : list byte) : bool :=
  match a, b with
  | [], [] => true
  | x :: a', y :: b' => Byte.eqb x y && bytes_eqb a' b'
  | _, _ => false
  end.

(** [HexFileRegion.__eq__] *)
Definition region_eq (self other : HexFileRegion) : bool :=
  (address self =? address other) && bytes_eqb (data self) (data other).

#[export] Instance region_inhabited : Inhabited HexFileRegion :=
  populate (mkRegion 0 []).

(** ** The region list and [HexFile.check]

    [check] iterates over [zip(self.regions[:-1], self.regions[1:])], a
    snapshot of the list, while it mutates the region objects and removes
    entries of [self.regions].  The objects therefore live in a store and the
    list holds references into it. *)

Abbreviation ref := nat (only parsing).
Abbreviation store := (list HexFileRegion) (only parsing).

(** Insertion before the first entry whose key is not smaller: the sort is
    stable, as [list.sort] is. *)
Fixpoint insert_sorted (r : HexFileRegion) (l : list HexFileRegion)
  : list HexFileRegion :=
  match l with
  | [] => [r]
  | x :: l' =>
      if address r <=? address x then r :: l else x :: insert_sorted r l'
  end.

(** [regions.sort(key=lambda r: r.address)] *)
Fixpoint sort_by_address (l : list HexFileRegion) : list HexFileRegion :=
  match l with
  | [] => []
  | x :: l' => insert_sorted x (sort_by_address l')
  end.

(** [zip(regions[:-1], regions[1:])] *)
Definition snapshot_pairs (regions : list ref) : list (ref * ref) :=
  combine (removelast regions) (tail regions).

(** [regions.remove(x)]: drops the first entry equal to [x] under
    [HexFileRegion.__eq__]; [None] stands for the [ValueError] of a missing
    entry. *)
Fixpoint list_remove (st : store) (x : HexFileRegion) (regions : list ref)
  : option (list ref) :=
  match regions with
  | [] => None
  | i :: rest =>
      if region_eq (st !!! i) x then Some rest
      else
        match list_remove st x rest with
        | Some rest' => Some (i :: rest')
        | None => None
        end
  end.

(** The body of the [for] loop, over the snapshot. *)
Fixpoint check_for (ps : list (ref * ref)) (st : store) (regions : list ref)
    (change : bool) : result (store * list ref * bool) :=
  match ps with
  | [] => Ok (st, regions, change)
  | (i1, i2) :: ps' =>
      let r1 := st !!! i1 in
      let r2 := st !!! i2 in
      if EndAddress r1 =? address r2 then
        let st := <[i1 := addData r1 (data r2)]> st in
        match list_remove st (st !!! i2) regions with
        | None => Raise ValueError
        | Some regions => check_for ps' st regions true
        end
      else if EndAddress r1 >? address r2 then
        Raise (HexFileException "Overlapping regions")
      else check_for ps' st regions change
  end.

(** [while change and len(self.regions) > 1].  Each round that sets [change]
    removes an entry, so the length of the list bounds the number of rounds
    ([check_while_fuel] below); [OutOfFuel] is never returned by [check]. *)
Fixpoint check_while (fuel : nat) (st : store) (regions : list ref)
    (change : bool) : result (store * list ref) :=
  if change && (1 <? List.length regions)%nat then
    match fuel with
    | O => Raise OutOfFuel
    | S fuel' =>
        match check_for (snapshot_pairs regions) st regions false with
        | Ok (st', regions', change') => check_while fuel' st' regions' change'
        | Raise e => Raise e
        end
    end
  else Ok (st, regions).

(** [HexFile.check], on the values of [self.regions]: the objects are
    numbered by their place in the sorted list. *)
Definition check (regions : list HexFileRegion)
  : result (list HexFileRegion) :=
  let st := sort_by_address regions in
  let refs := seq 0 (List.length st) in
  match check_while (List.length refs) st refs true with
  | Ok (st', refs') => Ok (map (fun i => st' !!! i) refs')
  | Raise e => Raise e
  end.

(** ** The class [HexFile] *)

Record HexFile : Type := mkHexFile {
  regions : list HexFileRegion;
  startAddress : Z
}.

(** [HexFile()] *)
Definition HexFile_new : HexFile := {| regions := []; startAddress := 0 |}.

Definition addRegion (self : HexFile) (addr : Z) (d : list byte)
  : result HexFile :=
  let r := mkRegion addr d in
  regs <-- check (regions self ++ [r]) ;;
  Ok {| regions := regs; startAddress := startAddress self |}.

(** [for r in other.regions: self.addRegion(r.address, r.data)] *)
Fixpoint merge_loop (self : HexFile) (others : list HexFileRegion)
  : result HexFile :=
  match others with
  | [] => Ok self
  | r :: rest =>
      self' <-- addRegion self (address r) (data r) ;;
      merge_loop self' rest
  end.

Definition merge (self other : HexFile) : result HexFile :=
  merge_loop self (regions other).

(** [HexFile.__eq__] *)
Definition HexFile_eq (self other : HexFile) : bool :=
  let oregions := regions other in
  let regions := regions self in
  if negb (List.length regions =? List.length oregions)%nat then false
  else forallb (fun p => region_eq (fst p) (snd p)) (combine regions oregions).

(** ** [HexFile.load] *)

(** [str(typ)], for the message of an unknown record type. *)
Definition str_of_int (n : Z) : string :=
  NilZero.string_of_uint (N.to_uint (Z.to_N n)).

Record load_state : Type := mkLoad {
  endOfFile : bool;
  ext : Z;
  hexfile : HexFile
}.

(** The body of the loop of [load], for one record. *)
Definition load_record (s : load_state) (rec : Z * Z * list byte)
  : result load_state :=
  let '(addr, typ, d) := rec in
  if endOfFile s then
    Raise (HexFileException "hexfile line after end of file record")
  else if typ =? 0 then
    h <-- addRegion (hexfile s) (addr + ext s) d ;;
    Ok {| endOfFile := endOfFile s; ext := ext s; hexfile := h |}
  else if typ =? EXTLINADR then
    e <-- unpack_H (firstn 2 d) ;;
    Ok {| endOfFile := endOfFile s; ext := Z.shiftl e 16;
          hexfile := hexfile s |}
  else if typ =? EOF then
    if negb (List.length d =? 0)%nat then
      Raise (HexFileException "end of file not empty")
    else Ok {| endOfFile := true; ext := ext s; hexfile := hexfile s |}
  else if typ =? 5 then
    a <-- unpack_I (firstn 4 d) ;;
    Ok {| endOfFile := endOfFile s; ext := ext s;
          hexfile := {| regions := regions (hexfile s); startAddress := a |} |}
  else
    Raise (HexFileException
             ("record type " ++ str_of_int typ ++ " not implemented")).

(** The loop of [load] over the lines of the stream; [hexfields] is a
    generator, so a line is parsed only when the loop reaches it. *)
Fixpoint load_lines (s : load_state) (lines : list string)
  : result load_state :=
  match lines with
  | [] => Ok s
  | line :: rest =>
      match hexfield line with
      | None => load_lines s rest
      | Some parsed =>
          rec <-- parsed ;;
          s' <-- load_record s rec ;;
          load_lines s' rest
      end
  end.

Definition load (self : HexFile) (f : string) : result HexFile :=
  s <-- load_lines {| endOfFile := false; ext := 0; hexfile := self |}
          (readlines f) ;;
  Ok (hexfile s).

(** ** [HexFile.save] *)

(** [data[i:j]] *)
Definition slice (d : list byte) (i j : nat) : list byte :=
  firstn (j - i) (skipn i d).

(** The generator [chunks(data, csize)], as the list of what it yields.  The
    index advances by at least one byte per round when [csize] is positive,
    so [length data] rounds are enough. *)
Fixpoint chunks_from (fuel : nat) (d : list byte) (csize idx : nat)
  : list (list byte) :=
  match fuel with
  | O => []
  | S fuel' =>
      if (idx <? List.length d)%nat then
        let s := Nat.min (List.length d - idx) csize in
        slice d idx (idx + s) :: chunks_from fuel' d csize (idx + s)
      else []
  end.

Definition chunks (d : list byte) : list (list byte) :=
  chunks_from (List.length d) d 16 0.

(** The local function [emit] of [save], on the text written so far. *)
Definition emit (f : string) (addr typ : Z) (d : list byte) : result string :=
  line <-- makeHexLine addr typ d ;;
  Ok (print line f).

(** The inner loop of [save]: the chunks of one region. *)
Fixpoint save_chunks (f : string) (ext addr : Z) (cs : list (list byte))
  : result string :=
  match cs with
  | [] => Ok f
  | chunk :: rest =>
      if addr >=? 65536 then
        let ext := ext + 65536 in
        hi <-- pack_H (Z.shiftr ext 16) ;;
        f <-- emit f 0 EXTLINADR hi ;;
        let addr := addr - 65536 in
        f <-- emit f addr DATA chunk ;;
        save_chunks f ext (addr + Z.of_nat (List.length chunk)) rest
      else
        f <-- emit f addr DATA chunk ;;
        save_chunks f ext (addr + Z.of_nat (List.length chunk)) rest
  end.

(** The outer loop of [save]. *)
Fixpoint save_regions (f : string) (rs : list HexFileRegion) : result string :=
  match rs with
  | [] => Ok f
  | r :: rest =>
      let ext := Z.land (address r) 4294901760 in
      hi <-- pack_H (Z.shiftr ext 16) ;;
      f <-- emit f 0 EXTLINADR hi ;;
      let addr := address r - ext in
      f <-- save_chunks f ext addr (chunks (data r)) ;;
      save_regions f rest
  end.

(** [save]: the text of the stream after the call, from the text before. *)
Definition save (self : HexFile) (f : string) : result string :=
  f <-- save_regions f (regions self) ;;
  emit f 0 EOF [].

(** * The RISC-V backend: [ppci/arch/riscv/arch.py] *)

(** ** Registers

    Modelled from the spec: [registers.py] is not among the sources; a
    [RiscvRegister] is its number, with [ra] = x1 ([LR]), [sp] = x2 and
    [fp] = x8 as the calling convention of the specification names them. *)

Abbreviation register := nat (only parsing).

Definition R0 : register := 0%nat.
Definition LR : register := 1%nat.
Definition SP : register := 2%nat.
Definition FP : register := 8%nat.
Definition R10 : register := 10%nat.
Definition R11 : register := 11%nat.
Definition R12 : register := 12%nat.
Definition R13 : register := 13%nat.
Definition R14 : register := 14%nat.
Definition R15 : register := 15%nat.
Definition R16 : register := 16%nat.
Definition R17 : register := 17%nat.
Definition R28 : register := 28%nat.

(** ** [determine_arg_locations] and [determine_rv_location] *)

(** The loop over [arg_types]; [regs.pop(0)] raises [IndexError] on the
    empty list.  [live_in] is a Python [set]. *)
Fixpoint arg_locations_loop {T : Type} (arg_types : list T)
    (regs l : list register) (live_in : gset register)
  : result (list register * gset register) :=
  match arg_types with
  | [] => Ok (l, live_in)
  | _ :: rest =>
      match regs with
      | [] => Raise IndexError
      | r :: regs' => arg_locations_loop rest regs' (l ++ [r]) (live_in ∪ {[r]})
      end
  end.

Definition determine_arg_locations {T : Type} (arg_types : list T)
  : result (list register * gset register) :=
  arg_locations_loop arg_types [R11; R12; R13; R14; R15; R16; R17] [] ∅.

Definition determine_rv_location {T : Type} (ret_type : T)
  : register * gset register :=
  (R10, ∅ ∪ {[R10]}).

(** ** [make_call] *)

(** Modelled from the spec: [instructions.py] is not among the sources; the
    four instruction classes that [make_call] builds, with the operands in
    the order of the constructor calls. *)
Inductive instruction : Type :=
  | Sw (rs2 : register) (offset : Z) (rs1 : register)
  | Lw (rd : register) (offset : Z) (rs1 : register)
  | Add (rd rs1 : register) (imm : Z)
  | Bl (rd : register) (target : string).

(** [for register in live_regs: yield Sw(register, i, SP); i -= 4] *)
Fixpoint save_loop (live_regs : list register) (i : Z)
  : list instruction * Z :=
  match live_regs with
  | [] => ([], i)
  | register :: rest =>
      let '(ins, i') := save_loop rest (i - 4) in
      (Sw register i SP :: ins, i')
  end.

(** [for register in reversed(live_regs): i += 4; yield Lw(register, i, SP)],
    over the list already reversed. *)
Fixpoint restore_loop (regs : list register) (i : Z)
  : list instruction * Z :=
  match regs with
  | [] => ([], i)
  | register :: rest =>
      let i := i + 4 in
      let '(ins, i') := restore_loop rest i in
      (Lw register i SP :: ins, i')
  end.

(** The instructions that the generator [make_call] yields, for the
    registers [frame.live_regs_over(vcall)] and [vcall.function_name]. *)
Definition make_call (live_regs : list register) (function_name : string)
  : list instruction :=
  let i := 0 in
  let '(saves, i) := save_loop live_regs i in
  let save_lr := [Sw LR i SP] in
  let i := i - 4 in
  let adjust := [Add SP SP i] in
  let call := [Bl LR function_name] in
  let i := 0 in
  let i := i + 4 in
  let restore_lr := [Lw LR i SP] in
  let '(restores, i) := restore_loop (rev live_regs) i in
  saves ++ save_lr ++ adjust ++ call ++ restore_lr ++ restores
        ++ [Add SP SP i].

(** ** A machine for the instructions

    Modelled from the spec: the meaning of the instructions is not in the
    sources; it is that of RV32I: 32 bit registers, x0 reads as zero, a
    byte addressed little endian memory, [sw] and [lw] at [rs1 + offset],
    [add] with an immediate operand, shifts and signed branches. *)

Definition wrap32 (v : Z) : Z := v mod 2 ^ 32.

Definition signed32 (v : Z) : Z := if v <? 2 ^ 31 then v else v - 2 ^ 32.

Record machine : Type := mkMachine {
  xregs : register -> Z;
  memory : Z -> Z
}.

Definition get_reg (m : machine) (r : register) : Z :=
  if (r =? 0)%nat then 0 else xregs m r.

Definition set_reg (m : machine) (r : register) (v : Z) : machine :=
  if (r =? 0)%nat then m
  else {| xregs := fun x => if (x =? r)%nat then wrap32 v else xregs m x;
          memory := memory m |}.

Definition load32 (mem : Z -> Z) (a : Z) : Z :=
  mem (wrap32 a) + 2 ^ 8 * mem (wrap32 (a + 1))
  + 2 ^ 16 * mem (wrap32 (a + 2)) + 2 ^ 24 * mem (wrap32 (a + 3)).

Definition store32 (mem : Z -> Z) (a v : Z) : Z -> Z :=
  fun x =>
    if x =? wrap32 a then v mod 256
    else if x =? wrap32 (a + 1) then (v / 2 ^ 8) mod 256
    else if x =? wrap32 (a + 2) then (v / 2 ^ 16) mod 256
    else if x =? wrap32 (a + 3) then (v / 2 ^ 24) mod 256
    else mem x.

Section CallSemantics.

(** The run of the called function from its entry to its return, and the
    address that [bl] leaves in its link register. *)
Variable callee : string -> machine -> machine.
Variable return_address : Z.

Definition exec (i : instruction) (m : machine) : machine :=
  match i with
  | Sw rs2 offset rs1 =>
      {| xregs := xregs m;
         memory := store32 (memory m) (get_reg m rs1 + offset)
                     (get_reg m rs2) |}
  | Lw rd offset rs1 =>
      set_reg m rd (load32 (memory m) (get_reg m rs1 + offset))
  | Add rd rs1 imm => set_reg m rd (get_reg m rs1 + imm)
  | Bl rd target => callee target (set_reg m rd return_address)
  end.

Definition run (ins : list instruction) (m : machine) : machine :=
  fold_left (fun m i => exec i m) ins m.

End CallSemantics.

(** What the caller relies on: the called function returns with the stack
    pointer it was entered with and leaves the bytes above it alone (within
    the reach of a 12 bit offset). *)
Definition keeps_stack (callee : string -> machine -> machine) : Prop :=
  forall (name : string) (m : machine),
    get_reg (callee name m) SP = get_reg m SP /\
    forall j : Z, 4 <= j < 4096 ->
      memory (callee name m) (wrap32 (get_reg m SP + j))
      = memory m (wrap32 (get_reg m SP + j)).

(** The registers hold 32 bit values. *)
Definition valid_machine (m : machine) : Prop :=
  forall r : register, 0 <= get_reg m r < 2 ^ 32.

(** ** The runtime: [get_runtime] *)

(** The lines of [asm_src]: labels and instructions. *)
Inductive asm_line : Type :=
  | Label (name : string)
  | MovImm (rd : register) (imm : Z)
  | Mov (rd rs : register)
  | Blt (rs1 rs2 : register) (target : string)
  | Bgt (rs1 rs2 : register) (target : string)
  | J (target : string)
  | Slli (rd rs1 : register) (shamt : Z)
  | Srai (rd rs1 : register) (shamt : Z)
  | Sub (rd rs1 rs2 : register)
  | AddImm (rd rs1 : register) (imm : Z)
  | Jalr (rd rs1 : register) (offset : Z).

Definition asm_src : list asm_line :=
  [ Label "__sdiv";
    MovImm R14 0;
    Mov R28 R12;
    Label "__sdiv_inc";
    Blt R28 R11 "__sdiv_lsl";
    J "__sdiv_dec";
    Label "__sdiv_lsl";
    Slli R28 R28 1;
    J "__sdiv_inc";
    Label "__sdiv_dec";
    Blt R11 R28 "__sdiv_skip";
    Sub R11 R11 R28;
    AddImm R14 R14 1;
    Label "__sdiv_skip";
    Srai R28 R28 1;
    Slli R14 R14 1;
    Label "__skip_check";
    Bgt R28 R12 "__sdiv_dec";
    Mov R10 R14;
    Jalr R0 LR 0 ].

(** The place of a label in the program. *)
Fixpoint find_label (name : string) (prog : list asm_line) : option nat :=
  match prog with
  | [] => None
  | Label l :: rest =>
      if String.eqb l name then Some 0%nat
      else option_map S (find_label name rest)
  | _ :: rest => option_map S (find_label name rest)
  end.

Inductive outcome : Type :=
  | Next (pc : nat) (m : machine)
  | Returned (m : machine)
  | Fault.

Definition jump (prog : list asm_line) (target : string) (m : machine)
  : outcome :=
  match find_label target prog with
  | Some pc => Next pc m
  | None => Fault
  end.

(** One line of the program at [pc].  [jalr x0, ra, 0] returns to the
    caller. *)
Definition asm_step (prog : list asm_line) (pc : nat) (m : machine)
  : outcome :=
  match nth_error prog pc with
  | None => Fault
  | Some line =>
      match line with
      | Label _ => Next (S pc) m
      | MovImm rd imm => Next (S pc) (set_reg m rd imm)
      | Mov rd rs => Next (S pc) (set_reg m rd (get_reg m rs))
      | Blt rs1 rs2 target =>
          if signed32 (get_reg m rs1) <? signed32 (get_reg m rs2)
          then jump prog target m else Next (S pc) m
      | Bgt rs1 rs2 target =>
          if signed32 (get_reg m rs1) >? signed32 (get_reg m rs2)
          then jump prog target m else Next (S pc) m
      | J target => jump prog target m
      | Slli rd rs1 shamt =>
          Next (S pc) (set_reg m rd (Z.shiftl (get_reg m rs1) shamt))
      | Srai rd rs1 shamt =>
          Next (S pc)
            (set_reg m rd (Z.shiftr (signed32 (get_reg m rs1)) shamt))
      | Sub rd rs1 rs2 =>
          Next (S pc) (set_reg m rd (get_reg m rs1 - get_reg m rs2))
      | AddImm rd rs1 imm => Next (S pc) (set_reg m rd (get_reg m rs1 + imm))
      | Jalr rd rs1 offset => Returned (set_reg m rd (Z.of_nat (S pc)))
      end
  end.

(** The run of a routine until it returns; [None] when the fuel is used
    up or the program faults. *)
Fixpoint asm_run (fuel : nat) (prog : list asm_line) (pc : nat) (m : machine)
  : option machine :=
  match fuel with
  | O => None
  | S fuel' =>
      match asm_step prog pc m with
      | Next pc' m' => asm_run fuel' prog pc' m'
      | Returned m' => Some m'
      | Fault => None
      end
  end.

(** A call of [__sdiv]: the arguments in x11 and x12, the other registers
    zero. *)
Definition sdiv_entry (x11 x12 : Z) : machine :=
  {| xregs := fun r =>
       if (r =? R11)%nat then wrap32 x11
       else if (r =? R12)%nat then wrap32 x12 else 0;
     memory := fun _ => 0 |}.

Definition run_sdiv (fuel : nat) (x11 x12 : Z) : option Z :=
  match find_label "__sdiv" asm_src with
  | None => None
  | Some pc =>
      match asm_run fuel asm_src pc (sdiv_entry x11 x12) with
      | Some m => Some (get_reg m R10)
      | None => None
      end
  end.

(** ** Definitions used in the statements *)

(** What [makeHexLine] builds before it is turned into text. *)
Definition record_bytes (addr typ : Z) (d : list byte) : list byte :=
  let body :=
    [low_byte (Z.of_nat (List.length d)); low_byte (addr / 256); low_byte addr;
     low_byte typ] ++ d in
  body ++ [low_byte (- sum_bytes body)].

(** The records of a text, as [hexfields] yields them. *)
Definition records_of (f : string) : list (option (result (Z * Z * list byte))) :=
  map hexfield (readlines f).

Definition scenario_file : HexFile :=
  {| regions := [mkRegion 134217728 [x01; x02; x03; x04]];
     startAddress := 134217728 |}.

(** The four records that the scenario expects. *)
Definition scenario_expected : list (option (result (Z * Z * list byte))) :=
  [Some (Ok (0, 4, [x08; x00]));
   Some (Ok (0, 0, [x01; x02; x03; x04]));
   Some (Ok (0, 5, [x08; x00; x00; x00]));
   Some (Ok (0, 1, []))].

(** The invariant of the region list: the addresses increase strictly and
    each region ends strictly before the next one starts. *)
Fixpoint gapped (l : list HexFileRegion) : Prop :=
  match l with
  | [] => True
  | r1 :: l' =>
      match l' with
      | [] => True
      | r2 :: _ => address r1 < address r2 /\ EndAddress r1 < address r2
      end /\ gapped l'
  end.

(** A pair of the snapshot that [check] passes over without a change. *)
Definition pair_gap (st : store) (p : ref * ref) : Prop :=
  EndAddress (st !!! fst p) < address (st !!! snd p).

(** The images that a program can build: a fresh [HexFile], regions added
    with success, a start address assigned. *)
Inductive built : HexFile -> Prop :=
  | built_new : built HexFile_new
  | built_add (h h' : HexFile) (a : Z) (d : list byte) :
      built h -> addRegion h a d = Ok h' -> built h'
  | built_start (h : HexFile) (a : Z) :
      built h -> built {| regions := regions h; startAddress := a |}.

(** Addresses that do not decrease: [sort] leaves such a list alone. *)
Fixpoint ascending (l : list HexFileRegion) : Prop :=
  match l with
  | [] => True
  | x :: l' =>
      match l' with [] => True | y :: _ => address x <= address y end
      /\ ascending l'
  end.


(** Text without white space. *)
Fixpoint nospace (s : string) : bool :=
  match s with
  | EmptyString => true
  | String c rest => negb (is_space c) && nospace rest
  end.

(** The text of a list of lines, each followed by a line feed. *)
Fixpoint flatten (ls : list string) : string :=
  match ls with
  | [] => EmptyString
  | l :: rest => (l ++ String newline (flatten rest))%string
  end.

Definition with_newline (l : string) : string :=
  (l ++ String newline EmptyString)%string.

(** The reader follows the writer: the text [f] written so far is made of
    complete lines, and [load], started in [s0], is in state [s] after it
    has read them. *)
Definition follows (s0 : load_state) (f : string) (s : load_state) : Prop :=
  exists ls : list string,
    f = flatten ls /\ Forall (fun l => nospace l = true) ls /\
    load_lines s0 (map with_newline ls) = Ok s.

(** What [load] has rebuilt of a region at [a] with data [d] when the first
    [idx] bytes have been read. *)
Definition partial_region (a : Z) (d : list byte) (idx : nat)
  : list HexFileRegion :=
  match idx with
  | O => []
  | S _ => [mkRegion a (firstn idx d)]
  end.

(** A region that the format can hold: it has data and it lies in the 32 bit
    address space. *)
Definition storable (r : HexFileRegion) : Prop :=
  data r <> [] /\ 0 <= address r /\ EndAddress r <= 2 ^ 32.

(** An image with one region of twenty bytes that crosses the 64 KiB
    boundary at 0x10000. *)
Definition boundary_file : HexFile :=
  {| regions := [mkRegion 65528 (repeat x07 20)]; startAddress := 0 |}.

(** The argument registers of the calling convention, in order. *)
Definition arg_regs : list register := [R11; R12; R13; R14; R15; R16; R17].

(** The instructions of [make_call] without the last one, with the first
    store at offset [i]: the saves, the call and the restores. *)
Definition call_core (live_regs : list register) (function_name : string)
    (i : Z) : list instruction :=
  fst (save_loop live_regs i)
  ++ [Sw LR (snd (save_loop live_regs i)) SP;
      Add SP SP (snd (save_loop live_regs i) - 4);
      Bl LR function_name;
      Lw LR 4 SP]
  ++ fst (restore_loop (rev live_regs) 4).

(** The words of the specification for the stores of a call: a store below
    SP, that is, relative to SP and at a negative offset.  The other
    instructions are no stores. *)
Definition store_below_SP (i : instruction) : bool :=
  match i with
  | Sw _ offset rs1 => (rs1 =? SP)%nat && (offset <? 0)
  | _ => true
  end.

(** Two words of memory that share no byte. *)
Definition apart (a b : Z) : Prop :=
  forall x y : Z, 0 <= x < 4 -> 0 <= y < 4 -> wrap32 (a + x) <> wrap32 (b + y).

(** A called function that overwrites every register but the stack
    pointer, and a machine to call it from. *)
Definition clobbering_callee (name : string) (m : machine) : machine :=
  {| xregs := fun r => if (r =? SP)%nat then xregs m r else 3735928559;
     memory := memory m |}.

Definition demo_machine : machine :=
  {| xregs := fun r =>
       if (r =? SP)%nat then 4096
       else if (r =? LR)%nat then 256
       else if (r =? 9)%nat then 7
       else if (r =? 18)%nat then 9 else 0;
     memory := fun _ => 0 |}.

(** The place that the stable sort gives to a region appended to a sorted
    list: after the regions whose address is not larger. *)
Fixpoint insert_last (r : HexFileRegion) (l : list HexFileRegion)
  : list HexFileRegion :=
  match l with
  | [] => [r]
  | x :: l' =>
      if address x <=? address r then x :: insert_last r l' else r :: l
  end.

(** ** Further definitions used in the statements *)

(** Every chunk but the last one has [n] bytes. *)
Fixpoint full_but_last (n : nat) (cs : list (list byte)) : Prop :=
  match cs with
  | [] => True
  | c :: rest => (rest <> [] -> List.length c = n) /\ full_but_last n rest
  end.

(** A text that is empty or ends with a line feed. *)
Definition complete_text (f : string) : Prop :=
  f = EmptyString \/ exists g : string, f = with_newline g.

(** A line that [hexfields] passes over: nothing is left of it when it is
    stripped, or what is left does not start with a colon. *)
Definition skipped_line (line : string) : Prop :=
  strip line = EmptyString \/
  exists (c : ascii) (r : string), strip line = String c r /\ c <> ":"%char.

(** The image of the scenario with another start address, and two images to
    merge. *)
Definition started_file : HexFile :=
  {| regions := [mkRegion 134217728 [x01; x02; x03; x04]];
     startAddress := 134217729 |}.

Definition low_file : HexFile :=
  {| regions := [mkRegion 0 [x01; x02]]; startAddress := 7 |}.

Definition high_file : HexFile :=
  {| regions := [mkRegion 16 [x0a]; mkRegion 32 [x0b; x0c]];
     startAddress := 9 |}.

(** What [check] takes for an overlap of a new region at [a] with data [d]:
    a region of the image that starts at or before [a] and ends after it,
    or that starts after [a] and before the end of the new region. *)
Definition in_the_way (a : Z) (d : list byte) (q : HexFileRegion) : bool :=
  ((address q <=? a) && (a <? EndAddress q))
  || ((a <? address q) && (address q <? a + Z.of_nat (List.length d))).

(** An image with a region without data, three regions in a row, and an
    image with room for one byte between two regions. *)
Definition three_regions : HexFile :=
  {| regions := [mkRegion 0 [x01]; mkRegion 16 [x0a; x0b]; mkRegion 32 [x0c]];
     startAddress := 0 |}.

Definition room_for_one : HexFile :=
  {| regions := [mkRegion 0 [x01]; mkRegion 2 [x03]; mkRegion 9 [x09]];
     startAddress := 0 |}.

(** The registers of [__sdiv]: the dividend in x11, the divisor in x12, the
    shifted divisor in x28 and the result in x14. *)
Definition sdiv_regs (m : machine) (x11 x12 x28 x14 : Z) : Prop :=
  get_reg m R11 = x11 /\ get_reg m R12 = x12 /\
  get_reg m R28 = x28 /\ get_reg m R14 = x14.

(** ** [move] and [gen_fill_arguments]

    Modelled from the spec: [Mov2] of [instructions.py], which is not among
    the sources, is the move of a register to a register. *)
Inductive move_instruction : Type :=
  | Mov2 (rd rs : register).

Definition move (dst src : register) : move_instruction := Mov2 dst src.

(** The moves that the generator yields, and the set [live] when it is
    exhausted.  [determine_arg_locations] is called, and may raise, before
    [live] is updated.  Every location is a register, so the branch that
    raises [NotImplementedError] is never taken; [zip] stops at the shorter
    list. *)
Definition gen_fill_arguments {T : Type} (arg_types : list T)
    (args : list register) (live : gset register)
  : result (list move_instruction * gset register) :=
  locations <-- determine_arg_locations arg_types ;;
  let '(arg_locs, live_in) := locations in
  let live := live ∪ live_in in
  Ok (zip_with move arg_locs args, live).

Definition exec_move (i : move_instruction) (m : machine) : machine :=
  match i with
  | Mov2 rd rs => set_reg m rd (get_reg m rs)
  end.

Definition run_moves (ins : list move_instruction) (m : machine) : machine :=
  fold_left (fun m i => exec_move i m) ins m.


(** ** The literal pool of [RiscvAssembler] *)

Module RiscvAssembler.

(** Modelled from the spec: [Label] and [dcd] are not among the sources,
    nor is [BaseAssembler]; a label and a data word are what the pool
    holds, [emit] appends to the output of the assembler, and [in_macro]
    is set while a macro is open. *)
Inductive item : Type :=
  | Label (name : string)
  | dcd (v : string).

Record assembler : Type := mkAssembler {
  in_macro : bool;
  stream : list item;
  lit_pool : list item;
  lit_counter : Z
}.

(** [__init__] *)
Definition init : assembler :=
  {| in_macro := false; stream := []; lit_pool := []; lit_counter := 0 |}.

Definition emit (self : assembler) (i : item) : assembler :=
  {| in_macro := in_macro self; stream := stream self ++ [i];
     lit_pool := lit_pool self; lit_counter := lit_counter self |}.

(** [while self.lit_pool: i = self.lit_pool.pop(0); self.emit(i)] *)
Fixpoint flush_loop (pool : list item) (self : assembler) : assembler :=
  match pool with
  | [] => self
  | i :: rest =>
      flush_loop rest
        (emit {| in_macro := in_macro self; stream := stream self;
                 lit_pool := rest; lit_counter := lit_counter self |} i)
  end.

(** [flush]; [None] stands for the [Exception] that is raised in a
    macro. *)
Definition flush (self : assembler) : option assembler :=
  if in_macro self then None else Some (flush_loop (lit_pool self) self).

(** [add_literal]: the assembler after the call and the label returned. *)
Definition add_literal (self : assembler) (v : string)
  : assembler * string :=
  let lit_counter := lit_counter self + 1 in
  let label_name := ("_lit_" ++ str_of_int lit_counter)%string in
  let lit_pool := lit_pool self ++ [Label label_name] in
  let lit_pool := lit_pool ++ [dcd v] in
  ({| in_macro := in_macro self; stream := stream self;
      lit_pool := lit_pool; lit_counter := lit_counter |}, label_name).

(** A sequence of calls on an assembler, with the labels that the calls of
    [add_literal] return; it ends at a [flush] that raises. *)
Inductive call : Type :=
  | CallAddLiteral (v : string)
  | CallFlush.

Fixpoint calls (cs : list call) (self : assembler)
  : assembler * list string :=
  match cs with
  | [] => (self, [])
  | CallAddLiteral v :: rest =>
      let '(self, label_name) := add_literal self v in
      let '(self, labels) := calls rest self in
      (self, label_name :: labels)
  | CallFlush :: rest =>
      match flush self with
      | Some self => calls rest self
      | None => (self, [])
      end
  end.

(** The literals of a sequence of calls. *)
Fixpoint literals (cs : list call) : list string :=
  match cs with
  | [] => []
  | CallAddLiteral v :: rest => v :: literals rest
  | CallFlush :: rest => literals rest
  end.

End RiscvAssembler.

(** * The types of the c3 front end: [ppci/c3/astnodes.py] *)

(** [StructField]: a name and a type. *)
Record StructField (T : Type) : Type := mkStructField {
  name : string;
  typ : T
}.

Arguments mkStructField {T} name typ.
Arguments name {T} s.
Arguments typ {T} s.

(** [StructureType.hasField] *)
Fixpoint hasField {T : Type} (mems : list (StructField T)) (n : string)
  : bool :=
  match mems with
  | [] => false
  | mem :: rest => if String.eqb n (name mem) then true else hasField rest n
  end.

(** [StructureType.findField]; the error is [KeyError(name)]. *)
Inductive lookup (A : Type) : Type :=
  | Found (a : A)
  | KeyError (n : string).

Arguments Found {A} a.
Arguments KeyError {A} n.

Fixpoint findField {T : Type} (mems : list (StructField T)) (n : string)
  : lookup (StructField T) :=
  match mems with
  | [] => KeyError n
  | mem :: rest => if String.eqb n (name mem) then Found mem
                   else findField rest n
  end.

(** [StructureType.fieldType] *)
Definition fieldType {T : Type} (mems : list (StructField T)) (n : string)
  : lookup T :=
  match findField mems n with
  | Found mem => Found (typ mem)
  | KeyError k => KeyError k
  end.

(** The register that a line of assembly writes. *)
Definition written (line : asm_line) : option register :=
  match line with
  | Label _ | Blt _ _ _ | Bgt _ _ _ | J _ => None
  | MovImm rd _ | Mov rd _ | Slli rd _ _ | Srai rd _ _ | Sub rd _ _
  | AddImm rd _ _ | Jalr rd _ _ => Some rd
  end.

(** * Records: check sums and the round trip of one line *)

Lemma byte_val_range (b : byte) : 0 <= byte_val b < 256.
Proof.
  unfold byte_val. pose proof (Byte.to_N_bounded b). lia.
Qed.

Lemma low_byte_val (v : Z) : byte_val (low_byte v) = v mod 256.
Proof.
  unfold low_byte, byte_val.
  assert (Hr : 0 <= v mod 256 < 256) by (apply Z.mod_pos_bound; lia).
  destruct (Byte.of_N (Z.to_N (v mod 256))) as [b|] eqn:E.
  - apply Byte.to_of_N in E. rewrite E. lia.
  - apply Byte.of_N_None_iff in E. lia.
Qed.

Lemma byte_val_inj (a b : byte) : byte_val a = byte_val b -> a = b.
Proof.
  unfold byte_val. intros H.
  assert (E : Byte.to_N a = Byte.to_N b) by lia.
  pose proof (Byte.of_to_N a) as Ha. rewrite E, Byte.of_to_N in Ha.
  congruence.
Qed.

Lemma low_byte_byte_val (b : byte) : low_byte (byte_val b) = b.
Proof.
  apply byte_val_inj. rewrite low_byte_val.
  apply Z.mod_small, byte_val_range.
Qed.

Lemma low_byte_mod (v : Z) : low_byte (v mod 256) = low_byte v.
Proof.
  apply byte_val_inj. rewrite !low_byte_val. apply Z.mod_mod. lia.
Qed.

Lemma byte_of_int_ok (v : Z) :
  0 <= v < 256 -> byte_of_int v = Ok (low_byte v).
Proof.
  intros Hv. unfold byte_of_int, low_byte.
  replace ((0 <=? v) && (v <? 256)) with true
    by (symmetry; apply andb_true_iff; split; [apply Z.leb_le|apply Z.ltb_lt]; lia).
  rewrite Z.mod_small by lia.
  destruct (Byte.of_N (Z.to_N v)) as [b|] eqn:E; [reflexivity|].
  apply Byte.of_N_None_iff in E. lia.
Qed.

Lemma byte_of_int_raises (v : Z) :
  v < 0 \/ 256 <= v -> byte_of_int v = Raise ValueError.
Proof.
  intros Hv. unfold byte_of_int.
  destruct ((0 <=? v) && (v <? 256)) eqn:E; [|reflexivity].
  apply andb_true_iff in E. destruct E as [E1 E2].
  apply Z.leb_le in E1. apply Z.ltb_lt in E2. lia.
Qed.

Lemma sum_bytes_app (a b : list byte) :
  sum_bytes (a ++ b) = sum_bytes a + sum_bytes b.
Proof.
  induction a as [|x a IH]; simpl; [reflexivity|].
  unfold sum_bytes in *. simpl. rewrite IH. lia.
Qed.

Lemma sum_bytes_cons (x : byte) (a : list byte) :
  sum_bytes (x :: a) = byte_val x + sum_bytes a.
Proof. reflexivity. Qed.

Lemma land_255 (v : Z) : Z.land v 255 = v mod 256.
Proof. change 255 with (Z.ones 8). rewrite Z.land_ones by lia. reflexivity. Qed.

(** The check sum byte of [makeHexLine] is the two's complement of the sum. *)
Lemma twos_complement (crc : Z) :
  Z.land (Z.lnot crc + 1) 255 = (- crc) mod 256.
Proof. rewrite land_255, Z.succ_lnot. reflexivity. Qed.

Lemma pack_H_ok (v : Z) :
  0 <= v <= 65535 -> pack_H v = Ok [low_byte (v / 256); low_byte v].
Proof.
  intros Hv. unfold pack_H.
  replace ((0 <=? v) && (v <=? 65535)) with true; [reflexivity|].
  symmetry. apply andb_true_iff. split; apply Z.leb_le; lia.
Qed.

Lemma pack_H_raises (v : Z) :
  v < 0 \/ 65535 < v -> pack_H v = Raise StructError.
Proof.
  intros Hv. unfold pack_H.
  destruct ((0 <=? v) && (v <=? 65535)) eqn:E; [|reflexivity].
  apply andb_true_iff in E. destruct E as [E1 E2].
  apply Z.leb_le in E1. apply Z.leb_le in E2. lia.
Qed.

Lemma unpack_pack_H (v : Z) :
  0 <= v <= 65535 -> unpack_H [low_byte (v / 256); low_byte v] = Ok v.
Proof.
  intros Hv. unfold unpack_H. rewrite !low_byte_val. f_equal.
  rewrite (Z.mod_small (v / 256)).
  - pose proof (Z.div_mod v 256). lia.
  - split; [apply Z.div_pos; lia|apply Z.div_lt_upper_bound; lia].
Qed.

(** One byte of hexadecimal text is read back. *)
Lemma fromhex_byte (b : byte) (s : string) :
  fromhex (String (hexdigit (Byte.to_N b / 16))
             (String (hexdigit (Byte.to_N b mod 16)) s))
  = (tl <-- fromhex s ;; Ok (b :: tl)).
Proof. destruct b; reflexivity. Qed.

Lemma fromhex_hexlify (nums : list byte) : fromhex (hexlify nums) = Ok nums.
Proof.
  induction nums as [|b nums IH]; [reflexivity|].
  cbn [hexlify]. rewrite fromhex_byte, IH. reflexivity.
Qed.

Lemma removelast_snoc {A : Type} (l : list A) (x : A) :
  removelast (l ++ [x]) = l.
Proof. apply removelast_last. Qed.

Lemma makeHexLine_ok (addr typ : Z) (d : list byte) :
  0 <= addr < 65536 -> 0 <= typ < 256 -> (List.length d <= 255)%nat ->
  makeHexLine addr typ d = Ok (String ":" (hexlify (record_bytes addr typ d))).
Proof.
  intros Ha Ht Hd. unfold makeHexLine.
  rewrite byte_of_int_ok by lia. cbn [bind].
  rewrite pack_H_ok by lia. cbn [bind].
  rewrite byte_of_int_ok by lia. cbn [bind].
  rewrite twos_complement.
  rewrite byte_of_int_ok by (apply Z.mod_pos_bound; lia). cbn [bind].
  unfold record_bytes. cbn [app]. rewrite low_byte_mod. reflexivity.
Qed.

Lemma record_bytes_sum (addr typ : Z) (d : list byte) :
  sum_bytes (record_bytes addr typ d) mod 256 = 0.
Proof.
  unfold record_bytes.
  set (body := _ ++ d).
  rewrite sum_bytes_app, sum_bytes_cons, low_byte_val.
  change (sum_bytes []) with 0. rewrite Z.add_0_r.
  rewrite Z.add_mod_idemp_r by lia.
  replace (sum_bytes body + - sum_bytes body) with 0 by lia. reflexivity.
Qed.

Lemma parseHexLine_record (addr typ : Z) (d : list byte) :
  0 <= addr < 65536 -> 0 <= typ < 256 -> (List.length d <= 255)%nat ->
  parseHexLine (String ":" (hexlify (record_bytes addr typ d)))
  = Ok (addr, typ, d).
Proof.
  intros Ha Ht Hd. unfold parseHexLine. cbn [str_tail].
  rewrite fromhex_hexlify. cbn [bind].
  pose proof (record_bytes_sum addr typ d) as Hsum.
  unfold record_bytes in *. cbn [app] in *.
  rewrite low_byte_val, (Z.mod_small (Z.of_nat _)) by lia.
  replace (Z.of_nat (List.length _) =? Z.of_nat (List.length d) + 5) with true.
  2:{ symmetry. apply Z.eqb_eq. cbn [List.length].
      rewrite length_app. cbn [List.length]. lia. }
  cbn [negb]. rewrite land_255, Hsum. cbn [Z.eqb negb].
  cbn [skipn firstn nth_error].
  rewrite unpack_pack_H by lia. cbn [bind].
  rewrite low_byte_val, (Z.mod_small typ) by lia.
  unfold slice_4_m1. cbn [skipn]. rewrite skipn_O, removelast_snoc. reflexivity.
Qed.

(** C5: for an address below 2^16, a record type that is a byte and at most
    255 bytes of data, [makeHexLine] returns the text of a record whose last
    byte is the two's complement of the sum of the bytes before it, so the
    bytes of the record sum to 0 modulo 256, and [parseHexLine] accepts the
    line and gives back the address, the type and the data. *)
Theorem makeHexLine_checksum_zero (addr typ : Z) (d : list byte) :
  0 <= addr < 2 ^ 16 -> 0 <= typ < 256 -> (List.length d <= 255)%nat ->
  exists (body : list byte) (crc : byte) (line : string),
    makeHexLine addr typ d = Ok line /\
    line = String ":" (hexlify (body ++ [crc])) /\
    byte_val crc = (- sum_bytes body) mod 256 /\
    sum_bytes (body ++ [crc]) mod 256 = 0 /\
    parseHexLine line = Ok (addr, typ, d).
Proof.
  intros Ha Ht Hd.
  change (2 ^ 16) with 65536 in Ha.
  eexists _, _, _. split; [apply makeHexLine_ok; assumption|].
  split; [reflexivity|]. split; [apply low_byte_val|].
  split; [apply record_bytes_sum|].
  apply parseHexLine_record; assumption.
Qed.

Lemma makeHexLine_checksum_zero_witness :
  exists (body : list byte) (crc : byte) (line : string),
    makeHexLine 0 4 [x08; x00] = Ok line /\
    line = String ":" (hexlify (body ++ [crc])) /\
    byte_val crc = (- sum_bytes body) mod 256 /\
    sum_bytes (body ++ [crc]) mod 256 = 0 /\
    parseHexLine line = Ok (0, 4, [x08; x00]).
Proof.
  apply (makeHexLine_checksum_zero 0 4 [x08; x00]); simpl; lia.
Defined.

(** * The image of the specification's scenario *)

(** C4, refuted as stated: the text that [save] writes for the scenario does
    not hold the four expected records; it holds no record of type 05. *)
Lemma save_scenario_not_four_records :
  exists out, save scenario_file "" = Ok out /\
    records_of out <> scenario_expected /\
    ~ In (Some (Ok (0, 5, [x08; x00; x00; x00]))) (records_of out).
Proof.
  eexists. split; [vm_compute; reflexivity|].
  split.
  - vm_compute. discriminate.
  - vm_compute. intros [H|[H|[H|[]]]]; discriminate H.
Qed.

(** C4, amended: for the scenario [save] writes exactly three lines, in lower
    case: the extended linear address record for 0x0800, the data record
    with the four bytes and the empty end of file record, which is last. *)
Theorem save_scenario_three_records :
  save scenario_file ""
  = Ok (print ":00000001ff"
          (print ":0400000001020304f2" (print ":020000040800f2" ""))) /\
  records_of (print ":00000001ff"
                (print ":0400000001020304f2" (print ":020000040800f2" "")))
  = [Some (Ok (0, EXTLINADR, [x08; x00]));
     Some (Ok (0, DATA, [x01; x02; x03; x04]));
     Some (Ok (0, EOF, []))].
Proof. split; vm_compute; reflexivity. Qed.

(** * Equality of images *)

Lemma bytes_eqb_eq (a b : list byte) : bytes_eqb a b = true <-> a = b.
Proof.
  revert b. induction a as [|x a IH]; intros [|y b]; simpl;
    try (split; [discriminate|discriminate]); [tauto|].
  rewrite andb_true_iff, IH. split.
  - intros [H1 H2]. apply Byte.byte_dec_bl in H1. congruence.
  - intros H. injection H as -> ->. split; [apply Byte.byte_dec_lb|]; reflexivity.
Qed.

Lemma region_eq_eq (r o : HexFileRegion) : region_eq r o = true <-> r = o.
Proof.
  unfold region_eq. rewrite andb_true_iff, Z.eqb_eq, bytes_eqb_eq.
  destruct r, o; simpl. split; [intros [-> ->]; reflexivity|].
  intros H. injection H as -> ->. tauto.
Qed.

Lemma region_eq_refl (r : HexFileRegion) : region_eq r r = true.
Proof. apply region_eq_eq. reflexivity. Qed.

Lemma HexFile_eq_spec (h1 h2 : HexFile) :
  HexFile_eq h1 h2 = true <-> regions h1 = regions h2.
Proof.
  unfold HexFile_eq. destruct h1 as [l1 a1], h2 as [l2 a2]. cbn [regions].
  revert l2. induction l1 as [|r l1 IH]; intros [|o l2]; cbn;
    try (split; [discriminate|discriminate]); [tauto|].
  specialize (IH l2).
  destruct (List.length l1 =? List.length l2)%nat eqn:E; cbn in *.
  - rewrite andb_true_iff, region_eq_eq, IH. split.
    + intros [-> ->]. reflexivity.
    + intros H. injection H as -> ->. tauto.
  - split; [discriminate|]. intros H. injection H as -> ->.
    rewrite Nat.eqb_refl in E. discriminate.
Qed.

(** C10: [HexFile.__eq__] looks at the region lists only: its result does
    not depend on the start addresses, and two images with the same regions
    are equal whatever their start addresses are. *)
Theorem HexFile_eq_ignores_startAddress :
  (forall (rs : list HexFileRegion) (a1 a2 : Z),
     HexFile_eq (mkHexFile rs a1) (mkHexFile rs a2) = true) /\
  (forall (h1 h2 : HexFile) (a1 a2 : Z),
     HexFile_eq h1 h2
     = HexFile_eq (mkHexFile (regions h1) a1) (mkHexFile (regions h2) a2)).
Proof.
  split.
  - intros rs a1 a2. apply HexFile_eq_spec. reflexivity.
  - intros h1 h2 a1 a2. reflexivity.
Qed.

(** * Reading: records after the end of file record *)

Lemma load_lines_app (s : load_state) (l1 l2 : list string) :
  load_lines s (l1 ++ l2) = (s' <-- load_lines s l1 ;; load_lines s' l2).
Proof.
  revert s. induction l1 as [|x l1 IH]; intros s; [reflexivity|].
  cbn [app load_lines]. destruct (hexfield x) as [[rec|e]|]; cbn [bind].
  - destruct (load_record s rec) as [s'|e]; cbn [bind]; [apply IH|reflexivity].
  - reflexivity.
  - apply IH.
Qed.

Lemma load_lines_skipped (s : load_state) (l1 l2 : list string) :
  Forall (fun x => hexfield x = None) l1 ->
  load_lines s (l1 ++ l2) = load_lines s l2.
Proof.
  induction 1 as [|x l1 Hx _ IH]; [reflexivity|].
  cbn [app load_lines]. rewrite Hx. exact IH.
Qed.

Lemma load_record_after_eof (s : load_state) (rec : Z * Z * list byte) :
  endOfFile s = true ->
  load_record s rec
  = Raise (HexFileException "hexfile line after end of file record").
Proof.
  intros H. destruct rec as [[a t] d]. unfold load_record. rewrite H.
  reflexivity.
Qed.

Lemma load_record_eof (s : load_state) (a : Z) (d : list byte) :
  load_record s (a, EOF, d)
  = if endOfFile s then
      Raise (HexFileException "hexfile line after end of file record")
    else if negb (List.length d =? 0)%nat then
      Raise (HexFileException "end of file not empty")
    else Ok {| endOfFile := true; ext := ext s; hexfile := hexfile s |}.
Proof. unfold load_record. destruct (endOfFile s); reflexivity. Qed.

(** C8: when [load] has read the lines [pre] without an error and the next
    record is an end of file record, the first record that is parsed after
    it makes [load] raise [HexFileException]; and an end of file record
    with data makes [load] raise [HexFileException] too. *)
Theorem load_raises_after_eof (self : HexFile) (f : string)
    (pre skipped post : list string) (e l : string) (s1 : load_state)
    (a : Z) (d : list byte) (rec : Z * Z * list byte) :
  load_lines {| endOfFile := false; ext := 0; hexfile := self |} pre = Ok s1 ->
  hexfield e = Some (Ok (a, EOF, d)) ->
  (d = [] ->
   Forall (fun x => hexfield x = None) skipped ->
   hexfield l = Some (Ok rec) ->
   readlines f = pre ++ e :: skipped ++ l :: post ->
   load self f
   = Raise (HexFileException "hexfile line after end of file record")) /\
  (d <> [] ->
   readlines f = pre ++ e :: post ->
   load self f
   = Raise (HexFileException
              (if endOfFile s1 then "hexfile line after end of file record"
               else "end of file not empty"))).
Proof.
  intros Hpre He. split.
  - intros -> Hskip Hl Hf. unfold load. rewrite Hf, load_lines_app, Hpre.
    cbn [bind load_lines]. rewrite He. cbn [bind].
    rewrite load_record_eof. destruct (endOfFile s1); [reflexivity|].
    cbn [List.length Nat.eqb negb bind].
    rewrite load_lines_skipped by assumption.
    cbn [load_lines]. rewrite Hl. cbn [bind].
    rewrite load_record_after_eof by reflexivity. reflexivity.
  - intros Hd Hf. unfold load. rewrite Hf, load_lines_app, Hpre.
    cbn [bind load_lines]. rewrite He. cbn [bind].
    rewrite load_record_eof. destruct (endOfFile s1); [reflexivity|].
    destruct d as [|b d]; [congruence|]. reflexivity.
Qed.

Lemma load_raises_after_eof_witness :
  load HexFile_new
    (print ":00000001ff" (print ":00000001ff" (print ":020000040800f2" "")))
  = Raise (HexFileException "hexfile line after end of file record") /\
  load HexFile_new (print ":0100000155a9" "")
  = Raise (HexFileException "end of file not empty").
Proof.
  split.
  - refine (proj1 (load_raises_after_eof HexFile_new _
              [print ":020000040800f2" ""] [] []
              (print ":00000001ff" "") (print ":00000001ff" "")
              {| endOfFile := false; ext := 134217728; hexfile := HexFile_new |}
              0 [] (0, 1, []) _ _) _ _ _ _);
      try reflexivity.
    constructor.
  - refine (proj2 (load_raises_after_eof HexFile_new _
              [] [] [] (print ":0100000155a9" "") EmptyString
              {| endOfFile := false; ext := 0; hexfile := HexFile_new |}
              0 [x55] (0, 0, []) _ _) _ _);
      try reflexivity.
    discriminate.
Defined.

(** * [HexFile.check]: the loop and its invariant *)

Section CheckLoop.

Implicit Types (st : store) (rs : list ref) (ps : list (ref * ref)).

Lemma snapshot_pairs_cons (i j : ref) rs :
  snapshot_pairs (i :: j :: rs) = (i, j) :: snapshot_pairs (j :: rs).
Proof. reflexivity. Qed.

Lemma gapped_cons2 (r1 r2 : HexFileRegion) (l : list HexFileRegion) :
  gapped (r1 :: r2 :: l)
  <-> (address r1 < address r2 /\ EndAddress r1 < address r2)
      /\ gapped (r2 :: l).
Proof. reflexivity. Qed.

Lemma EndAddress_ge (r : HexFileRegion) : address r <= EndAddress r.
Proof. unfold EndAddress. lia. Qed.

(** The pairs of the snapshot have gaps exactly when the values of the
    list are [gapped]. *)
Lemma gapped_snapshot st rs :
  Forall (pair_gap st) (snapshot_pairs rs)
  <-> gapped (map (fun i => st !!! i) rs).
Proof.
  induction rs as [|i rs IH]; [cbn; split; auto|].
  destruct rs as [|j rs]; [cbn; split; auto|].
  rewrite snapshot_pairs_cons, Forall_cons_iff, IH.
  cbn [map]. rewrite gapped_cons2. unfold pair_gap. cbn [fst snd].
  pose proof (EndAddress_ge (st !!! i)). intuition lia.
Qed.

Lemma list_remove_length st x rs rs' :
  list_remove st x rs = Some rs' -> List.length rs = S (List.length rs').
Proof.
  revert rs'. induction rs as [|i rs IH]; intros rs' H; cbn in H;
    [discriminate|].
  destruct (region_eq (st !!! i) x).
  - injection H as <-. reflexivity.
  - destruct (list_remove st x rs) as [r|]; [|discriminate].
    injection H as <-. cbn. f_equal. apply IH. reflexivity.
Qed.

(** A pass over pairs with gaps changes nothing. *)
Lemma check_for_gaps ps st rs (ch : bool) :
  Forall (pair_gap st) ps -> check_for ps st rs ch = Ok (st, rs, ch).
Proof.
  induction 1 as [|[i1 i2] ps Hp _ IH]; [reflexivity|].
  unfold pair_gap in Hp. cbn [fst snd] in Hp. cbn [check_for].
  destruct (Z.eqb_spec (EndAddress (st !!! i1)) (address (st !!! i2)));
    [lia|].
  destruct (Z.gtb_spec (EndAddress (st !!! i1)) (address (st !!! i2)));
    [lia|].
  exact IH.
Qed.

(** What a pass that ends without an error did. *)
Lemma check_for_outcome ps st rs (ch : bool) st' rs' (ch' : bool) :
  check_for ps st rs ch = Ok (st', rs', ch') ->
  (List.length rs' <= List.length rs)%nat /\
  (ch = true -> ch' = true) /\
  (ch' = false -> st' = st /\ rs' = rs /\ Forall (pair_gap st) ps) /\
  (ch = false -> ch' = true -> (List.length rs' < List.length rs)%nat).
Proof.
  revert st rs ch. induction ps as [|[i1 i2] ps IH]; intros st rs ch H.
  - cbn in H. injection H as <- <- <-.
    split; [lia|]. split; [auto|]. split; [|congruence].
    intros _. split; [reflexivity|]. split; [reflexivity|constructor].
  - cbn [check_for] in H.
    destruct (Z.eqb_spec (EndAddress (st !!! i1)) (address (st !!! i2))).
    + match type of H with
      | context [list_remove ?s ?x rs] =>
          destruct (list_remove s x rs) as [rs1|] eqn:Hrm
      end; [|discriminate].
      apply list_remove_length in Hrm.
      apply IH in H. destruct H as (Hlen & Htrue & _ & _).
      specialize (Htrue eq_refl). subst ch'.
      split; [lia|]. split; [reflexivity|]. split; [discriminate|]. lia.
    + destruct (Z.gtb_spec (EndAddress (st !!! i1)) (address (st !!! i2)));
        [discriminate|].
      apply IH in H. destruct H as (Hlen & Htrue & Hquiet & Hless).
      split; [exact Hlen|]. split; [exact Htrue|]. split; [|exact Hless].
      intros Hf. destruct (Hquiet Hf) as (-> & -> & HF).
      split; [reflexivity|]. split; [reflexivity|].
      constructor; [|exact HF]. unfold pair_gap. cbn [fst snd]. lia.
Qed.

(** The loop ends within its fuel, and it leaves a [gapped] list. *)
Lemma check_for_no_fuel_error ps st rs (ch : bool) :
  check_for ps st rs ch <> Raise OutOfFuel.
Proof.
  revert st rs ch. induction ps as [|[i1 i2] ps IH]; intros st rs ch;
    [discriminate|].
  cbn [check_for]. destruct (_ =? _).
  - match goal with
    | |- context [list_remove ?s ?x rs] =>
        destruct (list_remove s x rs) as [rs1|]
    end; [apply IH|discriminate].
  - destruct (_ >? _); [discriminate|apply IH].
Qed.

Lemma check_while_step (fuel : nat) st rs :
  (1 < List.length rs)%nat ->
  check_while (S fuel) st rs true
  = match check_for (snapshot_pairs rs) st rs false with
    | Ok (st', rs', ch') => check_while fuel st' rs' ch'
    | Raise e => Raise e
    end.
Proof.
  intros H. cbn [check_while andb].
  destruct (Nat.ltb_spec 1 (List.length rs)); [reflexivity|lia].
Qed.

Lemma check_while_false (fuel : nat) st rs :
  check_while fuel st rs false = Ok (st, rs).
Proof. destruct fuel; reflexivity. Qed.

(** The loop ends within its fuel, and it leaves a [gapped] list. *)
Lemma check_while_outcome (fuel : nat) st rs (ch : bool) :
  (ch = true -> (List.length rs <= fuel)%nat) ->
  (ch = false -> gapped (map (fun i => st !!! i) rs)) ->
  match check_while fuel st rs ch with
  | Ok (st', rs') => gapped (map (fun i => st' !!! i) rs')
  | Raise e => e <> OutOfFuel
  end.
Proof.
  revert st rs ch. induction fuel as [|fuel IH]; intros st rs ch Hlen Hg.
  - destruct ch; [|rewrite check_while_false; auto].
    specialize (Hlen eq_refl). destruct rs; [|cbn in Hlen; lia]. exact I.
  - destruct ch; [|rewrite check_while_false; auto].
    specialize (Hlen eq_refl). cbn [check_while andb].
    destruct (1 <? List.length rs)%nat eqn:Hc.
    + destruct (check_for (snapshot_pairs rs) st rs false)
        as [[[st' rs'] ch']|e] eqn:Hfor.
      * apply check_for_outcome in Hfor.
        destruct Hfor as (Hlen' & _ & Hquiet & Hless).
        apply IH.
        -- intros ->. specialize (Hless eq_refl eq_refl). lia.
        -- intros ->. destruct (Hquiet eq_refl) as (-> & -> & HF).
           apply gapped_snapshot. exact HF.
      * intros ->. eapply check_for_no_fuel_error, Hfor.
    + apply Nat.ltb_ge in Hc.
      destruct rs as [|i [|j rs]]; cbn in Hc; try lia; cbn; auto.
Qed.

(** With [gapped] values the loop returns at once, or after one quiet
    pass. *)
Lemma check_while_gapped (fuel : nat) st rs (ch : bool) :
  gapped (map (fun i => st !!! i) rs) ->
  check_while (S fuel) st rs ch = Ok (st, rs).
Proof.
  intros Hg. cbn [check_while].
  destruct (ch && (1 <? List.length rs)%nat); [|reflexivity].
  rewrite check_for_gaps by (apply gapped_snapshot; exact Hg).
  destruct fuel; reflexivity.
Qed.

End CheckLoop.

Lemma check_gapped (l v : list HexFileRegion) : check l = Ok v -> gapped v.
Proof.
  unfold check. intros H.
  pose proof (check_while_outcome
                (List.length (seq 0 (List.length (sort_by_address l))))
                (sort_by_address l)
                (seq 0 (List.length (sort_by_address l))) true) as Hw.
  destruct (check_while _ _ _ true) as [[st' rs']|e]; [|discriminate].
  injection H as <-. apply Hw; [intros _; apply Nat.le_refl|discriminate].
Qed.

Lemma check_terminates (l : list HexFileRegion) : check l <> Raise OutOfFuel.
Proof.
  unfold check.
  pose proof (check_while_outcome
                (List.length (seq 0 (List.length (sort_by_address l))))
                (sort_by_address l)
                (seq 0 (List.length (sort_by_address l))) true) as Hw.
  destruct (check_while _ _ _ true) as [[st' rs']|e]; [discriminate|].
  intros H. injection H as ->. apply Hw; [intros _; apply Nat.le_refl|discriminate|reflexivity].
Qed.

Lemma addRegion_gapped (h h' : HexFile) (a : Z) (d : list byte) :
  addRegion h a d = Ok h' -> gapped (regions h').
Proof.
  unfold addRegion. destruct (check _) as [v|e] eqn:E; [|discriminate].
  cbn [bind]. intros H. injection H as <-. cbn [regions].
  eapply check_gapped, E.
Qed.

Lemma merge_loop_gapped (others : list HexFileRegion) (h h' : HexFile) :
  gapped (regions h) -> merge_loop h others = Ok h' -> gapped (regions h').
Proof.
  revert h. induction others as [|r others IH]; intros h Hg H; cbn in H.
  - injection H as <-. exact Hg.
  - destruct (addRegion h (address r) (data r)) as [h1|e] eqn:E;
      [|discriminate].
    cbn [bind] in H. eapply IH; [|exact H]. eapply addRegion_gapped, E.
Qed.

Lemma load_record_gapped (s s' : load_state) (rec : Z * Z * list byte) :
  gapped (regions (hexfile s)) -> load_record s rec = Ok s' ->
  gapped (regions (hexfile s')).
Proof.
  destruct rec as [[a t] d]. unfold load_record. intros Hg H.
  destruct (endOfFile s); [discriminate|].
  destruct (t =? 0).
  { destruct (addRegion _ _ _) as [h1|e] eqn:E; [|discriminate].
    injection H as <-. eapply addRegion_gapped, E. }
  destruct (t =? EXTLINADR).
  { destruct (unpack_H _); [|discriminate]. injection H as <-. exact Hg. }
  destruct (t =? EOF).
  { destruct (negb _); [discriminate|]. injection H as <-. exact Hg. }
  destruct (t =? 5); [|discriminate].
  destruct (unpack_I _); [|discriminate]. injection H as <-. exact Hg.
Qed.

Lemma load_lines_gapped (lines : list string) (s s' : load_state) :
  gapped (regions (hexfile s)) -> load_lines s lines = Ok s' ->
  gapped (regions (hexfile s')).
Proof.
  revert s. induction lines as [|l lines IH]; intros s Hg H; cbn in H.
  - injection H as <-. exact Hg.
  - destruct (hexfield l) as [[rec|e]|]; cbn [bind] in H;
      [|discriminate|eapply IH; eassumption].
    destruct (load_record s rec) as [s1|e] eqn:E; [|discriminate].
    cbn [bind] in H. eapply IH; [|exact H]. eapply load_record_gapped; eassumption.
Qed.

Lemma built_gapped (h : HexFile) : built h -> gapped (regions h).
Proof.
  induction 1 as [|h h' a d _ _ H|h a _ IH].
  - exact I.
  - eapply addRegion_gapped, H.
  - exact IH.
Qed.

(** * Regions added at the end of the list *)

Lemma gapped_app_l (l1 l2 : list HexFileRegion) :
  gapped (l1 ++ l2) -> gapped l1.
Proof.
  induction l1 as [|a l1 IH]; [intros _; exact I|].
  destruct l1 as [|b l1]; [intros _; cbn; auto|].
  cbn [app]. rewrite !gapped_cons2. intros [H1 H2]. split; [exact H1|].
  apply IH. exact H2.
Qed.

Lemma gapped_app_r (l1 l2 : list HexFileRegion) :
  gapped (l1 ++ l2) -> gapped l2.
Proof.
  induction l1 as [|a l1 IH]; [auto|].
  intros H. apply IH. cbn [app] in H. destruct (l1 ++ l2); [exact I|].
  apply gapped_cons2 in H. apply H.
Qed.

(** In a [gapped] list every region ends before all the later ones start. *)
Lemma gapped_head_before (r : HexFileRegion) (l : list HexFileRegion) :
  gapped (r :: l) ->
  Forall (fun x => address r < address x /\ EndAddress r < address x) l.
Proof.
  revert r. induction l as [|x l IH]; intros r H; [constructor|].
  apply gapped_cons2 in H. destruct H as [[H1 H2] H3].
  constructor; [split; assumption|].
  eapply Forall_impl; [apply IH, H3|].
  cbn. intros y [Hy1 Hy2]. pose proof (EndAddress_ge x). lia.
Qed.

Lemma gapped_snoc_before (l : list HexFileRegion) (p : HexFileRegion) :
  gapped (l ++ [p]) -> Forall (fun x => address x < address p) l.
Proof.
  induction l as [|x l IH]; intros H; [constructor|].
  constructor.
  - cbn [app] in H. apply gapped_head_before in H.
    rewrite Forall_app in H. destruct H as [_ H].
    inversion H; subst. tauto.
  - apply IH. change (gapped ([x] ++ (l ++ [p]))) in H.
    eapply gapped_app_r, H.
Qed.

Lemma insert_sorted_head (x : HexFileRegion) (l : list HexFileRegion) :
  match l with [] => True | y :: _ => address x <= address y end ->
  insert_sorted x l = x :: l.
Proof.
  destruct l as [|y l]; [reflexivity|]. intros H. cbn.
  destruct (Z.leb_spec (address x) (address y)); [reflexivity|lia].
Qed.

Lemma sort_ascending (l : list HexFileRegion) :
  ascending l -> sort_by_address l = l.
Proof.
  induction l as [|x l IH]; [reflexivity|].
  intros [H1 H2]. cbn [sort_by_address]. rewrite IH by assumption.
  apply insert_sorted_head. exact H1.
Qed.

Lemma gapped_ascending (l : list HexFileRegion) : gapped l -> ascending l.
Proof.
  induction l as [|x l IH]; [auto|].
  intros [H1 H2]. split; [|apply IH, H2].
  destruct l; [exact I|lia].
Qed.

Lemma ascending_snoc (l : list HexFileRegion) (p r : HexFileRegion) :
  ascending (l ++ [p]) -> address p <= address r ->
  ascending (l ++ [p; r]).
Proof.
  intros H Hpr. induction l as [|x l IH].
  - cbn. auto.
  - cbn [app] in *. destruct H as [H1 H2]. split; [|apply IH, H2].
    destruct l; exact H1.
Qed.

Lemma map_lookup_total_seq (l1 l2 : list HexFileRegion) :
  map (fun i => (l1 ++ l2) !!! i) (seq 0 (List.length l1)) = l1.
Proof.
  revert l2. induction l1 as [|x l1 IH] using rev_ind; intros l2;
    [reflexivity|].
  rewrite length_app. cbn [List.length]. rewrite Nat.add_1_r, seq_S, map_app.
  cbn [map Nat.add]. rewrite <- (app_assoc l1 [x] l2), IH. f_equal.
  cbn [app]. rewrite list_lookup_total_middle by reflexivity. reflexivity.
Qed.

Lemma map_lookup_total_seq_all (l : list HexFileRegion) :
  map (fun i => l !!! i) (seq 0 (List.length l)) = l.
Proof.
  pose proof (map_lookup_total_seq l []) as H. rewrite app_nil_r in H.
  exact H.
Qed.

(** A [gapped] list is left as it is. *)
Lemma check_gapped_id (l : list HexFileRegion) : gapped l -> check l = Ok l.
Proof.
  intros Hg. unfold check.
  rewrite sort_ascending by (apply gapped_ascending, Hg).
  rewrite length_seq.
  destruct l as [|x l]; [reflexivity|].
  cbn [List.length]. rewrite check_while_gapped.
  - f_equal. apply (map_lookup_total_seq_all (x :: l)).
  - change (S (List.length l)) with (List.length (x :: l)).
    rewrite map_lookup_total_seq_all. exact Hg.
Qed.

Lemma check_for_app (ps1 ps2 : list (ref * ref)) (st : store)
    (rs : list ref) (ch : bool) :
  check_for (ps1 ++ ps2) st rs ch
  = match check_for ps1 st rs ch with
    | Ok (st', rs', ch') => check_for ps2 st' rs' ch'
    | Raise e => Raise e
    end.
Proof.
  revert st rs ch. induction ps1 as [|[i1 i2] ps1 IH]; intros st rs ch;
    [reflexivity|].
  cbn [app check_for]. destruct (_ =? _).
  - match goal with
    | |- context [list_remove ?s ?x rs] =>
        destruct (list_remove s x rs) as [rs1|]
    end; [apply IH|reflexivity].
  - destruct (_ >? _); [reflexivity|apply IH].
Qed.

Lemma snapshot_pairs_snoc (l : list ref) (a b : ref) :
  snapshot_pairs (l ++ [a; b]) = snapshot_pairs (l ++ [a]) ++ [(a, b)].
Proof.
  induction l as [|x l IH]; [reflexivity|].
  destruct l as [|y l].
  - reflexivity.
  - cbn [app] in *. rewrite !snapshot_pairs_cons, IH. reflexivity.
Qed.

Lemma list_remove_last (st : store) (x : HexFileRegion) (rs : list ref)
    (i : ref) :
  Forall (fun j => region_eq (st !!! j) x = false) rs ->
  region_eq (st !!! i) x = true ->
  list_remove st x (rs ++ [i]) = Some rs.
Proof.
  intros Hrs Hi. induction Hrs as [|j rs Hj _ IH].
  - cbn. rewrite Hi. reflexivity.
  - cbn [app list_remove]. rewrite Hj, IH. reflexivity.
Qed.

Lemma region_eq_address (a b : HexFileRegion) :
  address a <> address b -> region_eq a b = false.
Proof.
  intros H. unfold region_eq.
  destruct (Z.eqb_spec (address a) (address b)); [contradiction|reflexivity].
Qed.

(** A region that starts where the last one ends is joined to it. *)
Lemma check_append_merge (l : list HexFileRegion) (p r : HexFileRegion) :
  gapped (l ++ [p]) -> EndAddress p = address r -> data p <> [] ->
  check (l ++ [p; r]) = Ok (l ++ [addData p (data r)]).
Proof.
  intros Hg Hend Hne.
  assert (Hlt : address p < address r).
  { unfold EndAddress in Hend. destruct (data p); [congruence|].
    cbn [List.length] in Hend. lia. }
  unfold check.
  rewrite sort_ascending
    by (apply ascending_snoc; [apply gapped_ascending, Hg|lia]).
  set (st := l ++ [p; r]).
  set (k := List.length l).
  assert (Hlen : List.length st = S (S k))
    by (unfold st, k; rewrite length_app; cbn; lia).
  rewrite length_seq, Hlen.
  assert (Hst : st = (l ++ [p]) ++ [r])
    by (unfold st; rewrite <- app_assoc; reflexivity).
  assert (Hk1 : List.length (l ++ [p]) = S k)
    by (unfold k; rewrite length_app; cbn; lia).
  assert (Hp : st !!! k = p)
    by (unfold st; apply list_lookup_total_middle; reflexivity).
  assert (Hr : st !!! S k = r).
  { rewrite Hst. apply list_lookup_total_middle. symmetry. exact Hk1. }
  assert (Hseq : seq 0 (S (S k)) = seq 0 k ++ [k; S k])
    by (rewrite !seq_S, <- app_assoc; reflexivity).
  assert (Hseq1 : seq 0 (S k) = seq 0 k ++ [k]) by apply seq_S.
  rewrite check_while_step.
  - rewrite Hseq at 1.
    rewrite snapshot_pairs_snoc, <- Hseq1, check_for_app.
    rewrite check_for_gaps.
    2:{ apply gapped_snapshot. rewrite <- Hk1, Hst, map_lookup_total_seq.
        exact Hg. }
    cbn [check_for]. rewrite Hp, Hr.
    destruct (Z.eqb_spec (EndAddress p) (address r)); [|contradiction].
    set (st' := <[k := addData p (data r)]> st).
    assert (Hst' : st' = (l ++ [addData p (data r)]) ++ [r]).
    { unfold st', st, k. rewrite insert_app_r_alt by lia.
      rewrite Nat.sub_diag, <- app_assoc. reflexivity. }
    assert (Hr' : st' !!! S k = r).
    { rewrite Hst'. apply list_lookup_total_middle.
      rewrite length_app. cbn. unfold k. lia. }
    rewrite Hr'.
    assert (Hk1' : List.length (l ++ [addData p (data r)]) = S k)
      by (unfold k; rewrite length_app; cbn; lia).
    assert (Hvals : map (fun i => st' !!! i) (seq 0 (S k))
                    = l ++ [addData p (data r)]).
    { rewrite <- Hk1', Hst'. apply map_lookup_total_seq. }
    assert (Hg' : gapped (l ++ [addData p (data r)])).
    { clear -Hg. induction l as [|x l IH]; [cbn; auto|].
      cbn [app] in *. destruct l as [|y l]; [exact Hg|].
      cbn [app] in *. apply gapped_cons2 in Hg. apply gapped_cons2.
      split; [apply Hg|]. apply IH, Hg. }
    rewrite (seq_S (S k)), Hseq1 at 1.
    rewrite <- Hseq1, list_remove_last.
    + cbn [check_for]. rewrite check_while_gapped by (rewrite Hvals; exact Hg').
      rewrite Hvals. reflexivity.
    + rewrite List.Forall_forall. intros j Hj. apply region_eq_address.
      assert (Hin : In (st' !!! j) (l ++ [addData p (data r)])).
      { rewrite <- Hvals. apply (in_map (fun i => st' !!! i)). exact Hj. }
      apply in_app_or in Hin. destruct Hin as [Hin|[<-|[]]]; cbn; [|lia].
      apply gapped_snoc_before in Hg. rewrite List.Forall_forall in Hg.
      specialize (Hg _ Hin). lia.
    + cbn [Nat.add]. rewrite Hr'. apply region_eq_refl.
  - rewrite length_seq. lia.
Qed.

Lemma gapped_pairwise (l : list HexFileRegion) (i j : nat)
    (ri rj : HexFileRegion) :
  gapped l -> (i < j)%nat -> l !! i = Some ri -> l !! j = Some rj ->
  address ri < address rj /\ EndAddress ri < address rj.
Proof.
  revert i j. induction l as [|x l IH]; intros i j Hg Hij Hi Hj;
    [discriminate|].
  destruct j as [|j]; [lia|]. destruct i as [|i].
  - cbn in Hi, Hj. injection Hi as ->.
    apply gapped_head_before in Hg. rewrite List.Forall_forall in Hg.
    apply Hg. apply list_elem_of_In. eapply list_elem_of_lookup_2, Hj.
  - cbn in Hi, Hj. eapply (IH i j); [apply Hg|lia|exact Hi|exact Hj].
Qed.

Lemma load_gapped (h h' : HexFile) (f : string) :
  gapped (regions h) -> load h f = Ok h' -> gapped (regions h').
Proof.
  unfold load. intros Hg H.
  destruct (load_lines _ _) as [s|e] eqn:E; [|discriminate].
  injection H as <-. eapply load_lines_gapped; [|exact E]. exact Hg.
Qed.

(** C9: after a successful [addRegion] the addresses of the regions increase
    strictly and every region ends strictly before each later one starts,
    so the regions are apart from one another; [merge] and [load], which
    add regions with [addRegion], keep the list in this state. *)
Theorem addRegion_keeps_regions_apart (h h' : HexFile) (a : Z)
    (d : list byte) :
  addRegion h a d = Ok h' ->
  gapped (regions h') /\
  (forall (i j : nat) (ri rj : HexFileRegion),
     (i < j)%nat -> regions h' !! i = Some ri -> regions h' !! j = Some rj ->
     address ri < address rj /\ EndAddress ri < address rj) /\
  (forall other h2, merge h' other = Ok h2 -> gapped (regions h2)) /\
  (forall f h2, load h' f = Ok h2 -> gapped (regions h2)) /\
  (forall f h2, load HexFile_new f = Ok h2 -> gapped (regions h2)).
Proof.
  intros H. apply addRegion_gapped in H.
  split; [exact H|]. split.
  - intros i j ri rj. apply gapped_pairwise. exact H.
  - split; [|split].
    + intros other h2. apply merge_loop_gapped. exact H.
    + intros f h2. apply load_gapped. exact H.
    + intros f h2. apply load_gapped. exact I.
Qed.

Lemma addRegion_keeps_regions_apart_witness :
  addRegion {| regions := [mkRegion 16 [x0a]]; startAddress := 0 |} 0
    [x01; x02]
  = Ok {| regions := [mkRegion 0 [x01; x02]; mkRegion 16 [x0a]];
          startAddress := 0 |} /\
  gapped [mkRegion 0 [x01; x02]; mkRegion 16 [x0a]].
Proof.
  split; [reflexivity|].
  apply (addRegion_keeps_regions_apart
           {| regions := [mkRegion 16 [x0a]]; startAddress := 0 |}
           {| regions := [mkRegion 0 [x01; x02]; mkRegion 16 [x0a]];
              startAddress := 0 |} 0 [x01; x02]).
  reflexivity.
Defined.

(** * Overlapping and adjacent regions *)

(** The scenario of the specification: the second region overlaps the
    first one. *)
Lemma addRegion_overlap_scenario :
  (h <-- addRegion HexFile_new 256 [x11] ;; addRegion h 256 [x00; x00])
  = Raise (HexFileException "Overlapping regions").
Proof. reflexivity. Qed.

(** A region that starts where the last region ends is joined to it. *)
Lemma addRegion_append_adjacent (h : HexFile) (l : list HexFileRegion)
    (p : HexFileRegion) (d : list byte) :
  regions h = l ++ [p] -> gapped (regions h) -> data p <> [] ->
  addRegion h (EndAddress p) d
  = Ok {| regions := l ++ [addData p d]; startAddress := startAddress h |}.
Proof.
  intros Hl Hg Hne. unfold addRegion. rewrite Hl in *.
  rewrite <- app_assoc. cbn [app].
  rewrite (check_append_merge l p (mkRegion (EndAddress p) d))
    by (assumption || reflexivity).
  reflexivity.
Qed.

(** A region that starts after the end of the last region is appended. *)
Lemma addRegion_append_apart (h : HexFile) (a : Z) (d : list byte) :
  gapped (regions h ++ [mkRegion a d]) ->
  addRegion h a d
  = Ok {| regions := regions h ++ [mkRegion a d];
          startAddress := startAddress h |}.
Proof.
  intros Hg. unfold addRegion. rewrite check_gapped_id by exact Hg.
  reflexivity.
Qed.

(** C6, the defect: the three regions at 0, 1 and 2 are adjacent.  Added in
    the order 0, 1, 2 they are joined into one region of three bytes.  Added
    in the order 0, 2, 1 the last call joins the regions at 0 and at 1, takes
    the region at 1 out of the list, appends the data of the region at 2 to
    that removed object and takes the region at 2 out of the list as well:
    no error is raised and the byte at address 2 is lost. *)
Theorem addRegion_fill_gap_loses_region :
  (h <-- addRegion HexFile_new 0 [x01] ;;
   h <-- addRegion h 1 [x02] ;; addRegion h 2 [x03])
  = Ok {| regions := [mkRegion 0 [x01; x02; x03]]; startAddress := 0 |} /\
  (h <-- addRegion HexFile_new 0 [x01] ;; addRegion h 2 [x03])
  = Ok {| regions := [mkRegion 0 [x01]; mkRegion 2 [x03]];
          startAddress := 0 |} /\
  addRegion {| regions := [mkRegion 0 [x01]; mkRegion 2 [x03]];
               startAddress := 0 |} 1 [x02]
  = Ok {| regions := [mkRegion 0 [x01; x02]]; startAddress := 0 |}.
Proof. repeat split; reflexivity. Qed.

(** * A region that overlaps a region of the list *)

Lemma ascending_tail (x : HexFileRegion) (l : list HexFileRegion) :
  ascending (x :: l) -> ascending l.
Proof. intros [_ H]. exact H. Qed.

Lemma insert_last_head (r x : HexFileRegion) (l : list HexFileRegion) :
  ascending (x :: l) ->
  match insert_last r l with
  | [] => True
  | y :: _ => address x <= address y \/ y = r
  end.
Proof.
  destruct l as [|y l]; cbn; [auto|].
  intros [H _]. destruct (address y <=? address r); auto.
Qed.

Lemma sort_appended (l : list HexFileRegion) (r : HexFileRegion) :
  ascending l -> sort_by_address (l ++ [r]) = insert_last r l.
Proof.
  induction l as [|x l IH]; intros Ha; [reflexivity|].
  cbn [app sort_by_address insert_last].
  rewrite IH by (eapply ascending_tail, Ha).
  destruct (Z.leb_spec (address x) (address r)) as [Hle|Hgt].
  - apply insert_sorted_head.
    pose proof (insert_last_head r x l Ha) as H.
    destruct (insert_last r l) as [|y t]; [exact I|].
    destruct H as [H| ->]; lia.
  - destruct l as [|y l]; cbn [insert_last insert_sorted].
    + destruct (Z.leb_spec (address x) (address r)); [lia|reflexivity].
    + destruct Ha as [Hxy Ha].
      destruct (Z.leb_spec (address y) (address r)); [lia|].
      cbn [insert_sorted].
      destruct (Z.leb_spec (address x) (address r)); [lia|].
      destruct (Z.leb_spec (address x) (address y)); [reflexivity|lia].
Qed.

Lemma insert_last_split (r : HexFileRegion) (l : list HexFileRegion) :
  exists pre post : list HexFileRegion,
    l = pre ++ post /\ insert_last r l = pre ++ r :: post /\
    Forall (fun x => address x <= address r) pre /\
    match post with [] => True | b :: _ => address r < address b end.
Proof.
  induction l as [|x l (pre & post & Hl & Hins & Hpre & Hpost)].
  - exists [], []. cbn. auto.
  - cbn [insert_last].
    destruct (Z.leb_spec (address x) (address r)) as [Hle|Hgt].
    + exists (x :: pre), post. cbn [app]. rewrite Hins, <- Hl.
      repeat split; auto.
    + exists [], (x :: l). cbn. auto.
Qed.

Lemma gapped_snoc_ends_before (l : list HexFileRegion) (p : HexFileRegion) :
  gapped (l ++ [p]) -> Forall (fun x => EndAddress x < address p) l.
Proof.
  induction l as [|x l IH]; intros H; [constructor|].
  constructor.
  - cbn [app] in H. apply gapped_head_before in H.
    rewrite Forall_app in H. destruct H as [_ H].
    inversion H; subst. tauto.
  - apply IH. change (gapped ([x] ++ (l ++ [p]))) in H.
    eapply gapped_app_r, H.
Qed.

Lemma snapshot_pairs_app (l1 l2 : list nat) (a : nat) :
  snapshot_pairs (l1 ++ a :: l2)
  = snapshot_pairs (l1 ++ [a]) ++ snapshot_pairs (a :: l2).
Proof.
  induction l1 as [|x l1 IH]; [reflexivity|].
  destruct l1 as [|y l1].
  - reflexivity.
  - cbn [app] in *. rewrite !snapshot_pairs_cons, IH. reflexivity.
Qed.

Lemma list_remove_some (st : list HexFileRegion) (x : HexFileRegion)
    (rs : list nat) (i : nat) :
  In i rs -> region_eq (st !!! i) x = true ->
  exists rs', list_remove st x rs = Some rs'.
Proof.
  intros Hi Hx. induction rs as [|j rs IH]; [contradiction|].
  cbn [list_remove]. destruct (region_eq (st !!! j) x) eqn:E; [eauto|].
  destruct Hi as [->|Hi]; [congruence|].
  destruct (IH Hi) as [rs' ->]. eauto.
Qed.

(** The pass over the list: the pairs of a [gapped] head are passed over. *)
Lemma check_for_skip_gaps (x : list HexFileRegion) (u : HexFileRegion)
    (rest : list HexFileRegion) (rs : list nat) :
  gapped (x ++ [u]) ->
  check_for
    (snapshot_pairs (seq 0 (List.length (x ++ u :: rest))))
    (x ++ u :: rest) rs false
  = check_for
      (snapshot_pairs (seq (List.length x) (S (List.length rest))))
      (x ++ u :: rest) rs false.
Proof.
  intros Hg. rewrite length_app. cbn [List.length].
  rewrite seq_app. cbn [seq Nat.add].
  rewrite snapshot_pairs_app, check_for_app, check_for_gaps; [reflexivity|].
  apply gapped_snapshot.
  replace (seq 0 (List.length x) ++ [List.length x])
    with (seq 0 (List.length (x ++ [u])))
    by (rewrite length_app, seq_app; reflexivity).
  change (x ++ u :: rest) with (x ++ [u] ++ rest). rewrite app_assoc.
  rewrite map_lookup_total_seq. exact Hg.
Qed.

Lemma check_raises (l st : list HexFileRegion) (e : exception) :
  sort_by_address l = st -> (2 <= List.length st)%nat ->
  check_for (snapshot_pairs (seq 0 (List.length st))) st
    (seq 0 (List.length st)) false = Raise e ->
  check l = Raise e.
Proof.
  intros Hs Hn Hfor. unfold check. rewrite Hs, length_seq.
  destruct (List.length st) as [|n] eqn:En; [lia|].
  rewrite check_while_step by (rewrite length_seq; lia).
  rewrite Hfor. reflexivity.
Qed.

Lemma lookup_total_second (x : list HexFileRegion) (u v : HexFileRegion)
    (y : list HexFileRegion) :
  (x ++ u :: v :: y) !!! S (List.length x) = v.
Proof.
  change (x ++ u :: v :: y) with (x ++ [u] ++ v :: y). rewrite app_assoc.
  apply list_lookup_total_middle. rewrite length_app. cbn. lia.
Qed.

(** The list, once sorted, has a region that ends after the start of the
    next one, behind a [gapped] head: the pass raises. *)
Lemma check_sorted_overlap (l x : list HexFileRegion) (u v : HexFileRegion)
    (y : list HexFileRegion) :
  sort_by_address l = x ++ u :: v :: y -> gapped (x ++ [u]) ->
  address v < EndAddress u ->
  check l = Raise (HexFileException "Overlapping regions").
Proof.
  intros Hs Hg Hov.
  apply (check_raises l _ _ Hs); [rewrite length_app; cbn; lia|].
  rewrite check_for_skip_gaps by exact Hg.
  cbn [List.length seq]. rewrite snapshot_pairs_cons. cbn [check_for].
  rewrite list_lookup_total_middle by reflexivity.
  rewrite lookup_total_second.
  destruct (Z.eqb_spec (EndAddress u) (address v)); [lia|].
  destruct (Z.gtb_spec (EndAddress u) (address v)); [reflexivity|lia].
Qed.

(** The same behind a pair that is merged first. *)
Lemma check_sorted_merge_overlap (l x : list HexFileRegion)
    (p u v : HexFileRegion) (y : list HexFileRegion) :
  sort_by_address l = x ++ p :: u :: v :: y -> gapped (x ++ [p]) ->
  EndAddress p = address u -> address v < EndAddress u ->
  check l = Raise (HexFileException "Overlapping regions").
Proof.
  intros Hs Hg Hm Hov.
  apply (check_raises l _ _ Hs); [rewrite length_app; cbn; lia|].
  rewrite check_for_skip_gaps by exact Hg.
  cbn [List.length seq]. rewrite !snapshot_pairs_cons. cbn [check_for].
  rewrite list_lookup_total_middle by reflexivity.
  rewrite lookup_total_second.
  destruct (Z.eqb_spec (EndAddress p) (address u)); [|contradiction].
  set (k := List.length x).
  assert (Hst : <[k := addData p (data u)]> (x ++ p :: u :: v :: y)
                = x ++ addData p (data u) :: u :: v :: y).
  { unfold k. rewrite insert_app_r_alt by lia. rewrite Nat.sub_diag.
    reflexivity. }
  rewrite Hst.
  assert (Hu : (x ++ addData p (data u) :: u :: v :: y) !!! S k = u)
    by apply lookup_total_second.
  assert (Hv : (x ++ addData p (data u) :: u :: v :: y) !!! S (S k) = v).
  { change (x ++ addData p (data u) :: u :: v :: y)
      with (x ++ [addData p (data u)] ++ u :: v :: y).
    rewrite app_assoc.
    replace (S (S k)) with (S (List.length (x ++ [addData p (data u)])))
      by (rewrite length_app; cbn; unfold k; lia).
    apply lookup_total_second. }
  rewrite Hu.
  destruct (list_remove_some (x ++ addData p (data u) :: u :: v :: y) u
              (seq 0 (List.length (x ++ p :: u :: v :: y))) (S k))
    as [rs' ->].
  - apply in_seq. rewrite length_app. cbn. unfold k. lia.
  - rewrite Hu. apply region_eq_refl.
  - rewrite Hv.
    destruct (Z.eqb_spec (EndAddress u) (address v)); [lia|].
    destruct (Z.gtb_spec (EndAddress u) (address v)); [reflexivity|lia].
Qed.

Lemma gapped_snoc_add (l : list HexFileRegion) (p r : HexFileRegion) :
  gapped (l ++ [p]) -> EndAddress p < address r ->
  gapped ((l ++ [p]) ++ [r]).
Proof.
  intros Hg Hpr. pose proof (EndAddress_ge p).
  induction l as [|x l IH]; [cbn; repeat split; lia|].
  cbn [app] in *. destruct l as [|y l].
  - cbn [app] in *. apply gapped_cons2 in Hg. apply gapped_cons2.
    split; [apply Hg|]. cbn. repeat split; lia.
  - cbn [app] in *. apply gapped_cons2 in Hg. apply gapped_cons2.
    split; [apply Hg|]. apply IH, Hg.
Qed.

(** A region that shares an address with a region of the image is refused:
    [addRegion] raises the error of overlapping regions. *)
Lemma addRegion_overlap_raises (h : HexFile) (a : Z) (d : list byte)
    (q : HexFileRegion) :
  gapped (regions h) -> In q (regions h) ->
  address q < a + Z.of_nat (List.length d) -> a < EndAddress q ->
  addRegion h a d = Raise (HexFileException "Overlapping regions").
Proof.
  intros Hg Hq Hlo Hhi. unfold addRegion.
  set (r := mkRegion a d).
  enough (E : check (regions h ++ [r])
              = Raise (HexFileException "Overlapping regions"))
    by (rewrite E; reflexivity).
  pose proof (sort_appended (regions h) r (gapped_ascending _ Hg)) as Hsort.
  destruct (insert_last_split r (regions h))
    as (pre & post & HL & Hins & Hpre & Hpost).
  rewrite Hins in Hsort. rewrite HL in Hg, Hq. clear HL Hins.
  assert (Hr : address r = a /\ EndAddress r = a + Z.of_nat (List.length d))
    by (split; reflexivity).
  destruct Hr as [Hra Hre].
  assert (Hleft : forall pre' p, pre = pre' ++ [p] -> a < EndAddress p ->
            check (regions h ++ [r])
            = Raise (HexFileException "Overlapping regions")).
  { intros pre' p -> Hp. rewrite <- app_assoc in Hsort. cbn [app] in Hsort.
    apply (check_sorted_overlap _ pre' p r post Hsort).
    - eapply gapped_app_l, Hg.
    - lia. }
  apply in_app_or in Hq. destruct Hq as [Hq|Hq].
  - destruct pre as [|p pre' _] using rev_ind; [contradiction|].
    apply (Hleft pre' p eq_refl).
    apply in_app_or in Hq. destruct Hq as [Hq|[->|[]]]; [|exact Hhi].
    apply gapped_app_l, gapped_snoc_ends_before in Hg.
    rewrite List.Forall_forall in Hg. specialize (Hg q Hq).
    rewrite Forall_app in Hpre. destruct Hpre as [_ Hpre].
    apply List.Forall_inv in Hpre. lia.
  - destruct post as [|b post']; [contradiction|].
    assert (Hb : address b < EndAddress r).
    { destruct Hq as [->|Hq]; [lia|].
      apply gapped_app_r, gapped_head_before in Hg.
      rewrite List.Forall_forall in Hg. specialize (Hg q Hq). lia. }
    destruct pre as [|p pre' _] using rev_ind.
    + apply (check_sorted_overlap _ [] r b post' Hsort); [cbn; auto|exact Hb].
    + assert (Hgp : gapped (pre' ++ [p])) by (eapply gapped_app_l, Hg).
      destruct (Z.lt_trichotomy (EndAddress p) a) as [Hlt|[Heq|Hgt]].
      * apply (check_sorted_overlap _ (pre' ++ [p]) r b post' Hsort);
          [|exact Hb].
        apply gapped_snoc_add; [exact Hgp|lia].
      * rewrite <- app_assoc in Hsort. cbn [app] in Hsort.
        apply (check_sorted_merge_overlap _ pre' p r b post' Hsort Hgp);
          [lia|exact Hb].
      * apply (Hleft pre' p eq_refl Hgt).
Qed.

(** * Lines of text: what is written is what is read *)

Lemma append_nil_l (s : string) : (EmptyString ++ s)%string = s.
Proof. reflexivity. Qed.

Lemma append_cons (c : ascii) (a b : string) :
  (String c a ++ b)%string = String c (a ++ b)%string.
Proof. reflexivity. Qed.

Lemma string_app_assoc (a b c : string) :
  ((a ++ b) ++ c = a ++ (b ++ c))%string.
Proof.
  induction a as [|x a IH]; [reflexivity|].
  rewrite !append_cons, IH. reflexivity.
Qed.

Lemma newline_is_space : is_space newline = true.
Proof. reflexivity. Qed.

Lemma nospace_not_newline (c : ascii) :
  is_space c = false -> Ascii.eqb c newline = false.
Proof.
  intros H. destruct (Ascii.eqb_spec c newline) as [->|]; [|reflexivity].
  rewrite newline_is_space in H. discriminate.
Qed.

Lemma readlines_line (l rest : string) :
  nospace l = true ->
  readlines (l ++ String newline rest) = with_newline l :: readlines rest.
Proof.
  induction l as [|c l IH]; intros H.
  - rewrite append_nil_l. cbn [readlines]. rewrite Ascii.eqb_refl.
    reflexivity.
  - cbn in H. apply andb_true_iff in H. destruct H as [Hc Hl].
    apply negb_true_iff in Hc.
    rewrite append_cons. cbn [readlines].
    rewrite (nospace_not_newline c Hc).
    rewrite IH by exact Hl. reflexivity.
Qed.

Lemma readlines_flatten (ls : list string) :
  Forall (fun l => nospace l = true) ls ->
  readlines (flatten ls) = map with_newline ls.
Proof.
  induction 1 as [|l ls Hl _ IH]; [reflexivity|].
  cbn [flatten map]. rewrite readlines_line by exact Hl. rewrite IH.
  reflexivity.
Qed.

Lemma print_flatten (ls : list string) (l : string) :
  print l (flatten ls) = flatten (ls ++ [l]).
Proof.
  unfold print. induction ls as [|x ls IH]; [reflexivity|].
  cbn [flatten app]. rewrite string_app_assoc, append_cons, IH.
  reflexivity.
Qed.

Lemma lstrip_nospace (c : ascii) (s : string) :
  is_space c = false -> lstrip (String c s) = String c s.
Proof. intros H. cbn. rewrite H. reflexivity. Qed.

Lemma rstrip_line (l : string) :
  nospace l = true -> rstrip (with_newline l) = l.
Proof.
  unfold with_newline. induction l as [|c l IH]; intros H.
  - reflexivity.
  - cbn in H. apply andb_true_iff in H. destruct H as [Hc Hl].
    apply negb_true_iff in Hc.
    rewrite append_cons. cbn [rstrip]. rewrite IH by exact Hl.
    destruct l; [rewrite Hc|]; reflexivity.
Qed.

Lemma strip_line (c : ascii) (l : string) :
  nospace (String c l) = true ->
  strip (with_newline (String c l)) = String c l.
Proof.
  intros H. unfold strip.
  assert (Hc : is_space c = false).
  { cbn in H. apply andb_true_iff in H. apply negb_true_iff, H. }
  unfold with_newline. rewrite append_cons, lstrip_nospace by exact Hc.
  rewrite <- append_cons.
  apply (rstrip_line (String c l)), H.
Qed.

Lemma hexlify_nospace (nums : list byte) : nospace (hexlify nums) = true.
Proof.
  induction nums as [|b nums IH]; [reflexivity|].
  cbn [hexlify nospace]. rewrite IH.
  destruct b; reflexivity.
Qed.

(** A line of [makeHexLine], once written, is read back as its record. *)
Lemma hexfield_record (addr typ : Z) (d : list byte) :
  0 <= addr < 65536 -> 0 <= typ < 256 -> (List.length d <= 255)%nat ->
  hexfield (with_newline (String ":" (hexlify (record_bytes addr typ d))))
  = Some (Ok (addr, typ, d)).
Proof.
  intros Ha Ht Hd. unfold hexfield.
  rewrite strip_line by (cbn [nospace]; rewrite hexlify_nospace; reflexivity).
  cbn [Ascii.eqb Bool.eqb negb]. rewrite parseHexLine_record by assumption.
  reflexivity.
Qed.

Lemma follows_start (s0 : load_state) : follows s0 EmptyString s0.
Proof. exists []. repeat split; constructor. Qed.

(** One call of [emit] on the writer's side is one round of the loop of
    [load] on the reader's side. *)
Lemma emit_follows (s0 s : load_state) (f : string) (addr typ : Z)
    (d : list byte) :
  follows s0 f s ->
  0 <= addr < 65536 -> 0 <= typ < 256 -> (List.length d <= 255)%nat ->
  exists f', emit f addr typ d = Ok f' /\
    forall s', load_record s (addr, typ, d) = Ok s' -> follows s0 f' s'.
Proof.
  intros (ls & -> & Hls & Hload) Ha Ht Hd.
  unfold emit. rewrite makeHexLine_ok by assumption. cbn [bind].
  eexists. split; [reflexivity|].
  intros s' Hs'.
  exists (ls ++ [String ":" (hexlify (record_bytes addr typ d))]).
  split; [apply print_flatten|]. split.
  - apply Forall_app. split; [exact Hls|].
    constructor; [|constructor].
    cbn [nospace]. rewrite hexlify_nospace. reflexivity.
  - rewrite map_app, load_lines_app, Hload. cbn [bind map load_lines].
    rewrite hexfield_record by assumption. cbn [bind]. rewrite Hs'.
    reflexivity.
Qed.

Lemma follows_load (self : HexFile) (f : string) (s : load_state) :
  follows {| endOfFile := false; ext := 0; hexfile := self |} f s ->
  load self f = Ok (hexfile s).
Proof.
  intros (ls & -> & Hls & Hload). unfold load.
  rewrite readlines_flatten by exact Hls. rewrite Hload. reflexivity.
Qed.

(** * Writing an image and reading it back *)

Lemma land_upper_half (a : Z) :
  0 <= a < 2 ^ 32 -> Z.land a 4294901760 = 65536 * (a / 65536).
Proof.
  intros Ha. apply Z.bits_inj'. intros i Hi.
  rewrite Z.land_spec.
  change 4294901760 with (Z.shiftl (Z.ones 16) 16).
  change 65536 with (2 ^ 16).
  rewrite Z.mul_comm, <- Z.shiftl_mul_pow2, <- Z.shiftr_div_pow2 by lia.
  rewrite !Z.shiftl_spec by lia.
  destruct (Z.ltb_spec i 16) as [Hlt|Hge].
  - rewrite (Z.testbit_neg_r _ (i - 16)) by lia.
    rewrite (Z.testbit_neg_r _ (i - 16)) by lia.
    apply andb_false_r.
  - rewrite Z.shiftr_spec by lia. replace (i - 16 + 16) with i by lia.
    rewrite Z.testbit_ones by lia.
    destruct (Z.ltb_spec (i - 16) 16) as [Hlt|Hge2].
    + replace (0 <=? i - 16) with true by (symmetry; apply Z.leb_le; lia).
      apply andb_true_r.
    + rewrite andb_false_r, andb_false_r. symmetry.
      apply Z.bits_above_log2; [lia|].
      destruct (Z.eq_dec a 0) as [->|Hnz]; [cbn; lia|].
      apply Z.log2_lt_pow2; [lia|].
      apply Z.lt_le_trans with (2 ^ 32); [lia|].
      apply Z.pow_le_mono_r; lia.
Qed.

Lemma shiftr_16 (e : Z) : Z.shiftr e 16 = e / 65536.
Proof. rewrite Z.shiftr_div_pow2 by lia. reflexivity. Qed.

Lemma shiftl_16 (e : Z) : Z.shiftl e 16 = e * 65536.
Proof. rewrite Z.shiftl_mul_pow2 by lia. reflexivity. Qed.

Lemma gapped_last_address (l : list HexFileRegion) (r r' : HexFileRegion) :
  gapped (l ++ [r]) -> address r' = address r -> gapped (l ++ [r']).
Proof.
  intros Hg Ha. induction l as [|x l IH]; [cbn; auto|].
  cbn [app] in *. destruct l as [|y l].
  - cbn [app] in *. apply gapped_cons2 in Hg. apply gapped_cons2.
    rewrite Ha. split; [apply Hg|cbn; auto].
  - cbn [app] in *. apply gapped_cons2 in Hg. apply gapped_cons2.
    split; [apply Hg|]. apply IH, Hg.
Qed.

(** The writer emits an extended linear address record; the reader takes
    the same upper half. *)
Lemma ext_record_follows (s0 s : load_state) (f : string) (e : Z) :
  follows s0 f s -> endOfFile s = false ->
  0 <= e < 2 ^ 32 -> e mod 65536 = 0 ->
  exists f',
    (hi <-- pack_H (Z.shiftr e 16) ;; emit f 0 EXTLINADR hi) = Ok f' /\
    follows s0 f' {| endOfFile := false; ext := e; hexfile := hexfile s |}.
Proof.
  intros Hf Heof He Hmod.
  assert (Hq : 0 <= e / 65536 <= 65535).
  { split; [apply Z.div_pos; lia|].
    assert (e / 65536 < 65536); [apply Z.div_lt_upper_bound; lia|lia]. }
  rewrite shiftr_16, pack_H_ok by exact Hq. cbn [bind].
  destruct (emit_follows s0 s f 0 EXTLINADR
              [low_byte (e / 65536 / 256); low_byte (e / 65536)] Hf)
    as (f' & Hemit & Hnext); [lia|unfold EXTLINADR; lia|cbn; lia|].
  exists f'. split; [exact Hemit|]. apply Hnext.
  unfold load_record. rewrite Heof.
  change (EXTLINADR =? 0) with false. change (EXTLINADR =? EXTLINADR) with true.
  cbn [firstn].
  rewrite unpack_pack_H by exact Hq. cbn [bind]. rewrite shiftl_16.
  do 2 f_equal. pose proof (Z.div_mod e 65536). lia.
Qed.

(** The writer emits a data record; the reader adds a region. *)
Lemma data_record_follows (s0 s : load_state) (f : string) (addr : Z)
    (chunk : list byte) (h' : HexFile) :
  follows s0 f s -> endOfFile s = false ->
  0 <= addr < 65536 -> (List.length chunk <= 255)%nat ->
  addRegion (hexfile s) (addr + ext s) chunk = Ok h' ->
  exists f',
    emit f addr DATA chunk = Ok f' /\
    follows s0 f' {| endOfFile := false; ext := ext s; hexfile := h' |}.
Proof.
  intros Hf Heof Ha Hlen Hadd.
  destruct (emit_follows s0 s f addr DATA chunk Hf)
    as (f' & Hemit & Hnext); [lia|unfold DATA; lia|exact Hlen|].
  exists f'. split; [exact Hemit|]. apply Hnext.
  unfold load_record. rewrite Heof. change (DATA =? 0) with true.
  cbn iota. rewrite Hadd. reflexivity.
Qed.

(** The reader joins a chunk to what it has rebuilt of the region. *)
Lemma addRegion_chunk (h : HexFile) (done : list HexFileRegion) (a : Z)
    (d : list byte) (idx n : nat) :
  regions h = done ++ partial_region a d idx ->
  gapped (done ++ [mkRegion a d]) ->
  (1 <= n)%nat -> (idx + n <= List.length d)%nat ->
  addRegion h (a + Z.of_nat idx) (slice d idx (idx + n))
  = Ok {| regions := done ++ partial_region a d (idx + n);
          startAddress := startAddress h |}.
Proof.
  intros Hh Hg Hn Hlen. unfold slice.
  replace (idx + n - idx)%nat with n by lia.
  destruct idx as [|i].
  - cbn [partial_region] in Hh. rewrite app_nil_r in Hh.
    rewrite Z.add_0_r, skipn_O.
    rewrite addRegion_append_apart; rewrite Hh.
    + destruct n; [lia|]. reflexivity.
    + eapply gapped_last_address; [exact Hg|reflexivity].
  - cbn [partial_region] in Hh.
    set (p := mkRegion a (firstn (S i) d)) in *.
    assert (Hend : EndAddress p = a + Z.of_nat (S i)).
    { unfold EndAddress, p. cbn [address data].
      rewrite length_firstn. lia. }
    rewrite <- Hend.
    rewrite (addRegion_append_adjacent h done p); [| exact Hh | |].
    + cbn [Nat.add partial_region]. unfold addData, p. cbn [address data].
      change (S (i + n)) with (S i + n)%nat.
      rewrite <- (take_take_drop d (S i) n). reflexivity.
    + rewrite Hh. eapply gapped_last_address; [exact Hg|reflexivity].
    + unfold p. cbn [data]. destruct d; [cbn in Hlen; lia|discriminate].
Qed.

Lemma partial_region_all (a : Z) (d : list byte) :
  d <> [] -> partial_region a d (List.length d) = [mkRegion a d].
Proof.
  intros Hd. destruct d as [|b d]; [contradiction|].
  cbn [List.length partial_region]. rewrite firstn_all2 by (cbn; lia).
  reflexivity.
Qed.

(** The inner loop of [save], chunk by chunk: the reader rebuilds the
    region. *)
Lemma save_chunks_follows (s0 : load_state) (done : list HexFileRegion)
    (a : Z) (d : list byte) :
  gapped (done ++ [mkRegion a d]) ->
  0 <= a -> a + Z.of_nat (List.length d) <= 2 ^ 32 ->
  forall (fuel idx : nat) (f : string) (e addr : Z) (s : load_state),
    (List.length d - idx <= fuel)%nat -> (idx <= List.length d)%nat ->
    follows s0 f s -> endOfFile s = false -> ext s = e ->
    regions (hexfile s) = done ++ partial_region a d idx ->
    e + addr = a + Z.of_nat idx -> 0 <= e -> e mod 65536 = 0 ->
    0 <= addr < 65536 + 16 ->
    exists f' s',
      save_chunks f e addr (chunks_from fuel d 16 idx) = Ok f' /\
      follows s0 f' s' /\ endOfFile s' = false /\
      regions (hexfile s') = done ++ partial_region a d (List.length d) /\
      startAddress (hexfile s') = startAddress (hexfile s).
Proof.
  intros Hg Ha Hend.
  induction fuel as [|fuel IH];
    intros idx f e addr s Hfuel Hidx Hf Heof He Hregs Hsum He0 Hmod Haddr.
  - assert (idx = List.length d) by lia. subst idx.
    exists f, s. cbn. auto.
  - cbn [chunks_from].
    destruct (Nat.ltb_spec idx (List.length d)) as [Hlt|Hge].
    2:{ assert (idx = List.length d) by lia. subst idx.
        exists f, s. cbn. auto. }
    set (n := Nat.min (List.length d - idx) 16).
    assert (Hn : (1 <= n <= 16)%nat) by (unfold n; lia).
    assert (Hn' : (idx + n <= List.length d)%nat) by (unfold n; lia).
    assert (Hclen : List.length (slice d idx (idx + n)) = n).
    { unfold slice. rewrite length_firstn, length_skipn. lia. }
    cbn [save_chunks]. rewrite Hclen.
    destruct (Z.geb_spec addr 65536) as [Hhigh|Hlow].
    + destruct (ext_record_follows s0 s f (e + 65536) Hf Heof)
        as (f1 & Hemit1 & Hf1).
      { lia. }
      { rewrite <- Z.add_mod_idemp_l, Hmod by lia. reflexivity. }
      destruct (pack_H (Z.shiftr (e + 65536) 16)) as [hi|ex] eqn:Hpack;
        [|discriminate].
      cbn [bind] in Hemit1 |- *. rewrite Hemit1. cbn [bind].
      set (s1 := {| endOfFile := false; ext := e + 65536;
                    hexfile := hexfile s |}) in *.
      destruct (data_record_follows s0 s1 f1 (addr - 65536)
                  (slice d idx (idx + n))
                  {| regions := done ++ partial_region a d (idx + n);
                     startAddress := startAddress (hexfile s) |} Hf1)
        as (f2 & Hemit2 & Hf2); [reflexivity|lia|lia| |].
      { cbn [s1 hexfile ext].
        replace (addr - 65536 + (e + 65536)) with (a + Z.of_nat idx) by lia.
        apply addRegion_chunk; [exact Hregs|exact Hg|lia|lia]. }
      rewrite Hemit2. cbn [bind].
      destruct (IH (idx + n)%nat f2 (e + 65536) (addr - 65536 + Z.of_nat n)
                  _ ltac:(lia) ltac:(lia) Hf2 eq_refl eq_refl eq_refl)
        as (f' & s' & Hsave & Hf' & Heof' & Hregs' & Hstart');
        [lia|lia| |lia|].
      { rewrite <- Z.add_mod_idemp_l, Hmod by lia. reflexivity. }
      exists f', s'. auto.
    + destruct (data_record_follows s0 s f addr (slice d idx (idx + n))
                  {| regions := done ++ partial_region a d (idx + n);
                     startAddress := startAddress (hexfile s) |} Hf Heof)
        as (f2 & Hemit2 & Hf2); [lia|lia| |].
      { rewrite He.
        replace (addr + e) with (a + Z.of_nat idx) by lia.
        apply addRegion_chunk; [exact Hregs|exact Hg|lia|lia]. }
      rewrite Hemit2. cbn [bind].
      destruct (IH (idx + n)%nat f2 e (addr + Z.of_nat n)
                  _ ltac:(lia) ltac:(lia) Hf2 eq_refl He eq_refl)
        as (f' & s' & Hsave & Hf' & Heof' & Hregs' & Hstart');
        [lia|lia|exact Hmod|lia|].
      exists f', s'. auto.
Qed.

(** The outer loop of [save], region by region. *)
Lemma save_regions_follows (s0 : load_state) (rs : list HexFileRegion) :
  forall (done : list HexFileRegion) (f : string) (s : load_state),
    follows s0 f s -> endOfFile s = false ->
    regions (hexfile s) = done ->
    gapped (done ++ rs) -> Forall storable rs ->
    exists f' s',
      save_regions f rs = Ok f' /\
      follows s0 f' s' /\ endOfFile s' = false /\
      regions (hexfile s') = done ++ rs /\
      startAddress (hexfile s') = startAddress (hexfile s).
Proof.
  induction rs as [|r rs IH]; intros done f s Hf Heof Hregs Hg Hst.
  - exists f, s. rewrite app_nil_r. cbn. auto.
  - apply List.Forall_cons_iff in Hst. destruct Hst as [Hr Hrs].
    destruct r as [a d]. destruct Hr as (Hd & Ha & Hend).
    unfold EndAddress in Hend. cbn [address data] in *.
    assert (Ha32 : 0 <= a < 2 ^ 32).
    { destruct d; [contradiction|]. cbn [List.length] in Hend. lia. }
    cbn [save_regions address data].
    rewrite land_upper_half by exact Ha32.
    set (e := 65536 * (a / 65536)).
    assert (He : 0 <= e <= a /\ a - e < 65536 /\ e mod 65536 = 0).
    { unfold e. pose proof (Z.div_mod a 65536).
      pose proof (Z.mod_pos_bound a 65536).
      assert (0 <= a / 65536) by (apply Z.div_pos; lia).
      split; [lia|]. split; [lia|].
      rewrite Z.mul_comm. apply Z_mod_mult. }
    destruct (ext_record_follows s0 s f e Hf Heof) as (f1 & Hemit1 & Hf1);
      [lia|apply He|].
    destruct (pack_H (Z.shiftr e 16)) as [hi|ex] eqn:Hpack; [|discriminate].
    cbn [bind] in Hemit1 |- *. rewrite Hemit1. cbn [bind].
    assert (Hg1 : gapped (done ++ [mkRegion a d])).
    { change (done ++ mkRegion a d :: rs)
        with (done ++ [mkRegion a d] ++ rs) in Hg.
      rewrite app_assoc in Hg. eapply gapped_app_l, Hg. }
    destruct (save_chunks_follows s0 (regions (hexfile s)) a d
                ltac:(rewrite Hregs; exact Hg1) Ha Hend
                (List.length d) 0%nat f1 e (a - e) _
                ltac:(lia) ltac:(lia) Hf1 eq_refl eq_refl)
      as (f2 & s2 & Hsave & Hf2 & Heof2 & Hregs2 & Hstart2);
      [cbn; rewrite app_nil_r; reflexivity|lia|lia|apply He|lia|].
    unfold chunks. rewrite Hsave. cbn [bind].
    rewrite partial_region_all in Hregs2 by exact Hd.
    destruct (IH (done ++ [mkRegion a d]) f2 s2 Hf2 Heof2)
      as (f' & s' & Hsave' & Hf' & Heof' & Hregs' & Hstart').
    + rewrite Hregs2, Hregs. reflexivity.
    + rewrite <- app_assoc. exact Hg.
    + exact Hrs.
    + exists f', s'. rewrite <- app_assoc in Hregs'.
      split; [exact Hsave'|]. split; [exact Hf'|]. split; [exact Heof'|].
      split; [exact Hregs'|]. rewrite Hstart', Hstart2. reflexivity.
Qed.

(** [save] and then [load] into a fresh image. *)
Lemma save_load_regions (x : HexFile) :
  gapped (regions x) -> Forall storable (regions x) ->
  exists out y,
    save x EmptyString = Ok out /\ load HexFile_new out = Ok y /\
    regions y = regions x.
Proof.
  intros Hg Hst.
  set (s0 := {| endOfFile := false; ext := 0; hexfile := HexFile_new |}).
  destruct (save_regions_follows s0 (regions x) [] EmptyString s0
              (follows_start s0) eq_refl eq_refl Hg Hst)
    as (f1 & s1 & Hsave & Hf1 & Heof1 & Hregs1 & _).
  destruct (emit_follows s0 s1 f1 0 EOF [] Hf1)
    as (out & Hemit & Hnext); [lia|unfold EOF; lia|cbn; lia|].
  exists out, (hexfile s1).
  unfold save. rewrite Hsave. cbn [bind]. split; [exact Hemit|].
  split; [|exact Hregs1].
  apply (follows_load HexFile_new out
           {| endOfFile := true; ext := ext s1; hexfile := hexfile s1 |}).
  apply Hnext. rewrite load_record_eof, Heof1. reflexivity.
Qed.

(** C1, refuted as stated: a region without data is added with success, but
    [save] writes no data record for it, so the image that is read back has
    no region and is not equal to the one that was written; and a region at
    or above 2^32 is added with success, but [save] raises [struct.error]. *)
Lemma round_trip_fails_without_data :
  (exists x out y,
     addRegion HexFile_new 256 [] = Ok x /\
     save x EmptyString = Ok out /\ load HexFile_new out = Ok y /\
     HexFile_eq y x = false) /\
  (exists x,
     addRegion HexFile_new 4294967296 [x00] = Ok x /\
     save x EmptyString = Raise StructError).
Proof.
  split.
  - eexists _, _, _. repeat split; reflexivity.
  - eexists. split; reflexivity.
Qed.

(** C1, amended: for an image built by successful calls of [addRegion]
    whose regions all have data and lie in the 32 bit address space, [save]
    succeeds and [load] of the text into a fresh image succeeds and gives
    an image with the same regions, equal to the first one under
    [HexFile.__eq__]; regions that cross a 64 KiB boundary are included. *)
Theorem save_load_round_trip (x : HexFile) :
  built x -> Forall storable (regions x) ->
  exists out y,
    save x EmptyString = Ok out /\ load HexFile_new out = Ok y /\
    regions y = regions x /\ HexFile_eq y x = true.
Proof.
  intros Hb Hst.
  destruct (save_load_regions x (built_gapped x Hb) Hst)
    as (out & y & Hsave & Hload & Hregs).
  exists out, y. repeat split; try assumption.
  apply HexFile_eq_spec. exact Hregs.
Qed.

(** The region of [boundary_file] is written with a second extended linear
    address record where it crosses the boundary. *)
Lemma save_boundary_file :
  save boundary_file EmptyString
  = Ok (print ":00000001ff"
         (print ":0400080007070707d8"
           (print ":020000040001f9"
             (print ":10fff8000707070707070707070707070707070789"
               (print ":020000040000fa" EmptyString))))).
Proof. vm_compute. reflexivity. Qed.

Lemma save_load_round_trip_witness :
  built boundary_file /\ Forall storable (regions boundary_file) /\
  exists out y,
    save boundary_file EmptyString = Ok out /\
    load HexFile_new out = Ok y /\
    regions y = regions boundary_file /\ HexFile_eq y boundary_file = true.
Proof.
  assert (Hb : built boundary_file).
  { apply (built_add HexFile_new boundary_file 65528 (repeat x07 20));
      [apply built_new|reflexivity]. }
  assert (Hs : Forall storable (regions boundary_file)).
  { constructor; [|constructor].
    split; [discriminate|]. split; [simpl; lia|].
    unfold EndAddress. simpl. lia. }
  split; [exact Hb|]. split; [exact Hs|].
  apply (save_load_round_trip boundary_file Hb Hs).
Defined.

(** * Argument locations *)

Lemma arg_locations_loop_ok {T : Type} (arg_types : list T) :
  forall (regs l : list register) (live_in : gset register),
    (List.length arg_types <= List.length regs)%nat ->
    arg_locations_loop arg_types regs l live_in
    = Ok (l ++ firstn (List.length arg_types) regs,
          live_in ∪ list_to_set (firstn (List.length arg_types) regs)).
Proof.
  induction arg_types as [|a arg_types IH]; intros regs l live_in Hlen.
  - cbn. rewrite app_nil_r. f_equal. f_equal.
    symmetry. apply (right_id_L ∅ (∪)).
  - destruct regs as [|r regs]; [cbn in Hlen; lia|].
    cbn [arg_locations_loop List.length firstn].
    rewrite IH by (cbn in Hlen; lia).
    rewrite <- app_assoc. cbn [app]. f_equal. f_equal.
    cbn [list_to_set foldr]. symmetry. apply (assoc_L (∪)).
Qed.

Lemma arg_locations_loop_raises {T : Type} (arg_types : list T) :
  forall (regs l : list register) (live_in : gset register),
    (List.length regs < List.length arg_types)%nat ->
    arg_locations_loop arg_types regs l live_in = Raise IndexError.
Proof.
  induction arg_types as [|a arg_types IH]; intros regs l live_in Hlen;
    [cbn in Hlen; lia|].
  destruct regs as [|r regs]; [reflexivity|].
  cbn [arg_locations_loop]. apply IH. cbn in Hlen. lia.
Qed.

(** An eighth argument finds the list of registers empty. *)
Lemma determine_arg_locations_eight {T : Type} (arg_types : list T) :
  (7 < List.length arg_types)%nat ->
  determine_arg_locations arg_types = Raise IndexError.
Proof. intros H. apply arg_locations_loop_raises. exact H. Qed.

(** C7: for at most seven argument types [determine_arg_locations] returns
    the first registers of x11, ..., x17, one per argument and in this
    order, and the set [live_in] holds exactly these registers. *)
Theorem determine_arg_locations_registers {T : Type} (arg_types : list T) :
  (List.length arg_types <= 7)%nat ->
  exists (locations : list register) (live_in : gset register),
    determine_arg_locations arg_types = Ok (locations, live_in) /\
    locations = firstn (List.length arg_types) arg_regs /\
    (forall r : register, r ∈ live_in <-> In r locations).
Proof.
  intros Hlen. unfold determine_arg_locations.
  rewrite arg_locations_loop_ok by exact Hlen.
  eexists _, _. split; [reflexivity|]. split; [reflexivity|].
  intros r. cbn [app].
  rewrite (left_id_L ∅ (∪)), elem_of_list_to_set, list_elem_of_In.
  reflexivity.
Qed.

Lemma determine_arg_locations_registers_witness :
  exists (locations : list register) (live_in : gset register),
    determine_arg_locations [tt; tt; tt] = Ok (locations, live_in) /\
    locations = [R11; R12; R13] /\
    (forall r : register, r ∈ live_in <-> In r locations).
Proof.
  apply (determine_arg_locations_registers [tt; tt; tt]). simpl. lia.
Defined.

(** * The machine: registers and memory *)

Lemma wrap32_range (v : Z) : 0 <= wrap32 v < 2 ^ 32.
Proof. unfold wrap32. apply Z.mod_pos_bound. lia. Qed.

Lemma wrap32_small (v : Z) : 0 <= v < 2 ^ 32 -> wrap32 v = v.
Proof. intros H. unfold wrap32. apply Z.mod_small. exact H. Qed.

Lemma wrap32_add_l (a b : Z) : wrap32 (wrap32 a + b) = wrap32 (a + b).
Proof. unfold wrap32. apply Z.add_mod_idemp_l. lia. Qed.

Lemma get_reg_zero (m : machine) : get_reg m 0%nat = 0.
Proof. reflexivity. Qed.

Lemma get_set_same (m : machine) (r : register) (v : Z) :
  r <> 0%nat -> get_reg (set_reg m r v) r = wrap32 v.
Proof.
  intros Hr. unfold get_reg, set_reg.
  destruct (Nat.eqb_spec r 0); [contradiction|].
  cbn [xregs]. rewrite Nat.eqb_refl. reflexivity.
Qed.

Lemma get_set_other (m : machine) (r r' : register) (v : Z) :
  r' <> r -> get_reg (set_reg m r v) r' = get_reg m r'.
Proof.
  intros Hr. unfold get_reg, set_reg.
  destruct (Nat.eqb_spec r 0); [reflexivity|].
  cbn [xregs]. destruct (Nat.eqb_spec r' 0); [reflexivity|].
  destruct (Nat.eqb_spec r' r); [contradiction|reflexivity].
Qed.

Lemma memory_set_reg (m : machine) (r : register) (v : Z) :
  memory (set_reg m r v) = memory m.
Proof. unfold set_reg. destruct (r =? 0)%nat; reflexivity. Qed.

(** A register that is loaded with the value it had holds it again. *)
Lemma get_set_restored (m0 m : machine) (r r' : register) (v : Z) :
  valid_machine m0 -> v = get_reg m0 r ->
  (r' <> r -> get_reg m r' = get_reg m0 r') ->
  get_reg (set_reg m r v) r' = get_reg m0 r'.
Proof.
  intros Hv -> Hother. destruct (Nat.eq_dec r' r) as [->|Hne].
  - destruct (Nat.eq_dec r 0%nat) as [->|Hnz]; [reflexivity|].
    rewrite get_set_same by exact Hnz. apply wrap32_small, Hv.
  - rewrite get_set_other by exact Hne. apply Hother, Hne.
Qed.

Lemma wrap32_eq_diff (a b : Z) :
  wrap32 a = wrap32 b -> exists q : Z, a - b = q * 2 ^ 32.
Proof.
  unfold wrap32. intros H.
  exists (a / 2 ^ 32 - b / 2 ^ 32).
  pose proof (Z.div_mod a (2 ^ 32)). pose proof (Z.div_mod b (2 ^ 32)). lia.
Qed.

Lemma wrap32_neq (a d : Z) : 0 < d < 2 ^ 32 -> wrap32 (a + d) <> wrap32 a.
Proof.
  intros Hd H. apply wrap32_eq_diff in H. destruct H as [q Hq]. lia.
Qed.

Lemma load32_congr (mem : Z -> Z) (a b : Z) :
  wrap32 a = wrap32 b -> load32 mem a = load32 mem b.
Proof.
  intros H. unfold load32.
  assert (E : forall x, wrap32 (a + x) = wrap32 (b + x)).
  { intros x. rewrite <- (wrap32_add_l a), <- (wrap32_add_l b), H.
    reflexivity. }
  rewrite H, !E. reflexivity.
Qed.

Lemma load32_ext (mem mem' : Z -> Z) (a : Z) :
  (forall x, 0 <= x < 4 -> mem' (wrap32 (a + x)) = mem (wrap32 (a + x))) ->
  load32 mem' a = load32 mem a.
Proof.
  intros H. unfold load32.
  rewrite <- (Z.add_0_r a) at 1 5. rewrite !H by lia. reflexivity.
Qed.

Lemma load_store_same (mem : Z -> Z) (a v : Z) :
  0 <= v < 2 ^ 32 -> load32 (store32 mem a v) a = v.
Proof.
  intros Hv. unfold load32, store32.
  pose proof (wrap32_neq a 1 ltac:(lia)) as H1.
  pose proof (wrap32_neq a 2 ltac:(lia)) as H2.
  pose proof (wrap32_neq a 3 ltac:(lia)) as H3.
  pose proof (wrap32_neq (a + 1) 1 ltac:(lia)) as H12.
  pose proof (wrap32_neq (a + 1) 2 ltac:(lia)) as H13.
  pose proof (wrap32_neq (a + 2) 1 ltac:(lia)) as H23.
  replace (a + 1 + 1) with (a + 2) in H12 by lia.
  replace (a + 1 + 2) with (a + 3) in H13 by lia.
  replace (a + 2 + 1) with (a + 3) in H23 by lia.
  rewrite Z.eqb_refl.
  destruct (Z.eqb_spec (wrap32 (a + 1)) (wrap32 a)); [contradiction|].
  rewrite Z.eqb_refl.
  destruct (Z.eqb_spec (wrap32 (a + 2)) (wrap32 a)); [contradiction|].
  destruct (Z.eqb_spec (wrap32 (a + 2)) (wrap32 (a + 1))); [contradiction|].
  rewrite Z.eqb_refl.
  destruct (Z.eqb_spec (wrap32 (a + 3)) (wrap32 a)); [contradiction|].
  destruct (Z.eqb_spec (wrap32 (a + 3)) (wrap32 (a + 1))); [contradiction|].
  destruct (Z.eqb_spec (wrap32 (a + 3)) (wrap32 (a + 2))); [contradiction|].
  rewrite Z.eqb_refl.
  change (2 ^ 8) with 256. change (2 ^ 16) with 65536.
  change (2 ^ 24) with 16777216. change (2 ^ 32) with 4294967296 in Hv.
  assert (E2 : v / 65536 = v / 256 / 256)
    by (rewrite Z.div_div by lia; reflexivity).
  assert (E3 : v / 16777216 = v / 256 / 256 / 256)
    by (rewrite !Z.div_div by lia; reflexivity).
  rewrite E2, E3.
  pose proof (Z.div_mod v 256 ltac:(lia)).
  pose proof (Z.div_mod (v / 256) 256 ltac:(lia)).
  pose proof (Z.div_mod (v / 256 / 256) 256 ltac:(lia)).
  assert (Hq : 0 <= v / 256 / 256 / 256 < 256).
  { rewrite <- E3. split; [apply Z.div_pos; lia|].
    apply Z.div_lt_upper_bound; lia. }
  rewrite (Z.mod_small (v / 256 / 256 / 256)) by exact Hq.
  lia.
Qed.

Lemma load_store_apart (mem : Z -> Z) (a b v : Z) :
  apart a b -> load32 (store32 mem b v) a = load32 mem a.
Proof.
  intros Hab. apply load32_ext. intros x Hx. unfold store32.
  pose proof (Hab x 0 Hx ltac:(lia)) as H0.
  pose proof (Hab x 1 Hx ltac:(lia)) as H1.
  pose proof (Hab x 2 Hx ltac:(lia)) as H2.
  pose proof (Hab x 3 Hx ltac:(lia)) as H3.
  rewrite Z.add_0_r in H0.
  destruct (Z.eqb_spec (wrap32 (a + x)) (wrap32 b)); [contradiction|].
  destruct (Z.eqb_spec (wrap32 (a + x)) (wrap32 (b + 1))); [contradiction|].
  destruct (Z.eqb_spec (wrap32 (a + x)) (wrap32 (b + 2))); [contradiction|].
  destruct (Z.eqb_spec (wrap32 (a + x)) (wrap32 (b + 3))); [contradiction|].
  reflexivity.
Qed.

(** Words at a distance of at least four bytes share no byte. *)
Lemma apart_above (b d : Z) : 4 <= d <= 2 ^ 32 - 4 -> apart (b + d) b.
Proof.
  intros Hd x y Hx Hy H. apply wrap32_eq_diff in H. destruct H as [q Hq].
  lia.
Qed.

(** * The shape of [make_call] *)

Lemma save_loop_snd (live : list register) (i : Z) :
  snd (save_loop live i) = i - 4 * Z.of_nat (List.length live).
Proof.
  revert i. induction live as [|r live IH]; intros i; cbn [save_loop].
  - cbn. lia.
  - specialize (IH (i - 4)). destruct (save_loop live (i - 4)) as [ins i'].
    cbn [snd List.length] in *. lia.
Qed.

Lemma save_loop_cons (r : register) (live : list register) (i : Z) :
  fst (save_loop (r :: live) i) = Sw r i SP :: fst (save_loop live (i - 4)).
Proof.
  cbn [save_loop]. destruct (save_loop live (i - 4)). reflexivity.
Qed.

Lemma restore_loop_snd (l : list register) (i : Z) :
  snd (restore_loop l i) = i + 4 * Z.of_nat (List.length l).
Proof.
  revert i. induction l as [|r l IH]; intros i; cbn [restore_loop].
  - cbn. lia.
  - specialize (IH (i + 4)). destruct (restore_loop l (i + 4)) as [ins i'].
    cbn [snd List.length] in *. lia.
Qed.

Lemma restore_loop_cons (r : register) (l : list register) (i : Z) :
  fst (restore_loop (r :: l) i)
  = Lw r (i + 4) SP :: fst (restore_loop l (i + 4)).
Proof.
  cbn [restore_loop]. destruct (restore_loop l (i + 4)). reflexivity.
Qed.

Lemma restore_loop_snoc (l : list register) (r : register) (i : Z) :
  fst (restore_loop (l ++ [r]) i)
  = fst (restore_loop l i)
    ++ [Lw r (i + 4 * Z.of_nat (List.length l) + 4) SP].
Proof.
  revert i. induction l as [|x l IH]; intros i.
  - cbn [app List.length]. rewrite restore_loop_cons. cbn [restore_loop fst app].
    replace (i + 4 * Z.of_nat 0 + 4) with (i + 4) by lia. reflexivity.
  - cbn [app]. rewrite !restore_loop_cons, IH. cbn [app List.length].
    replace (i + 4 + 4 * Z.of_nat (List.length l) + 4)
      with (i + 4 * Z.of_nat (S (List.length l)) + 4) by lia.
    reflexivity.
Qed.

Lemma save_loop_offsets (live : list register) (i : Z) :
  fst (save_loop live i)
  = imap (fun k r => Sw r (i - 4 * Z.of_nat k) SP) live.
Proof.
  revert i. induction live as [|r live IH]; intros i; [reflexivity|].
  rewrite save_loop_cons, IH. cbn [imap].
  rewrite Z.mul_0_r, Z.sub_0_r. f_equal.
  apply imap_ext. intros k x _. cbn. f_equal. lia.
Qed.

Lemma restore_loop_offsets (l : list register) (i : Z) :
  fst (restore_loop l i)
  = imap (fun j r => Lw r (i + 4 * (Z.of_nat j + 1)) SP) l.
Proof.
  revert i. induction l as [|r l IH]; intros i; [reflexivity|].
  rewrite restore_loop_cons, IH. cbn [imap]. f_equal.
  apply imap_ext. intros k x _. cbn. f_equal. lia.
Qed.

Lemma make_call_core (live : list register) (name : string) :
  make_call live name
  = call_core live name 0
    ++ [Add SP SP (4 * (Z.of_nat (List.length live) + 1))].
Proof.
  unfold make_call, call_core.
  pose proof (restore_loop_snd (rev live) 4) as Hr.
  destruct (save_loop live 0) as [saves i].
  destruct (restore_loop (rev live) (0 + 4)) as [restores i'] eqn:E.
  change (0 + 4) with 4 in E. rewrite E in *. cbn [fst snd] in *.
  rewrite length_rev in Hr. subst i'.
  rewrite <- !app_assoc. cbn [app]. change (0 + 4) with 4.
  replace (4 + 4 * Z.of_nat (List.length live))
    with (4 * (Z.of_nat (List.length live) + 1)) by lia.
  reflexivity.
Qed.

Lemma call_core_nil (name : string) (i : Z) :
  call_core [] name i
  = [Sw LR i SP; Add SP SP (i - 4); Bl LR name; Lw LR 4 SP].
Proof. reflexivity. Qed.

Lemma call_core_cons (r : register) (live : list register) (name : string)
    (i : Z) :
  call_core (r :: live) name i
  = Sw r i SP
    :: call_core live name (i - 4)
    ++ [Lw r (4 * (Z.of_nat (List.length live) + 2)) SP].
Proof.
  unfold call_core. rewrite save_loop_cons, !save_loop_snd.
  cbn [rev]. rewrite restore_loop_snoc, length_rev.
  cbn [List.length app]. rewrite <- !app_assoc. cbn [app].
  replace (i - 4 * Z.of_nat (S (List.length live)))
    with (i - 4 - 4 * Z.of_nat (List.length live)) by lia.
  replace (4 + 4 * Z.of_nat (List.length live) + 4)
    with (4 * (Z.of_nat (List.length live) + 2)) by lia.
  reflexivity.
Qed.

(** * The run of [make_call]: what is saved is restored *)

Section CallRestores.

Variable callee : string -> machine -> machine.
Variable return_address : Z.
Hypothesis Hcallee : keeps_stack callee.

Local Abbreviation run' := (run callee return_address).
Local Abbreviation exec' := (exec callee return_address).

Lemma run_cons (i : instruction) (ins : list instruction) (m : machine) :
  run' (i :: ins) m = run' ins (exec' i m).
Proof. reflexivity. Qed.

Lemma run_app (ins1 ins2 : list instruction) (m : machine) :
  run' (ins1 ++ ins2) m = run' ins2 (run' ins1 m).
Proof. apply fold_left_app. Qed.

(** The called function leaves a word above its stack pointer alone. *)
Lemma callee_keeps_word (name : string) (m : machine) (a d : Z) :
  wrap32 a = wrap32 (get_reg m SP + d) -> 4 <= d -> d + 3 < 4096 ->
  load32 (memory (callee name m)) a = load32 (memory m) a.
Proof.
  intros Ha Hd1 Hd2.
  rewrite (load32_congr _ a _ Ha), (load32_congr (memory m) a _ Ha).
  apply load32_ext. intros x Hx. rewrite <- Z.add_assoc.
  apply (Hcallee name m). lia.
Qed.

Lemma call_core_run (name : string) (live : list register) :
  forall (i : Z) (m : machine),
    valid_machine m -> ~ In SP live ->
    4 * (Z.of_nat (List.length live) + 1) + 3 < 4096 ->
    get_reg (run' (call_core live name i) m) SP
    = wrap32 (get_reg m SP + i - 4 * (Z.of_nat (List.length live) + 1)) /\
    (forall r : register, In r live \/ r = LR ->
       get_reg (run' (call_core live name i) m) r = get_reg m r) /\
    (forall t : Z, 0 <= t ->
       4 * (Z.of_nat (List.length live) + 2 + t) + 3 < 4096 ->
       load32 (memory (run' (call_core live name i) m))
         (get_reg m SP + i + 4 + 4 * t)
       = load32 (memory m) (get_reg m SP + i + 4 + 4 * t)).
Proof.
  induction live as [|r live IH]; intros i m Hv Hsp Hn.
  - rewrite call_core_nil.
    set (S0 := get_reg m SP).
    set (m1 := exec' (Sw LR i SP) m).
    set (m2 := set_reg (exec' (Add SP SP (i - 4)) m1) LR return_address).
    assert (Hsp2 : get_reg m2 SP = wrap32 (S0 + i - 4)).
    { unfold m2. rewrite get_set_other by discriminate.
      cbn [exec' exec]. rewrite get_set_same by discriminate.
      f_equal. unfold S0. cbn. lia. }
    assert (Hmem2 : memory m2 = memory m1).
    { unfold m2. rewrite memory_set_reg. cbn [exec' exec].
      apply memory_set_reg. }
    assert (Hrun : run' [Sw LR i SP; Add SP SP (i - 4); Bl LR name;
                         Lw LR 4 SP] m
                   = set_reg (callee name m2) LR
                       (load32 (memory (callee name m2))
                          (get_reg (callee name m2) SP + 4)))
      by reflexivity.
    rewrite Hrun. clear Hrun.
    destruct (Hcallee name m2) as [Hsp3 _].
    assert (Hword : forall t : Z, 0 <= t -> 4 * (1 + t) + 3 < 4096 ->
              load32 (memory (callee name m2)) (S0 + i + 4 * t)
              = load32 (memory m1) (S0 + i + 4 * t)).
    { intros t Ht1 Ht2. rewrite <- Hmem2.
      apply (callee_keeps_word name m2 _ (4 + 4 * t)); [|lia|lia].
      rewrite Hsp2, wrap32_add_l. f_equal. lia. }
    split; [|split].
    + rewrite get_set_other by discriminate. rewrite Hsp3, Hsp2.
      reflexivity.
    + intros r [[]| ->].
      apply get_set_restored; [exact Hv| |congruence].
      rewrite (load32_congr _ _ (S0 + i + 4 * 0)).
      * rewrite Hword by lia. rewrite Z.mul_0_r, Z.add_0_r.
        apply load_store_same, Hv.
      * rewrite Hsp3, Hsp2, wrap32_add_l. f_equal. lia.
    + intros t Ht1 Ht2. rewrite memory_set_reg.
      replace (S0 + i + 4 + 4 * t) with (S0 + i + 4 * (t + 1)) by lia.
      rewrite Hword by (cbn in Ht2; lia).
      apply load_store_apart.
      replace (S0 + i + 4 * (t + 1)) with (S0 + i + (4 + 4 * t)) by lia.
      apply apart_above. cbn in Ht2. lia.
  - rewrite call_core_cons, run_cons, run_app.
    set (S0 := get_reg m SP).
    set (m1 := exec' (Sw r i SP) m).
    assert (Hregs1 : forall x, get_reg m1 x = get_reg m x) by reflexivity.
    assert (Hv1 : valid_machine m1)
      by (intros x; rewrite Hregs1; apply Hv).
    assert (Hr : r <> SP) by (intros ->; apply Hsp; left; reflexivity).
    assert (Hsp' : ~ In SP live) by (intros H; apply Hsp; right; exact H).
    cbn [List.length] in Hn |- *.
    destruct (IH (i - 4) m1 Hv1 Hsp' ltac:(lia))
      as (IH1 & IH2 & IH3).
    set (m2 := run' (call_core live name (i - 4)) m1) in *.
    rewrite Hregs1 in IH1, IH3. fold S0 in IH1, IH3.
    assert (Hrun : run' [Lw r (4 * (Z.of_nat (List.length live) + 2)) SP]
                     m2
                   = set_reg m2 r
                       (load32 (memory m2)
                          (get_reg m2 SP
                           + 4 * (Z.of_nat (List.length live) + 2))))
      by reflexivity.
    rewrite Hrun. clear Hrun.
    split; [|split].
    + rewrite get_set_other by (intros E; apply Hr; symmetry; exact E).
      rewrite IH1. f_equal. lia.
    + intros x Hx.
      apply get_set_restored; [exact Hv| |].
      * rewrite (load32_congr _ _ (S0 + (i - 4) + 4 + 4 * 0)).
        -- rewrite IH3 by lia.
           replace (S0 + (i - 4) + 4 + 4 * 0) with (S0 + i) by lia.
           apply load_store_same, Hv.
        -- rewrite IH1, wrap32_add_l. f_equal. lia.
      * intros Hne. rewrite IH2, Hregs1; [reflexivity|].
        destruct Hx as [[Hx|Hx]|Hx]; [congruence|left; exact Hx|
                                       right; exact Hx].
    + intros t Ht1 Ht2. rewrite memory_set_reg.
      replace (S0 + i + 4 + 4 * t) with (S0 + (i - 4) + 4 + 4 * (t + 1))
        by lia.
      rewrite IH3 by lia.
      apply load_store_apart.
      replace (S0 + (i - 4) + 4 + 4 * (t + 1)) with (S0 + i + (4 + 4 * t))
        by lia.
      apply apart_above. lia.
Qed.

End CallRestores.

(** C2, as amended: for the registers [live_regs] that are live over the
    call, n of them, [make_call] yields a store of each of them at the
    offsets 0, -4, ... from SP, the first one at SP itself and the others
    below it, a store of ra at -4n, the decrement of SP by 4(n+1), the [bl],
    the load of ra from offset 4, the loads of the live registers in reverse
    order from 8, 12, ..., each from the slot that it was stored to, and the
    increment of SP by 4(n+1).  When the called function returns with its
    stack pointer and leaves the stack above it alone, SP, ra and every live
    register hold after the sequence the values they held before it. *)
Theorem make_call_restores (callee : string -> machine -> machine)
    (return_address : Z) (live_regs : list register) (name : string)
    (m : machine) :
  keeps_stack callee -> valid_machine m -> ~ In SP live_regs ->
  4 * (Z.of_nat (List.length live_regs) + 1) <= 2048 ->
  make_call live_regs name
  = imap (fun k r => Sw r (- (4 * Z.of_nat k)) SP) live_regs
    ++ [Sw LR (- (4 * Z.of_nat (List.length live_regs))) SP;
        Add SP SP (- (4 * (Z.of_nat (List.length live_regs) + 1)));
        Bl LR name;
        Lw LR 4 SP]
    ++ imap (fun j r => Lw r (4 * (Z.of_nat j + 2)) SP) (rev live_regs)
    ++ [Add SP SP (4 * (Z.of_nat (List.length live_regs) + 1))] /\
  get_reg (run callee return_address (make_call live_regs name) m) SP
  = get_reg m SP /\
  get_reg (run callee return_address (make_call live_regs name) m) LR
  = get_reg m LR /\
  (forall r : register, In r live_regs ->
     get_reg (run callee return_address (make_call live_regs name) m) r
     = get_reg m r).
Proof.
  intros Hcallee Hv Hsp Hn.
  set (n := Z.of_nat (List.length live_regs)) in *.
  split.
  - rewrite make_call_core. unfold call_core.
    rewrite save_loop_offsets, restore_loop_offsets, save_loop_snd.
    fold n. rewrite <- !app_assoc. cbn [app].
    rewrite (imap_ext (fun k r => Sw r (0 - 4 * Z.of_nat k) SP)
               (fun k r => Sw r (- (4 * Z.of_nat k)) SP))
      by (intros k r _; cbn; f_equal; lia).
    rewrite (imap_ext (fun j r => Lw r (4 + 4 * (Z.of_nat j + 1)) SP)
               (fun j r => Lw r (4 * (Z.of_nat j + 2)) SP))
      by (intros j r _; cbn; f_equal; lia).
    replace (0 - 4 * n) with (- (4 * n)) by lia.
    replace (- (4 * n) - 4) with (- (4 * (n + 1))) by lia.
    reflexivity.
  - rewrite make_call_core, run_app.
    destruct (call_core_run callee return_address Hcallee name live_regs 0 m
                Hv Hsp ltac:(fold n; lia)) as (H1 & H2 & _).
    fold n in H1 |- *.
    set (m1 := run callee return_address (call_core live_regs name 0) m)
      in *.
    change (run callee return_address [Add SP SP (4 * (n + 1))] m1)
      with (set_reg m1 SP (get_reg m1 SP + 4 * (n + 1))).
    assert (Hne : forall r, In r live_regs \/ r = LR -> r <> SP).
    { intros r [Hr| ->]; [|discriminate]. intros ->. contradiction. }
    split; [|split].
    + rewrite get_set_same by discriminate.
      rewrite H1, wrap32_add_l.
      replace (get_reg m SP + 0 - 4 * (n + 1) + 4 * (n + 1))
        with (get_reg m SP) by lia.
      apply wrap32_small, Hv.
    + rewrite get_set_other by discriminate. apply H2. right. reflexivity.
    + intros r Hr. rewrite get_set_other by (apply Hne; left; exact Hr).
      apply H2. left. exact Hr.
Qed.

Lemma clobbering_callee_keeps_stack : keeps_stack clobbering_callee.
Proof. intros name m. split; [reflexivity|]. intros j _. reflexivity. Qed.

Lemma demo_machine_valid : valid_machine demo_machine.
Proof.
  intros r. unfold get_reg, demo_machine. cbn [xregs].
  repeat match goal with
         | |- context [if ?b then _ else _] => destruct b
         end; lia.
Qed.

(** The scenario of the specification: two registers are live over the
    call, and SP is decremented by 12. *)
Lemma make_call_restores_witness :
  make_call [9%nat; 18%nat] "foo"
  = [Sw 9 0 SP; Sw 18 (-4) SP; Sw LR (-8) SP; Add SP SP (-12); Bl LR "foo";
     Lw LR 4 SP; Lw 18 8 SP; Lw 9 12 SP; Add SP SP 12] /\
  get_reg (run clobbering_callee 64 (make_call [9%nat; 18%nat] "foo")
             demo_machine) SP = 4096 /\
  get_reg (run clobbering_callee 64 (make_call [9%nat; 18%nat] "foo")
             demo_machine) LR = 256 /\
  (forall r : register, In r [9%nat; 18%nat] ->
     get_reg (run clobbering_callee 64 (make_call [9%nat; 18%nat] "foo")
                demo_machine) r
     = get_reg demo_machine r).
Proof.
  apply (make_call_restores clobbering_callee 64 [9%nat; 18%nat] "foo"
           demo_machine clobbering_callee_keeps_stack demo_machine_valid).
  - simpl. intros [H|[H|[]]]; discriminate H.
  - simpl. lia.
Defined.

(** C2, refuted as stated: in the scenario of the specification, with two
    registers live over the call, not every store of [make_call] is a store
    below SP.  The first instruction stores the first live register at
    offset 0, and after the sequence the word at the stack pointer of the
    caller, which held 0, holds the 7 of that register. *)
Lemma make_call_stores_at_SP :
  forallb store_below_SP (make_call [9%nat; 18%nat] "foo") = false /\
  hd_error (make_call [9%nat; 18%nat] "foo") = Some (Sw 9 0 SP) /\
  load32 (memory demo_machine) (get_reg demo_machine SP) = 0 /\
  load32
    (memory (run clobbering_callee 64 (make_call [9%nat; 18%nat] "foo")
               demo_machine))
    (get_reg demo_machine SP)
  = 7.
Proof. repeat split; vm_compute; reflexivity. Qed.

(** The same without live registers: ra is stored at SP. *)
Lemma make_call_no_live_stores_ra_at_SP :
  make_call [] "foo"
  = [Sw LR 0 SP; Add SP SP (-4); Bl LR "foo"; Lw LR 4 SP; Add SP SP 4] /\
  forallb store_below_SP (make_call [] "foo") = false.
Proof. split; reflexivity. Qed.

(** * The runtime routine [__sdiv] *)

(** More fuel does not change the result of a run that returns. *)
Lemma asm_run_more_fuel (prog : list asm_line) (fuel extra : nat) :
  forall (pc : nat) (m m' : machine),
    asm_run fuel prog pc m = Some m' ->
    asm_run (fuel + extra) prog pc m = Some m'.
Proof.
  induction fuel as [|fuel IH]; intros pc m m' H; [discriminate|].
  cbn [asm_run Nat.add] in *.
  destruct (asm_step prog pc m) as [pc1 m1|m1|]; [|exact H|discriminate].
  apply IH, H.
Qed.

Lemma run_sdiv_more_fuel (fuel extra : nat) (x11 x12 q : Z) :
  run_sdiv fuel x11 x12 = Some q -> run_sdiv (fuel + extra) x11 x12 = Some q.
Proof.
  unfold run_sdiv. destruct (find_label "__sdiv" asm_src) as [pc|];
    [|discriminate].
  destruct (asm_run fuel asm_src pc (sdiv_entry x11 x12)) as [m|] eqn:E;
    [|discriminate].
  rewrite (asm_run_more_fuel _ _ extra _ _ _ E). auto.
Qed.

Lemma run_sdiv_deterministic (f1 f2 : nat) (x11 x12 q1 q2 : Z) :
  run_sdiv f1 x11 x12 = Some q1 -> run_sdiv f2 x11 x12 = Some q2 -> q1 = q2.
Proof.
  intros H1 H2.
  apply (run_sdiv_more_fuel _ f2) in H1.
  apply (run_sdiv_more_fuel _ f1) in H2.
  rewrite Nat.add_comm, H1 in H2. congruence.
Qed.

(** C3, the defect: with 21 in x11 and 4 in x12 the routine returns, and
    x10 holds 4, not the quotient 5.  The divisor is shifted up to 32; the
    rounds at 32, 16 and 8 give the bits 0, 1, 0, each followed by a shift
    of the result, and the loop stops when the shifted divisor is back at 4
    ([bgt] is strict), so the round at 4 that would add the last bit is
    never run. *)
Theorem sdiv_21_4_returns_4 : run_sdiv 100 21 4 = Some 4 /\ 21 / 4 = 5.
Proof. split; [vm_compute; reflexivity|reflexivity]. Qed.

(** However much fuel the run is given, if it returns it returns 4. *)
Lemma sdiv_21_4_any_fuel (fuel : nat) (q : Z) :
  run_sdiv fuel 21 4 = Some q -> q = 4.
Proof.
  intros Hq. apply (run_sdiv_deterministic fuel 100 21 4 q 4 Hq).
  vm_compute. reflexivity.
Qed.

(** Two more runs: 1 / 1 gives 2, and 8 / 2 gives 4. *)
Lemma sdiv_other_runs :
  run_sdiv 100 1 1 = Some 2 /\ run_sdiv 100 8 2 = Some 4.
Proof. split; vm_compute; reflexivity. Qed.

(** * More on records: bounds and damaged lines *)

Lemma makeHexLine_cases (addr typ : Z) (d : list byte) :
  makeHexLine addr typ d
  = if (255 <? List.length d)%nat then Raise ValueError
    else if (addr <? 0) || (65535 <? addr) then Raise StructError
    else if (typ <? 0) || (255 <? typ) then Raise ValueError
    else Ok (String ":" (hexlify (record_bytes addr typ d))).
Proof.
  destruct (Nat.ltb_spec 255 (List.length d)) as [Hd|Hd].
  { unfold makeHexLine. rewrite byte_of_int_raises by lia. reflexivity. }
  destruct (Z.ltb_spec addr 0) as [Ha|Ha]; cbn [orb].
  { unfold makeHexLine. rewrite byte_of_int_ok by lia. cbn [bind].
    rewrite pack_H_raises by lia. reflexivity. }
  destruct (Z.ltb_spec 65535 addr) as [Ha'|Ha'].
  { unfold makeHexLine. rewrite byte_of_int_ok by lia. cbn [bind].
    rewrite pack_H_raises by lia. reflexivity. }
  destruct (Z.ltb_spec typ 0) as [Ht|Ht]; cbn [orb].
  { unfold makeHexLine. rewrite byte_of_int_ok by lia. cbn [bind].
    rewrite pack_H_ok by lia. cbn [bind].
    rewrite byte_of_int_raises by lia. reflexivity. }
  destruct (Z.ltb_spec 255 typ) as [Ht'|Ht'].
  { unfold makeHexLine. rewrite byte_of_int_ok by lia. cbn [bind].
    rewrite pack_H_ok by lia. cbn [bind].
    rewrite byte_of_int_raises by lia. reflexivity. }
  apply makeHexLine_ok; lia.
Qed.

(** X1: [makeHexLine] checks its arguments in this order: the length of the
    data, the address, the record type; when all three are in range it
    returns the line. *)
Theorem makeHexLine_bounds (addr typ : Z) (d : list byte) :
  makeHexLine addr typ d
  = if (255 <? List.length d)%nat then Raise ValueError
    else if (addr <? 0) || (65535 <? addr) then Raise StructError
    else if (typ <? 0) || (255 <? typ) then Raise ValueError
    else Ok (String ":" (hexlify (record_bytes addr typ d))).
Proof. apply makeHexLine_cases. Qed.

Lemma makeHexLine_Ok_inv (addr typ : Z) (d : list byte) (line : string) :
  makeHexLine addr typ d = Ok line ->
  (List.length d <= 255)%nat /\ 0 <= addr < 65536 /\ 0 <= typ < 256 /\
  line = String ":" (hexlify (record_bytes addr typ d)).
Proof.
  rewrite makeHexLine_cases.
  destruct (Nat.ltb_spec 255 (List.length d)); [discriminate|].
  destruct (Z.ltb_spec addr 0); [discriminate|].
  destruct (Z.ltb_spec 65535 addr); [discriminate|].
  destruct (Z.ltb_spec typ 0); [discriminate|].
  destruct (Z.ltb_spec 255 typ); [discriminate|].
  cbn [orb]. intros E. injection E as <-. repeat split; lia.
Qed.

Lemma parseHexLine_bytes (nums : list byte) :
  parseHexLine (String ":" (hexlify nums))
  = match nums with
    | [] => Raise IndexError
    | bytecount :: _ =>
        if negb (Z.of_nat (List.length nums) =? byte_val bytecount + 5) then
          Raise (HexFileException "byte count field incorrect")
        else if negb (Z.land (sum_bytes nums) 255 =? 0) then
          Raise (HexFileException "crc incorrect")
        else
          address <-- unpack_H (firstn 2 (skipn 1 nums)) ;;
          match nth_error nums 3 with
          | None => Raise IndexError
          | Some typ => Ok (address, byte_val typ, slice_4_m1 nums)
          end
    end.
Proof.
  unfold parseHexLine. cbn [str_tail]. rewrite fromhex_hexlify. reflexivity.
Qed.

(** X2: A record that is accepted is refused, with the message of a wrong check
    sum, when one of its bytes after the first is replaced by another. *)
Theorem parseHexLine_detects_changed_byte (pre post : list byte) (b b' : byte)
    (rec : Z * Z * list byte) :
  pre <> [] -> b <> b' ->
  parseHexLine (String ":" (hexlify (pre ++ b :: post))) = Ok rec ->
  parseHexLine (String ":" (hexlify (pre ++ b' :: post)))
  = Raise (HexFileException "crc incorrect").
Proof.
  intros Hpre Hb. rewrite !parseHexLine_bytes.
  destruct pre as [|c pre]; [contradiction|]. cbn [app].
  assert (Hlen : List.length (c :: pre ++ b' :: post)
                 = List.length (c :: pre ++ b :: post)).
  { cbn [List.length]. rewrite !length_app. reflexivity. }
  rewrite Hlen.
  destruct (negb (_ =? byte_val c + 5)); [discriminate|].
  destruct (Z.eqb_spec (Z.land (sum_bytes (c :: pre ++ b :: post)) 255) 0)
    as [Hsum|]; [|discriminate].
  intros _. cbn [negb].
  rewrite land_255 in Hsum.
  destruct (Z.eqb_spec (Z.land (sum_bytes (c :: pre ++ b' :: post)) 255) 0)
    as [Hsum'|]; [|reflexivity].
  exfalso. rewrite land_255 in Hsum'.
  rewrite !sum_bytes_cons, !sum_bytes_app, !sum_bytes_cons in *.
  assert (Hne : byte_val b <> byte_val b')
    by (intros E; apply Hb, byte_val_inj, E).
  pose proof (byte_val_range b). pose proof (byte_val_range b').
  set (s := byte_val c + sum_bytes pre) in *.
  set (t := sum_bytes post) in *.
  apply Z.mod_divide in Hsum; [|lia]. apply Z.mod_divide in Hsum'; [|lia].
  destruct Hsum as [q1 Hq1]. destruct Hsum' as [q2 Hq2]. lia.
Qed.

Lemma parseHexLine_detects_changed_byte_witness :
  parseHexLine (String ":" (hexlify ([x02; x00; x00; x04] ++ x08 :: [x00; xf2])))
  = Ok (0, 4, [x08; x00]) /\
  parseHexLine (String ":" (hexlify ([x02; x00; x00; x04] ++ x09 :: [x00; xf2])))
  = Raise (HexFileException "crc incorrect").
Proof.
  split; [reflexivity|].
  apply (parseHexLine_detects_changed_byte [x02; x00; x00; x04] [x00; xf2]
           x08 x09 (0, 4, [x08; x00])); [discriminate|discriminate|].
  reflexivity.
Defined.

Lemma record_bytes_length (addr typ : Z) (d : list byte) :
  List.length (record_bytes addr typ d) = (List.length d + 5)%nat.
Proof.
  unfold record_bytes. cbn [app List.length]. rewrite length_app. cbn. lia.
Qed.

(** X3: A record of [makeHexLine] that has lost bytes at its end, or to which
    bytes were added, is refused with the message of a wrong byte count. *)
Theorem parseHexLine_detects_wrong_length (addr typ : Z) (d extra : list byte)
    (n : nat) :
  (List.length d <= 255)%nat ->
  (0 < n < List.length d + 5)%nat -> extra <> [] ->
  parseHexLine (String ":" (hexlify (firstn n (record_bytes addr typ d))))
  = Raise (HexFileException "byte count field incorrect") /\
  parseHexLine (String ":" (hexlify (record_bytes addr typ d ++ extra)))
  = Raise (HexFileException "byte count field incorrect").
Proof.
  intros Hd Hn Hextra. rewrite !parseHexLine_bytes.
  pose proof (record_bytes_length addr typ d) as Hlen.
  assert (Hbc : byte_val (low_byte (Z.of_nat (List.length d))) + 5
                = Z.of_nat (List.length d) + 5).
  { rewrite low_byte_val, Z.mod_small by lia. reflexivity. }
  split.
  - destruct n as [|n]; [lia|].
    assert (Hl : List.length (firstn (S n) (record_bytes addr typ d)) = S n)
      by (rewrite length_firstn; lia).
    revert Hl. unfold record_bytes. cbn [app firstn]. intros Hl.
    rewrite Hl, Hbc.
    destruct (Z.eqb_spec (Z.of_nat (S n)) (Z.of_nat (List.length d) + 5));
      [lia|reflexivity].
  - assert (Hl : List.length (record_bytes addr typ d ++ extra)
                 = (List.length d + 5 + List.length extra)%nat)
      by (rewrite length_app, Hlen; reflexivity).
    revert Hl. unfold record_bytes. cbn [app]. intros Hl.
    rewrite Hl, Hbc.
    destruct extra as [|e extra]; [contradiction|]. cbn [List.length].
    destruct (Z.eqb_spec
                (Z.of_nat (List.length d + 5 + S (List.length extra)))
                (Z.of_nat (List.length d) + 5)); [lia|reflexivity].
Qed.

Lemma parseHexLine_detects_wrong_length_witness :
  parseHexLine (String ":" (hexlify (firstn 6 (record_bytes 0 4 [x08; x00]))))
  = Raise (HexFileException "byte count field incorrect") /\
  parseHexLine (String ":" (hexlify (record_bytes 0 4 [x08; x00] ++ [xff])))
  = Raise (HexFileException "byte count field incorrect").
Proof.
  apply (parseHexLine_detects_wrong_length 0 4 [x08; x00] [xff] 6);
    [simpl; lia|simpl; lia|discriminate].
Defined.

(** * The chunks of a region *)

Lemma chunks_from_spec (d : list byte) :
  forall (fuel idx : nat),
    (List.length d - idx <= fuel)%nat -> (idx <= List.length d)%nat ->
    concat (chunks_from fuel d 16 idx) = skipn idx d /\
    Forall (fun c => (1 <= List.length c <= 16)%nat)
      (chunks_from fuel d 16 idx) /\
    full_but_last 16 (chunks_from fuel d 16 idx) /\
    Z.of_nat (List.length (chunks_from fuel d 16 idx))
    = (Z.of_nat (List.length d - idx) + 15) / 16.
Proof.
  induction fuel as [|fuel IH]; intros idx Hfuel Hidx.
  - assert (idx = List.length d) by lia. subst idx.
    cbn [chunks_from concat]. rewrite skipn_all, Nat.sub_diag.
    repeat split; constructor.
  - cbn [chunks_from].
    destruct (Nat.ltb_spec idx (List.length d)) as [Hlt|Hge].
    2:{ assert (idx = List.length d) by lia. subst idx.
        cbn [concat]. rewrite skipn_all, Nat.sub_diag.
        repeat split; constructor. }
    set (n := Nat.min (List.length d - idx) 16).
    assert (Hn : (1 <= n <= 16)%nat) by (unfold n; lia).
    assert (Hn' : (idx + n <= List.length d)%nat) by (unfold n; lia).
    assert (Hclen : List.length (slice d idx (idx + n)) = n).
    { unfold slice. rewrite length_firstn, length_skipn. lia. }
    destruct (IH (idx + n)%nat ltac:(lia) ltac:(lia))
      as (Hcat & Hall & Hfull & Hcount).
    split; [|split; [|split]].
    + cbn [concat]. rewrite Hcat. unfold slice.
      replace (idx + n - idx)%nat with n by lia.
      rewrite <- (firstn_skipn n (skipn idx d)) at 2.
      rewrite skipn_skipn, (Nat.add_comm n idx). reflexivity.
    + constructor; [rewrite Hclen; exact Hn|exact Hall].
    + cbn [full_but_last]. split; [|exact Hfull].
      intros Hrest. rewrite Hclen.
      destruct (Nat.eq_dec n 16%nat) as [|Hne]; [assumption|].
      exfalso. apply Hrest.
      assert (idx + n = List.length d)%nat by (unfold n in *; lia).
      destruct fuel; [reflexivity|]. cbn [chunks_from].
      destruct (Nat.ltb_spec (idx + n) (List.length d)); [lia|reflexivity].
    + cbn [List.length]. rewrite Nat2Z.inj_succ, Hcount.
      destruct (Nat.eq_dec n 16%nat) as [E|Hne].
      * replace (Z.of_nat (List.length d - idx))
          with (Z.of_nat (List.length d - (idx + n)) + 1 * 16) by lia.
        rewrite <- Z.add_assoc, (Z.add_comm (1 * 16)), Z.add_assoc.
        rewrite Z.div_add by lia. lia.
      * assert (E : (List.length d - idx = n)%nat) by (unfold n in *; lia).
        replace (List.length d - (idx + n))%nat with 0%nat by lia.
        rewrite E. change ((Z.of_nat 0 + 15) / 16) with 0.
        apply Z.div_unique with (r := Z.of_nat n - 1); lia.
Qed.

(** X4: [chunks] cuts the data into pieces of sixteen bytes and a last piece of
    one to sixteen bytes: no piece is empty, the pieces in order make up
    the data, and there are [ceil(len(data) / 16)] of them. *)
Theorem chunks_cover_data (d : list byte) :
  concat (chunks d) = d /\
  Forall (fun c => (1 <= List.length c <= 16)%nat) (chunks d) /\
  full_but_last 16 (chunks d) /\
  Z.of_nat (List.length (chunks d)) = (Z.of_nat (List.length d) + 15) / 16.
Proof.
  destruct (chunks_from_spec d (List.length d) 0 ltac:(lia) ltac:(lia))
    as (H1 & H2 & H3 & H4).
  rewrite Nat.sub_0_r in H4. unfold chunks. auto.
Qed.

(** * Lines that the reader passes over *)

Lemma readlines_nonempty (c : ascii) (s : string) :
  readlines (String c s) <> [].
Proof.
  cbn [readlines]. destruct (Ascii.eqb c newline); [discriminate|].
  destruct (readlines s); discriminate.
Qed.

Lemma readlines_app_newline (g f2 : string) :
  readlines (with_newline g ++ f2)
  = readlines (with_newline g) ++ readlines f2.
Proof.
  unfold with_newline. induction g as [|c g IH].
  - rewrite !append_nil_l, append_cons, append_nil_l. cbn [readlines].
    rewrite Ascii.eqb_refl. reflexivity.
  - rewrite !append_cons. cbn [readlines].
    destruct (Ascii.eqb c newline); [rewrite IH; reflexivity|].
    rewrite IH.
    destruct (readlines (g ++ String newline "")) as [|l ls] eqn:E;
      [|reflexivity].
    exfalso. destruct g; [|eapply readlines_nonempty, E].
    rewrite append_nil_l in E. eapply readlines_nonempty, E.
Qed.

Lemma readlines_app_complete (f1 f2 : string) :
  complete_text f1 -> readlines (f1 ++ f2) = readlines f1 ++ readlines f2.
Proof.
  intros [->|[g ->]]; [reflexivity|apply readlines_app_newline].
Qed.

Lemma readlines_single (x : string) :
  (forall c, In c (list_ascii_of_string x) -> c <> newline) ->
  readlines (with_newline x) = [with_newline x].
Proof.
  unfold with_newline. induction x as [|c x IH]; intros Hx.
  - rewrite append_nil_l. cbn [readlines]. rewrite Ascii.eqb_refl.
    reflexivity.
  - rewrite append_cons. cbn [readlines].
    destruct (Ascii.eqb_spec c newline) as [->|_].
    + exfalso. apply (Hx newline); [left|]; reflexivity.
    + rewrite IH; [reflexivity|].
      intros c' Hc'. apply Hx. right. exact Hc'.
Qed.

Lemma skipped_line_hexfield (line : string) :
  skipped_line line <-> hexfield line = None.
Proof.
  unfold skipped_line, hexfield. destruct (strip line) as [|c r].
  - split; auto.
  - destruct (Ascii.eqb_spec c ":") as [->|Hc]; cbn [negb].
    + split; [|discriminate].
      intros [H|(c' & r' & H & Hc')]; [discriminate|].
      injection H as <- _. contradiction.
    + split; [reflexivity|]. intros _. right. eauto.
Qed.

(** X5: A line that is blank, or that does not start with a colon once it is
    stripped, changes nothing: the image is loaded as from the text without
    that line. *)
Theorem load_passes_over_line (self : HexFile) (f1 x f2 : string) :
  complete_text f1 ->
  (forall c, In c (list_ascii_of_string x) -> c <> newline) ->
  skipped_line (with_newline x) ->
  load self (f1 ++ with_newline x ++ f2) = load self (f1 ++ f2).
Proof.
  intros Hf1 Hx Hskip. unfold load.
  rewrite !(readlines_app_complete f1) by exact Hf1.
  rewrite readlines_app_newline, readlines_single by exact Hx.
  rewrite !(load_lines_app _ (readlines f1)).
  destruct (load_lines _ (readlines f1)) as [s|e]; [|reflexivity].
  cbn [bind]. rewrite load_lines_skipped; [reflexivity|].
  constructor; [|constructor]. apply skipped_line_hexfield, Hskip.
Qed.

Lemma load_passes_over_line_witness :
  load HexFile_new
    (with_newline ":020000040800f2" ++ with_newline "  ; a remark "
     ++ with_newline ":00000001ff")
  = load HexFile_new
      (with_newline ":020000040800f2" ++ with_newline ":00000001ff").
Proof.
  apply (load_passes_over_line HexFile_new (with_newline ":020000040800f2")
           "  ; a remark " (with_newline ":00000001ff")).
  - right. eexists. reflexivity.
  - simpl. intros c H.
    repeat (destruct H as [<-|H]; [discriminate|]). destruct H.
  - right. exists ";"%char. eexists. split; [reflexivity|discriminate].
Defined.

(** * Single records *)

Lemma load_one_record (self : HexFile) (addr typ : Z) (d : list byte)
    (line : string) :
  makeHexLine addr typ d = Ok line ->
  load self (print line EmptyString)
  = (s <-- load_record
             {| endOfFile := false; ext := 0; hexfile := self |}
             (addr, typ, d) ;;
     Ok (hexfile s)).
Proof.
  intros Hline. apply makeHexLine_Ok_inv in Hline.
  destruct Hline as (Hd & Ha & Ht & ->).
  unfold load, print. rewrite append_nil_l.
  change (String ":" (hexlify (record_bytes addr typ d)) ++ String newline "")%string
    with (with_newline (String ":" (hexlify (record_bytes addr typ d)))).
  pose proof (readlines_line
                (String ":" (hexlify (record_bytes addr typ d))) EmptyString)
    as Hr.
  unfold with_newline in *. rewrite Hr
    by (cbn [nospace]; rewrite hexlify_nospace; reflexivity).
  cbn [readlines load_lines].
  pose proof (hexfield_record addr typ d Ha Ht Hd) as Hh.
  unfold with_newline in Hh. rewrite Hh. cbn [bind].
  destruct (load_record _ _); reflexivity.
Qed.

(** X6: A record of a type other than 0, 1, 4 and 5 stops the loading with the
    message that names the type. *)
Theorem load_refuses_unknown_type (self : HexFile) (addr typ : Z)
    (d : list byte) (line : string) :
  makeHexLine addr typ d = Ok line ->
  typ <> 0 -> typ <> 1 -> typ <> 4 -> typ <> 5 ->
  load self (print line EmptyString)
  = Raise (HexFileException
             ("record type " ++ str_of_int typ ++ " not implemented")).
Proof.
  intros Hline H0 H1 H4 H5. rewrite (load_one_record _ _ _ _ _ Hline).
  unfold load_record. cbn [endOfFile].
  destruct (Z.eqb_spec typ 0); [contradiction|].
  destruct (Z.eqb_spec typ EXTLINADR); [contradiction|].
  destruct (Z.eqb_spec typ EOF); [contradiction|].
  destruct (Z.eqb_spec typ 5); [contradiction|].
  reflexivity.
Qed.

Lemma load_refuses_unknown_type_witness :
  makeHexLine 16 3 [x0a] = Ok ":010010030ae2"%string /\
  load HexFile_new (print ":010010030ae2" EmptyString)
  = Raise (HexFileException "record type 3 not implemented").
Proof.
  split; [reflexivity|].
  apply (load_refuses_unknown_type HexFile_new 16 3 [x0a]);
    [reflexivity|lia|lia|lia|lia].
Defined.

(** X7: A record of type 5 sets the start address to the big endian value of the
    first four bytes of its data and leaves the regions alone; with fewer
    than four bytes of data the loading stops with [struct.error]. *)
Theorem load_start_address_record (self : HexFile) (addr : Z)
    (d : list byte) (line : string) :
  makeHexLine addr 5 d = Ok line ->
  load self (print line EmptyString)
  = match d with
    | b3 :: b2 :: b1 :: b0 :: _ =>
        Ok {| regions := regions self;
              startAddress :=
                ((byte_val b3 * 256 + byte_val b2) * 256 + byte_val b1) * 256
                + byte_val b0 |}
    | _ => Raise StructError
    end.
Proof.
  intros Hline. rewrite (load_one_record _ _ _ _ _ Hline).
  unfold load_record. cbn [endOfFile hexfile Z.eqb Pos.eqb EXTLINADR EOF].
  destruct d as [|b3 [|b2 [|b1 [|b0 d]]]]; reflexivity.
Qed.

Lemma load_start_address_record_witness :
  load HexFile_new (print ":0400000508000000ef" EmptyString)
  = Ok {| regions := []; startAddress := 134217728 |}.
Proof.
  apply (load_start_address_record HexFile_new 0 [x08; x00; x00; x00]).
  reflexivity.
Defined.

(** * The start address is not written *)

(** X8: An image that is saved and loaded into a fresh image comes back with
    the start address 0 of a fresh image, whatever its start address was:
    [save] writes no record for it. *)
Theorem round_trip_forgets_start (x : HexFile) :
  built x -> Forall storable (regions x) ->
  exists out y,
    save x EmptyString = Ok out /\ load HexFile_new out = Ok y /\
    startAddress y = 0.
Proof.
  intros Hb Hst.
  set (s0 := {| endOfFile := false; ext := 0; hexfile := HexFile_new |}).
  destruct (save_regions_follows s0 (regions x) [] EmptyString s0
              (follows_start s0) eq_refl eq_refl (built_gapped x Hb) Hst)
    as (f1 & s1 & Hsave & Hf1 & Heof1 & Hregs1 & Hstart1).
  destruct (emit_follows s0 s1 f1 0 EOF [] Hf1)
    as (out & Hemit & Hnext); [lia|unfold EOF; lia|cbn; lia|].
  exists out, (hexfile s1).
  unfold save. rewrite Hsave. cbn [bind]. split; [exact Hemit|].
  split; [|exact Hstart1].
  apply (follows_load HexFile_new out
           {| endOfFile := true; ext := ext s1; hexfile := hexfile s1 |}).
  apply Hnext. rewrite load_record_eof, Heof1. reflexivity.
Qed.

Lemma round_trip_forgets_start_witness :
  startAddress started_file = 134217729 /\
  exists out y,
    save started_file EmptyString = Ok out /\
    load HexFile_new out = Ok y /\ startAddress y = 0.
Proof.
  split; [reflexivity|].
  apply (round_trip_forgets_start started_file).
  - apply (built_start
             {| regions := [mkRegion 134217728 [x01; x02; x03; x04]];
                startAddress := 0 |} 134217729).
    apply (built_add HexFile_new _ 134217728 [x01; x02; x03; x04]);
      [apply built_new|reflexivity].
  - constructor; [|constructor].
    split; [discriminate|]. split; [simpl; lia|].
    unfold EndAddress. simpl. lia.
Defined.

(** * [check] and [merge] on lists that are in order *)

(** X9: What [check] returns it leaves as it is: a second [check] returns the
    same list. *)
Theorem check_idempotent (l v : list HexFileRegion) :
  check l = Ok v -> check v = Ok v.
Proof. intros H. apply check_gapped_id. eapply check_gapped, H. Qed.

Lemma check_idempotent_witness :
  check [mkRegion 2 [x03]; mkRegion 0 [x01; x02]; mkRegion 9 [x0a]]
  = Ok [mkRegion 0 [x01; x02; x03]; mkRegion 9 [x0a]] /\
  check [mkRegion 0 [x01; x02; x03]; mkRegion 9 [x0a]]
  = Ok [mkRegion 0 [x01; x02; x03]; mkRegion 9 [x0a]].
Proof.
  split; [reflexivity|].
  apply (check_idempotent
           [mkRegion 2 [x03]; mkRegion 0 [x01; x02]; mkRegion 9 [x0a]]).
  reflexivity.
Defined.

Lemma merge_loop_appends (others : list HexFileRegion) :
  forall h : HexFile,
    gapped (regions h ++ others) ->
    merge_loop h others
    = Ok {| regions := regions h ++ others;
            startAddress := startAddress h |}.
Proof.
  induction others as [|r others IH]; intros h Hg.
  - cbn. rewrite app_nil_r. destruct h; reflexivity.
  - cbn [merge_loop].
    assert (Hr : mkRegion (address r) (data r) = r) by (destruct r; reflexivity).
    rewrite addRegion_append_apart; rewrite Hr.
    + cbn [bind]. rewrite IH; cbn [regions startAddress];
        rewrite <- app_assoc; [reflexivity|exact Hg].
    + change (r :: others) with ([r] ++ others) in Hg.
      rewrite app_assoc in Hg. eapply gapped_app_l, Hg.
Qed.

(** X10: When the regions of the other image lie behind those of this image, in
    order and apart from one another, [merge] appends them as they are and
    keeps the start address of this image; so an image merged into a fresh
    one gives an equal image. *)
Theorem merge_appends_regions (self other : HexFile) :
  gapped (regions self ++ regions other) ->
  merge self other
  = Ok {| regions := regions self ++ regions other;
          startAddress := startAddress self |}.
Proof. intros Hg. apply merge_loop_appends, Hg. Qed.

Lemma merge_appends_regions_witness :
  merge low_file high_file
  = Ok {| regions := [mkRegion 0 [x01; x02]; mkRegion 16 [x0a];
                      mkRegion 32 [x0b; x0c]];
          startAddress := 7 |}.
Proof.
  apply (merge_appends_regions low_file high_file).
  simpl. unfold EndAddress. simpl. lia.
Defined.

(** * Equality *)

(** X11: [HexFile.__eq__] returns [True] exactly when the two region lists are
    the same, region by region in address and data; it is reflexive,
    symmetric and transitive. *)
Theorem HexFile_eq_same_regions :
  (forall h1 h2 : HexFile,
     HexFile_eq h1 h2 = true <-> regions h1 = regions h2) /\
  (forall h : HexFile, HexFile_eq h h = true) /\
  (forall h1 h2 : HexFile, HexFile_eq h1 h2 = HexFile_eq h2 h1) /\
  (forall h1 h2 h3 : HexFile,
     HexFile_eq h1 h2 = true -> HexFile_eq h2 h3 = true ->
     HexFile_eq h1 h3 = true).
Proof.
  split; [exact HexFile_eq_spec|]. split; [|split].
  - intros h. apply HexFile_eq_spec. reflexivity.
  - intros h1 h2.
    destruct (HexFile_eq h1 h2) eqn:E1, (HexFile_eq h2 h1) eqn:E2;
      try reflexivity.
    + apply HexFile_eq_spec in E1. symmetry in E1.
      apply HexFile_eq_spec in E1. congruence.
    + apply HexFile_eq_spec in E2. symmetry in E2.
      apply HexFile_eq_spec in E2. congruence.
  - intros h1 h2 h3 H12 H23. apply HexFile_eq_spec.
    apply HexFile_eq_spec in H12, H23. congruence.
Qed.

Lemma HexFile_eq_same_regions_witness :
  HexFile_eq scenario_file started_file = true /\
  HexFile_eq started_file scenario_file = true.
Proof.
  destruct HexFile_eq_same_regions as (H1 & _ & H3 & _).
  assert (E : HexFile_eq scenario_file started_file = true)
    by (apply H1; reflexivity).
  split; [exact E|]. rewrite <- (H3 scenario_file started_file). exact E.
Defined.

(** * What [addRegion] does to an image that is in order *)

Lemma list_remove_middle (st : list HexFileRegion) (x : HexFileRegion)
    (la lb : list nat) (i : nat) :
  Forall (fun j => region_eq (st !!! j) x = false) la ->
  region_eq (st !!! i) x = true ->
  list_remove st x (la ++ i :: lb) = Some (la ++ lb).
Proof.
  intros Hla Hi. induction Hla as [|j la Hj _ IH].
  - cbn. rewrite Hi. reflexivity.
  - cbn [app list_remove]. rewrite Hj, IH. reflexivity.
Qed.

Lemma map_lookup_total_seq_r (l1 l2 : list HexFileRegion) :
  map (fun i => (l1 ++ l2) !!! i) (seq (List.length l1) (List.length l2))
  = l2.
Proof.
  revert l1. induction l2 as [|z l2 IH]; intros l1; [reflexivity|].
  cbn [List.length seq map].
  rewrite list_lookup_total_middle by reflexivity. f_equal.
  replace (l1 ++ z :: l2) with ((l1 ++ [z]) ++ l2)
    by (rewrite <- app_assoc; reflexivity).
  replace (S (List.length l1)) with (List.length (l1 ++ [z]))
    by (rewrite length_app; cbn; lia).
  apply IH.
Qed.

Lemma refs_differ (st : list HexFileRegion) (v : HexFileRegion)
    (rs : list nat) (vals : list HexFileRegion) :
  map (fun i => st !!! i) rs = vals ->
  Forall (fun x => address x <> address v) vals ->
  Forall (fun j => region_eq (st !!! j) v = false) rs.
Proof.
  intros <- H. rewrite List.Forall_map in H.
  eapply List.Forall_impl; [|exact H]. cbn. intros j Hj.
  apply region_eq_address, Hj.
Qed.

Lemma check_returns (l st st' : list HexFileRegion) (rs' : list nat) :
  sort_by_address l = st -> (2 <= List.length st)%nat ->
  check_for (snapshot_pairs (seq 0 (List.length st))) st
    (seq 0 (List.length st)) false = Ok (st', rs', true) ->
  gapped (map (fun i => st' !!! i) rs') ->
  check l = Ok (map (fun i => st' !!! i) rs').
Proof.
  intros Hs Hn Hfor Hg. unfold check. rewrite Hs, length_seq.
  destruct (List.length st) as [|[|n]] eqn:En; [lia|lia|].
  rewrite check_while_step by (rewrite length_seq; lia).
  rewrite Hfor, check_while_gapped by exact Hg. reflexivity.
Qed.

(** A list that is in order once it is sorted is returned sorted. *)
Lemma check_sorted_gapped (l : list HexFileRegion) :
  gapped (sort_by_address l) -> check l = Ok (sort_by_address l).
Proof.
  intros Hg. unfold check. rewrite length_seq.
  destruct (sort_by_address l) as [|x st] eqn:E; [reflexivity|].
  cbn [List.length]. rewrite check_while_gapped.
  - f_equal. apply (map_lookup_total_seq_all (x :: st)).
  - change (S (List.length st)) with (List.length (x :: st)).
    rewrite map_lookup_total_seq_all. exact Hg.
Qed.

Lemma insert_last_at (r : HexFileRegion) (pre post : list HexFileRegion) :
  Forall (fun x => address x <= address r) pre ->
  match post with [] => True | b :: _ => address r < address b end ->
  insert_last r (pre ++ post) = pre ++ r :: post.
Proof.
  intros Hpre Hpost. induction Hpre as [|x pre Hx _ IH].
  - destruct post as [|b post]; [reflexivity|]. cbn.
    destruct (Z.leb_spec (address b) (address r)); [lia|reflexivity].
  - cbn [app insert_last].
    destruct (Z.leb_spec (address x) (address r)); [|lia].
    rewrite IH. reflexivity.
Qed.

Lemma lookup_total_third (x : list HexFileRegion) (a b c : HexFileRegion)
    (y : list HexFileRegion) :
  (x ++ a :: b :: c :: y) !!! S (S (List.length x)) = c.
Proof.
  change (x ++ a :: b :: c :: y) with (x ++ [a; b] ++ c :: y).
  rewrite app_assoc.
  apply list_lookup_total_middle. rewrite length_app. cbn. lia.
Qed.

Lemma insert_first (x : list HexFileRegion) (a w : HexFileRegion)
    (y : list HexFileRegion) :
  <[List.length x := w]> (x ++ a :: y) = x ++ w :: y.
Proof.
  rewrite insert_app_r_alt by lia. rewrite Nat.sub_diag. reflexivity.
Qed.

Lemma insert_second (x : list HexFileRegion) (a b w : HexFileRegion)
    (y : list HexFileRegion) :
  <[S (List.length x) := w]> (x ++ a :: b :: y) = x ++ a :: w :: y.
Proof.
  rewrite insert_app_r_alt by lia.
  replace (S (List.length x) - List.length x)%nat with 1%nat by lia.
  reflexivity.
Qed.

Lemma gapped_cons_tail (x : HexFileRegion) (l : list HexFileRegion) :
  gapped (x :: l) -> gapped l.
Proof. intros [_ H]. exact H. Qed.

(** Two lists in order, the first ending before the second starts, are in
    order together. *)
Lemma gapped_join (l1 l2 : list HexFileRegion) (u v : HexFileRegion) :
  gapped (l1 ++ [u]) -> gapped (v :: l2) ->
  address u < address v -> EndAddress u < address v ->
  gapped (l1 ++ u :: v :: l2).
Proof.
  intros H1 H2 Ha He. induction l1 as [|x l1 IH].
  - cbn [app]. apply gapped_cons2. auto.
  - cbn [app] in *. destruct l1 as [|y l1].
    + cbn [app] in *. apply gapped_cons2 in H1. apply gapped_cons2.
      split; [apply H1|]. apply IH. cbn. auto.
    + cbn [app] in *. apply gapped_cons2 in H1. apply gapped_cons2.
      split; [apply H1|]. apply IH, H1.
Qed.

Lemma gapped_snoc_one (l : list HexFileRegion) (u : HexFileRegion) :
  gapped (l ++ [u]) ->
  forall w, address w = address u -> gapped (l ++ [w]).
Proof. intros H w Hw. eapply gapped_last_address; eassumption. Qed.

Lemma gapped_join_one (l1 l2 : list HexFileRegion) (w : HexFileRegion) :
  gapped (l1 ++ [w]) ->
  match l2 with
  | [] => True
  | v :: _ => address w < address v /\ EndAddress w < address v
  end ->
  gapped l2 -> gapped (l1 ++ w :: l2).
Proof.
  intros H1 Hw H2. destruct l2 as [|v l2]; [exact H1|].
  apply gapped_join; tauto.
Qed.

Lemma map_refs_skip (x mid y : list HexFileRegion) :
  map (fun i => ((x ++ mid) ++ y) !!! i)
    (seq 0 (List.length x) ++ seq (List.length (x ++ mid)) (List.length y))
  = x ++ y.
Proof.
  rewrite map_app, map_lookup_total_seq_r. f_equal.
  rewrite <- app_assoc. apply map_lookup_total_seq.
Qed.

Lemma seq_split_at (k m : nat) :
  seq 0 (k + S m) = seq 0 k ++ k :: seq (S k) m.
Proof. rewrite seq_app. reflexivity. Qed.

Lemma snoc_addresses_differ (x : list HexFileRegion) (u w v : HexFileRegion) :
  gapped (x ++ [u]) -> address w = address u -> address u < address v ->
  Forall (fun z => address z <> address v) (x ++ [w]).
Proof.
  intros Hg Hw Huv. apply Forall_app. split.
  - apply gapped_snoc_before in Hg.
    eapply List.Forall_impl; [|exact Hg]. cbn. intros z Hz. lia.
  - constructor; [lia|constructor].
Qed.

(** The new region ends where the next one starts and is apart from the
    one before: the two are joined. *)
Lemma check_sorted_merge_next (l x : list HexFileRegion)
    (u v : HexFileRegion) (y : list HexFileRegion) :
  sort_by_address l = x ++ u :: v :: y ->
  gapped (x ++ [u]) -> gapped (v :: y) ->
  EndAddress u = address v -> address u < address v ->
  check l = Ok (x ++ addData u (data v) :: y).
Proof.
  intros Hs Hgx Hgy Hend Hlt.
  set (k := List.length x).
  set (w := addData u (data v)).
  set (st' := (x ++ [w]) ++ [v] ++ y).
  assert (Hk : List.length (x ++ [w]) = S k)
    by (rewrite length_app; cbn; unfold k; lia).
  assert (Hvals : map (fun i => st' !!! i)
                    (seq 0 (S k) ++ seq (S (S k)) (List.length y))
                  = x ++ w :: y).
  { unfold st'. rewrite app_assoc, <- Hk.
    replace (S (List.length (x ++ [w])))
      with (List.length ((x ++ [w]) ++ [v]))
      by (rewrite length_app; cbn; lia).
    rewrite map_refs_skip, <- app_assoc. reflexivity. }
  rewrite <- Hvals.
  apply (check_returns l _ st' _ Hs); [rewrite length_app; cbn; lia| |].
  - rewrite check_for_skip_gaps by exact Hgx.
    cbn [List.length seq]. rewrite snapshot_pairs_cons. cbn [check_for].
    rewrite list_lookup_total_middle by reflexivity.
    rewrite lookup_total_second.
    destruct (Z.eqb_spec (EndAddress u) (address v)); [|contradiction].
    rewrite insert_first.
    replace (x ++ addData u (data v) :: v :: y) with st'
      by (unfold st', w; rewrite <- app_assoc; reflexivity).
    assert (Hv : st' !!! S k = v).
    { unfold st'. rewrite <- Hk. apply list_lookup_total_middle.
      reflexivity. }
    fold k. rewrite Hv.
    rewrite length_app. cbn [List.length]. fold k.
    replace (k + S (S (List.length y)))%nat
      with (S k + S (List.length y))%nat by lia.
    rewrite seq_split_at, list_remove_middle.
    + apply check_for_gaps, gapped_snapshot.
      change (S k :: seq (S (S k)) (List.length y))
        with (seq (S k) (List.length (v :: y))).
      unfold st'. rewrite <- Hk. cbn [app].
      rewrite (map_lookup_total_seq_r (x ++ [w]) (v :: y)). exact Hgy.
    + apply (refs_differ st' v _ (x ++ [w])).
      * unfold st'. rewrite <- Hk. apply map_lookup_total_seq.
      * apply (snoc_addresses_differ x u w v Hgx); [reflexivity|exact Hlt].
    + rewrite Hv. apply region_eq_refl.
  - rewrite Hvals. apply gapped_join_one.
    + eapply gapped_last_address; [exact Hgx|reflexivity].
    + destruct y as [|c y]; [exact I|].
      apply gapped_cons2 in Hgy. destruct Hgy as [[Hvc Hec] _].
      unfold w, EndAddress in *. cbn [address data addData] in *.
      rewrite length_app. lia.
    + eapply gapped_cons_tail, Hgy.
Qed.

Lemma region_eq_empty_merge (p u : HexFileRegion) :
  EndAddress p = address u -> address p = address u ->
  region_eq (addData p (data u)) u = true.
Proof.
  intros Hend Ha. apply region_eq_eq.
  unfold EndAddress in Hend. destruct p as [a d], u as [a' d'].
  cbn [address data addData] in *.
  assert (Hd : d = [])
    by (destruct d; [reflexivity|cbn [List.length] in Hend; lia]).
  rewrite Hd, Ha. reflexivity.
Qed.

Lemma addData_empty (p u : HexFileRegion) :
  EndAddress p = address u -> address p = address u ->
  addData p (data u) = u.
Proof.
  intros Hend Ha. apply region_eq_eq, region_eq_empty_merge; assumption.
Qed.

(** The region before the new one has no data and the same address: it is
    the entry that is removed, and the new region stays. *)
Lemma check_sorted_merge_same_address (l x : list HexFileRegion)
    (p u : HexFileRegion) (y : list HexFileRegion) :
  sort_by_address l = x ++ p :: u :: y ->
  gapped (x ++ [p]) -> gapped (u :: y) ->
  EndAddress p = address u -> address p = address u ->
  check l = Ok (x ++ u :: y).
Proof.
  intros Hs Hgx Hgy Hend Ha.
  set (k := List.length x).
  set (w := addData p (data u)).
  set (st' := (x ++ [w]) ++ u :: y).
  assert (Hvals : map (fun i => st' !!! i)
                    (seq 0 k ++ seq (S k) (S (List.length y)))
                  = x ++ u :: y).
  { unfold st'.
    replace (S k) with (List.length (x ++ [w]))
      by (rewrite length_app; cbn; unfold k; lia).
    apply (map_refs_skip x [w] (u :: y)). }
  rewrite <- Hvals.
  apply (check_returns l _ st' _ Hs); [rewrite length_app; cbn; lia| |].
  - rewrite check_for_skip_gaps by exact Hgx.
    cbn [List.length seq]. rewrite snapshot_pairs_cons. cbn [check_for].
    rewrite list_lookup_total_middle by reflexivity.
    rewrite lookup_total_second.
    destruct (Z.eqb_spec (EndAddress p) (address u)); [|contradiction].
    rewrite insert_first.
    replace (x ++ addData p (data u) :: u :: y) with st'
      by (unfold st', w; rewrite <- app_assoc; reflexivity).
    assert (Hu : st' !!! S k = u).
    { unfold st'. rewrite <- app_assoc. apply lookup_total_second. }
    assert (Hw : st' !!! k = w).
    { unfold st'. rewrite <- app_assoc. apply list_lookup_total_middle.
      reflexivity. }
    fold k. rewrite Hu.
    rewrite length_app. cbn [List.length]. fold k.
    rewrite seq_split_at, list_remove_middle.
    + apply check_for_gaps, gapped_snapshot.
      change (S k :: seq (S (S k)) (List.length y))
        with (seq (S k) (List.length (u :: y))).
      unfold st'.
      replace (S k) with (List.length (x ++ [w]))
        by (rewrite length_app; cbn; unfold k; lia).
      rewrite map_lookup_total_seq_r. exact Hgy.
    + apply (refs_differ st' u _ x).
      * unfold st'. rewrite <- app_assoc. apply map_lookup_total_seq.
      * apply gapped_snoc_before in Hgx.
        eapply List.Forall_impl; [|exact Hgx]. cbn. intros z Hz. lia.
    + rewrite Hw. apply region_eq_empty_merge; assumption.
  - rewrite Hvals. apply gapped_join_one.
    + eapply gapped_last_address; [exact Hgx|symmetry; exact Ha].
    + destruct y as [|c y]; [exact I|].
      apply gapped_cons2 in Hgy. apply Hgy.
    + eapply gapped_cons_tail, Hgy.
Qed.

(** The new region fills the room between two regions, and the region
    before it has data: the region behind it is taken out of the list and
    its data is not kept. *)
Lemma check_sorted_merge_both (l x : list HexFileRegion)
    (p u v : HexFileRegion) (y : list HexFileRegion) :
  sort_by_address l = x ++ p :: u :: v :: y ->
  gapped (x ++ [p]) -> gapped (v :: y) ->
  EndAddress p = address u -> EndAddress u = address v ->
  address p < address u -> address u < address v ->
  check l = Ok (x ++ addData p (data u) :: y).
Proof.
  intros Hs Hgx Hgy Hpu Huv Hlt1 Hlt2.
  set (k := List.length x).
  set (w := addData p (data u)).
  set (w2 := addData u (data v)).
  set (st2 := (x ++ [w]) ++ [w2; v] ++ y).
  assert (Hk : List.length (x ++ [w]) = S k)
    by (rewrite length_app; cbn; unfold k; lia).
  assert (Hvals : map (fun i => st2 !!! i)
                    (seq 0 (S k) ++ seq (S (S (S k))) (List.length y))
                  = x ++ w :: y).
  { unfold st2. rewrite app_assoc, <- Hk.
    replace (S (S (List.length (x ++ [w]))))
      with (List.length ((x ++ [w]) ++ [w2; v]))
      by (rewrite length_app; cbn; lia).
    rewrite map_refs_skip, <- app_assoc. reflexivity. }
  rewrite <- Hvals.
  apply (check_returns l _ st2 _ Hs); [rewrite length_app; cbn; lia| |].
  - subst k.
    rewrite check_for_skip_gaps by exact Hgx.
    cbn [List.length seq]. rewrite !snapshot_pairs_cons. cbn [check_for].
    rewrite list_lookup_total_middle by reflexivity.
    rewrite lookup_total_second.
    destruct (Z.eqb_spec (EndAddress p) (address u)); [|contradiction].
    rewrite insert_first. fold w.
    rewrite lookup_total_second.
    rewrite length_app. cbn [List.length].
    replace (List.length x + S (S (S (List.length y))))%nat
      with (S (List.length x) + S (S (List.length y)))%nat by lia.
    rewrite seq_split_at.
    rewrite (list_remove_middle (x ++ w :: u :: v :: y) u
               (seq 0 (S (List.length x)))).
    + rewrite ?lookup_total_second, lookup_total_third.
      destruct (Z.eqb_spec (EndAddress u) (address v)); [|contradiction].
      rewrite insert_second. fold w2.
      replace (x ++ w :: w2 :: v :: y) with st2
        by (unfold st2; rewrite <- app_assoc; reflexivity).
      assert (Hv : st2 !!! S (S (List.length x)) = v).
      { unfold st2. rewrite <- app_assoc. apply lookup_total_third. }
      rewrite Hv. cbn [seq].
      rewrite (list_remove_middle st2 v (seq 0 (S (List.length x)))).
      * apply check_for_gaps, gapped_snapshot.
        change (S (S (List.length x))
                  :: seq (S (S (S (List.length x)))) (List.length y))
          with (seq (S (S (List.length x))) (List.length (v :: y))).
        unfold st2.
        replace (S (S (List.length x)))
          with (List.length ((x ++ [w]) ++ [w2]))
          by (rewrite length_app, Hk; cbn; lia).
        replace ((x ++ [w]) ++ [w2; v] ++ y)
          with (((x ++ [w]) ++ [w2]) ++ v :: y)
          by (rewrite <- !app_assoc; reflexivity).
        rewrite map_lookup_total_seq_r. exact Hgy.
      * apply (refs_differ st2 v _ (x ++ [w])).
        -- unfold st2. rewrite <- Hk. apply map_lookup_total_seq.
        -- apply (snoc_addresses_differ x p w v Hgx); [reflexivity|lia].
      * rewrite Hv. apply region_eq_refl.
    + apply (refs_differ _ u _ (x ++ [w])).
      * replace (x ++ w :: u :: v :: y) with ((x ++ [w]) ++ u :: v :: y)
          by (rewrite <- app_assoc; reflexivity).
        rewrite <- Hk. apply map_lookup_total_seq.
      * apply (snoc_addresses_differ x p w u Hgx); [reflexivity|lia].
    + rewrite lookup_total_second. apply region_eq_refl.
  - rewrite Hvals. apply gapped_join_one.
    + eapply gapped_last_address; [exact Hgx|reflexivity].
    + destruct y as [|c y]; [exact I|].
      apply gapped_cons2 in Hgy. destruct Hgy as [[Hvc Hec] _].
      pose proof (EndAddress_ge v).
      unfold w, EndAddress in *. cbn [address data addData] in *.
      rewrite length_app. lia.
    + eapply gapped_cons_tail, Hgy.
Qed.

(** The new region fills the room between two regions, and the region
    before it has no data and the same address: that entry is removed, and
    the new region is joined with the region behind it. *)
Lemma check_sorted_merge_both_same_address (l x : list HexFileRegion)
    (p u v : HexFileRegion) (y : list HexFileRegion) :
  sort_by_address l = x ++ p :: u :: v :: y ->
  gapped (x ++ [p]) -> gapped (v :: y) ->
  EndAddress p = address u -> address p = address u ->
  EndAddress u = address v -> address u < address v ->
  check l = Ok (x ++ addData u (data v) :: y).
Proof.
  intros Hs Hgx Hgy Hpu Ha Huv Hlt.
  set (w2 := addData u (data v)).
  set (st2 := x ++ u :: w2 :: v :: y).
  assert (Hx : Forall (fun z => address z <> address v) x
               /\ Forall (fun z => address z <> address u) x).
  { apply gapped_snoc_before in Hgx. split;
      (eapply List.Forall_impl; [|exact Hgx]); cbn; intros z Hz; lia. }
  destruct Hx as [Hxv Hxu].
  assert (Hvals : map (fun i => st2 !!! i)
                    ((seq 0 (List.length x) ++ [S (List.length x)])
                     ++ seq (S (S (S (List.length x)))) (List.length y))
                  = x ++ w2 :: y).
  { rewrite !map_app. cbn [map]. unfold st2.
    rewrite map_lookup_total_seq, lookup_total_second.
    rewrite <- app_assoc. cbn [app]. do 2 f_equal.
    replace (x ++ u :: w2 :: v :: y) with ((x ++ [u; w2; v]) ++ y)
      by (rewrite <- app_assoc; reflexivity).
    replace (S (S (S (List.length x))))
      with (List.length (x ++ [u; w2; v]))
      by (rewrite length_app; cbn; lia).
    apply map_lookup_total_seq_r. }
  rewrite <- Hvals.
  apply (check_returns l _ st2 _ Hs); [rewrite length_app; cbn; lia| |].
  - rewrite check_for_skip_gaps by exact Hgx.
    cbn [List.length seq]. rewrite !snapshot_pairs_cons. cbn [check_for].
    rewrite list_lookup_total_middle by reflexivity.
    rewrite lookup_total_second.
    destruct (Z.eqb_spec (EndAddress p) (address u)); [|contradiction].
    rewrite insert_first, addData_empty by assumption.
    rewrite lookup_total_second.
    rewrite length_app. cbn [List.length].
    rewrite seq_split_at.
    rewrite (list_remove_middle (x ++ u :: u :: v :: y) u
               (seq 0 (List.length x))).
    + cbn [seq]. rewrite ?lookup_total_second, lookup_total_third.
      destruct (Z.eqb_spec (EndAddress u) (address v)); [|contradiction].
      rewrite insert_second. fold w2 st2.
      assert (Hv : st2 !!! S (S (List.length x)) = v)
        by apply lookup_total_third.
      rewrite Hv.
      change (seq 0 (List.length x)
              ++ S (List.length x) :: S (S (List.length x))
                 :: seq (S (S (S (List.length x)))) (List.length y))
        with (seq 0 (List.length x)
              ++ [S (List.length x)]
              ++ S (S (List.length x))
                 :: seq (S (S (S (List.length x)))) (List.length y)).
      rewrite app_assoc.
      rewrite (list_remove_middle st2 v).
      * apply check_for_gaps, gapped_snapshot.
        change (S (S (List.length x))
                  :: seq (S (S (S (List.length x)))) (List.length y))
          with (seq (S (S (List.length x))) (List.length (v :: y))).
        unfold st2.
        replace (S (S (List.length x))) with (List.length (x ++ [u; w2]))
          by (rewrite length_app; cbn; lia).
        replace (x ++ u :: w2 :: v :: y) with ((x ++ [u; w2]) ++ v :: y)
          by (rewrite <- !app_assoc; reflexivity).
        rewrite map_lookup_total_seq_r. exact Hgy.
      * apply Forall_app. split.
        -- apply (refs_differ st2 v _ x); [|exact Hxv].
           apply map_lookup_total_seq.
        -- constructor; [|constructor]. unfold st2.
           rewrite lookup_total_second. apply region_eq_address.
           cbn. lia.
      * rewrite Hv. apply region_eq_refl.
    + apply (refs_differ _ u _ x); [|exact Hxu].
      apply map_lookup_total_seq.
    + rewrite list_lookup_total_middle by reflexivity.
      apply region_eq_refl.
  - rewrite Hvals. apply gapped_join_one.
    + eapply gapped_last_address; [exact Hgx|].
      cbn. symmetry. exact Ha.
    + destruct y as [|c y]; [exact I|].
      apply gapped_cons2 in Hgy. destruct Hgy as [[Hvc Hec] _].
      pose proof (EndAddress_ge v).
      unfold w2, EndAddress in *. cbn [address data addData] in *.
      rewrite length_app. lia.
    + eapply gapped_cons_tail, Hgy.
Qed.

Lemma gapped_remove_middle (pre post : list HexFileRegion)
    (r : HexFileRegion) :
  gapped (pre ++ r :: post) -> gapped (pre ++ post).
Proof.
  intros Hg. destruct pre as [|p pre _] using rev_ind.
  - eapply gapped_cons_tail, Hg.
  - rewrite <- app_assoc in Hg |- *. cbn [app] in *.
    pose proof (gapped_app_r _ _ Hg) as Hp.
    replace (pre ++ p :: r :: post) with ((pre ++ [p]) ++ r :: post) in Hg
      by (rewrite <- app_assoc; reflexivity).
    apply gapped_app_l in Hg.
    apply gapped_cons2 in Hp. destruct Hp as [[H1 H2] Hr].
    apply gapped_join_one; [exact Hg| |eapply gapped_cons_tail, Hr].
    destruct post as [|b post]; [exact I|].
    destruct (proj1 (gapped_cons2 _ _ _) Hr) as [[? ?] _].
    pose proof (EndAddress_ge r). lia.
Qed.

Lemma sorted_with_new (pre post : list HexFileRegion) (r : HexFileRegion) :
  gapped (pre ++ post) ->
  Forall (fun x => address x <= address r) pre ->
  match post with [] => True | b :: _ => address r < address b end ->
  sort_by_address ((pre ++ post) ++ [r]) = pre ++ r :: post.
Proof.
  intros Hg Hpre Hpost.
  rewrite sort_appended by (apply gapped_ascending, Hg).
  apply insert_last_at; assumption.
Qed.

Lemma snoc_le (pre : list HexFileRegion) (p : HexFileRegion) (a : Z) :
  gapped (pre ++ [p]) -> address p <= a ->
  Forall (fun x => address x <= a) (pre ++ [p]).
Proof.
  intros Hg Hp. apply Forall_app. split.
  - apply gapped_snoc_before in Hg.
    eapply List.Forall_impl; [|exact Hg]. cbn. intros z Hz. lia.
  - constructor; [exact Hp|constructor].
Qed.

(** X12: A region apart from all regions of the image is put at its place in
    the order of the addresses, whatever the order of the calls was. *)
Theorem addRegion_inserts_apart (h : HexFile) (pre post : list HexFileRegion)
    (a : Z) (d : list byte) :
  regions h = pre ++ post -> gapped (pre ++ mkRegion a d :: post) ->
  addRegion h a d
  = Ok {| regions := pre ++ mkRegion a d :: post;
          startAddress := startAddress h |}.
Proof.
  intros Hh Hg. unfold addRegion. rewrite Hh.
  assert (Hs : sort_by_address ((pre ++ post) ++ [mkRegion a d])
               = pre ++ mkRegion a d :: post).
  { apply sorted_with_new.
    - eapply gapped_remove_middle, Hg.
    - replace (pre ++ mkRegion a d :: post)
        with ((pre ++ [mkRegion a d]) ++ post) in Hg
        by (rewrite <- app_assoc; reflexivity).
      apply gapped_app_l, gapped_snoc_before in Hg.
      eapply List.Forall_impl; [|exact Hg]. cbn. intros z Hz. lia.
    - apply gapped_app_r in Hg. destruct post as [|b post]; [exact I|].
      destruct (proj1 (gapped_cons2 _ _ _) Hg) as [[Hab _] _]. exact Hab. }
  rewrite check_sorted_gapped; rewrite Hs; [reflexivity|exact Hg].
Qed.

Lemma addRegion_inserts_apart_witness :
  addRegion {| regions := [mkRegion 0 [x01]; mkRegion 32 [x0c]];
               startAddress := 0 |} 16 [x0a; x0b]
  = Ok three_regions.
Proof.
  apply (addRegion_inserts_apart
           {| regions := [mkRegion 0 [x01]; mkRegion 32 [x0c]];
              startAddress := 0 |}
           [mkRegion 0 [x01]] [mkRegion 32 [x0c]] 16 [x0a; x0b]).
  - reflexivity.
  - simpl. unfold EndAddress. simpl. lia.
Defined.

(** X13: A region that ends where a region of the image starts, and is apart
    from the region before, is joined with it: the new data comes first. *)
Theorem addRegion_joins_next (h : HexFile) (pre post : list HexFileRegion)
    (b : HexFileRegion) (a : Z) (d : list byte) :
  regions h = pre ++ b :: post -> gapped (regions h) ->
  gapped (pre ++ [mkRegion a d]) ->
  a + Z.of_nat (List.length d) = address b -> a < address b ->
  addRegion h a d
  = Ok {| regions := pre ++ mkRegion a (d ++ data b) :: post;
          startAddress := startAddress h |}.
Proof.
  intros Hh Hg Hgr Hend Hlt. unfold addRegion. rewrite Hh in *.
  rewrite (check_sorted_merge_next _ pre (mkRegion a d) b post);
    [reflexivity| | | | |].
  - apply sorted_with_new; [exact Hg| |cbn; lia].
    apply gapped_snoc_before in Hgr.
    eapply List.Forall_impl; [|exact Hgr]. cbn. intros z Hz. lia.
  - exact Hgr.
  - eapply gapped_app_r, Hg.
  - exact Hend.
  - exact Hlt.
Qed.

Lemma addRegion_joins_next_witness :
  addRegion three_regions 14 [x08; x09]
  = Ok {| regions := [mkRegion 0 [x01]; mkRegion 14 [x08; x09; x0a; x0b];
                      mkRegion 32 [x0c]];
          startAddress := 0 |}.
Proof.
  apply (addRegion_joins_next three_regions [mkRegion 0 [x01]]
           [mkRegion 32 [x0c]] (mkRegion 16 [x0a; x0b]) 14 [x08; x09]).
  - reflexivity.
  - simpl. unfold EndAddress. simpl. lia.
  - simpl. unfold EndAddress. simpl. lia.
  - reflexivity.
  - simpl. lia.
Defined.

(** X14: A region that starts where a region of the image ends, and is apart
    from the region behind, is joined with it: the new data comes last. *)
Theorem addRegion_joins_previous (h : HexFile)
    (pre post : list HexFileRegion) (p : HexFileRegion) (d : list byte) :
  regions h = pre ++ p :: post -> gapped (regions h) ->
  gapped (mkRegion (EndAddress p) d :: post) ->
  addRegion h (EndAddress p) d
  = Ok {| regions := pre ++ addData p d :: post;
          startAddress := startAddress h |}.
Proof.
  intros Hh Hg Hgr. unfold addRegion. rewrite Hh in *.
  set (r := mkRegion (EndAddress p) d) in *.
  assert (Hgp : gapped (pre ++ [p])).
  { replace (pre ++ p :: post) with ((pre ++ [p]) ++ post) in Hg
      by (rewrite <- app_assoc; reflexivity).
    eapply gapped_app_l, Hg. }
  pose proof (EndAddress_ge p) as Hge.
  assert (Hs : sort_by_address ((pre ++ p :: post) ++ [r])
               = pre ++ p :: r :: post).
  { replace (pre ++ p :: post) with ((pre ++ [p]) ++ post) in Hg |- *
      by (rewrite <- app_assoc; reflexivity).
    rewrite sorted_with_new; [rewrite <- app_assoc; reflexivity|exact Hg| |].
    - apply snoc_le; [exact Hgp|exact Hge].
    - destruct post as [|b post]; [exact I|].
      apply gapped_cons2 in Hgr. apply Hgr. }
  destruct (Z.eq_dec (address p) (EndAddress p)) as [Heq|Hne].
  - rewrite (check_sorted_merge_same_address _ pre p r post Hs Hgp Hgr);
      [|reflexivity|exact Heq].
    rewrite <- (addData_empty p r); [reflexivity|reflexivity|exact Heq].
  - rewrite (check_sorted_merge_next _ pre p r post Hs Hgp Hgr);
      [reflexivity|reflexivity|cbn; lia].
Qed.

Lemma addRegion_joins_previous_witness :
  addRegion three_regions 18 [x0d]
  = Ok {| regions := [mkRegion 0 [x01]; mkRegion 16 [x0a; x0b; x0d];
                      mkRegion 32 [x0c]];
          startAddress := 0 |}.
Proof.
  apply (addRegion_joins_previous three_regions [mkRegion 0 [x01]]
           [mkRegion 32 [x0c]] (mkRegion 16 [x0a; x0b]) [x0d]).
  - reflexivity.
  - simpl. unfold EndAddress. simpl. lia.
  - simpl. unfold EndAddress. simpl. lia.
Defined.

(** X15: A region that fills the room between two regions of the image: when the
    region before it has data, the new data is joined to that region and
    the region behind is dropped from the image with its data; when the
    region before it has no data, the new region is joined with the region
    behind.  No error is raised. *)
Theorem addRegion_fills_room (h : HexFile) (pre post : list HexFileRegion)
    (p b : HexFileRegion) (d : list byte) :
  regions h = pre ++ p :: b :: post -> gapped (regions h) ->
  EndAddress p + Z.of_nat (List.length d) = address b ->
  addRegion h (EndAddress p) d
  = Ok {| regions :=
            pre ++ match data p with
                   | [] => mkRegion (EndAddress p) (d ++ data b)
                   | _ :: _ => addData p d
                   end :: post;
          startAddress := startAddress h |}.
Proof.
  intros Hh Hg Hend. unfold addRegion. rewrite Hh in *.
  set (r := mkRegion (EndAddress p) d) in *.
  assert (Hgp : gapped (pre ++ [p])).
  { replace (pre ++ p :: b :: post) with ((pre ++ [p]) ++ b :: post) in Hg
      by (rewrite <- app_assoc; reflexivity).
    eapply gapped_app_l, Hg. }
  assert (Hgb : gapped (p :: b :: post)) by (eapply gapped_app_r, Hg).
  pose proof (EndAddress_ge p) as Hge.
  apply gapped_cons2 in Hgb. destruct Hgb as [[Hpb Hpb'] Hgb].
  assert (Hs : sort_by_address ((pre ++ p :: b :: post) ++ [r])
               = pre ++ p :: r :: b :: post).
  { replace (pre ++ p :: b :: post) with ((pre ++ [p]) ++ b :: post)
      in Hg |- * by (rewrite <- app_assoc; reflexivity).
    rewrite sorted_with_new; [rewrite <- app_assoc; reflexivity|exact Hg| |].
    - apply snoc_le; [exact Hgp|exact Hge].
    - cbn. lia. }
  destruct (data p) as [|c dp] eqn:Hdp.
  - assert (Heq : address p = EndAddress p)
      by (unfold EndAddress; rewrite Hdp; cbn; lia).
    rewrite (check_sorted_merge_both_same_address _ pre p r b post Hs Hgp Hgb);
      [reflexivity|reflexivity|exact Heq|exact Hend|cbn; lia].
  - assert (Hlt : address p < EndAddress p)
      by (unfold EndAddress; rewrite Hdp; cbn [List.length]; lia).
    rewrite (check_sorted_merge_both _ pre p r b post Hs Hgp Hgb);
      [reflexivity|reflexivity|exact Hend|exact Hlt|cbn; lia].
Qed.

Lemma addRegion_fills_room_witness :
  addRegion room_for_one 1 [x02]
  = Ok {| regions := [mkRegion 0 [x01; x02]; mkRegion 9 [x09]];
          startAddress := 0 |}.
Proof.
  apply (addRegion_fills_room room_for_one [] [mkRegion 9 [x09]]
           (mkRegion 0 [x01]) (mkRegion 2 [x03]) [x02]).
  - reflexivity.
  - simpl. unfold EndAddress. simpl. lia.
  - reflexivity.
Defined.

Lemma in_the_way_before (a : Z) (d : list byte) (pre : list HexFileRegion)
    (p : HexFileRegion) :
  gapped (pre ++ [p]) -> address p <= a ->
  existsb (in_the_way a d) (pre ++ [p]) = (a <? EndAddress p).
Proof.
  intros Hg Hp. rewrite existsb_app. cbn [existsb].
  pose proof (gapped_snoc_before _ _ Hg) as H1.
  pose proof (gapped_snoc_ends_before _ _ Hg) as H2.
  assert (E : existsb (in_the_way a d) pre = false).
  { clear Hg. induction pre as [|q pre IH]; [reflexivity|].
    apply List.Forall_cons_iff in H1, H2.
    destruct H1 as [Hq1 H1], H2 as [Hq2 H2].
    cbn [existsb]. rewrite IH by assumption. unfold in_the_way.
    destruct (Z.ltb_spec a (EndAddress q)); [lia|].
    destruct (Z.ltb_spec a (address q)); [lia|].
    rewrite !andb_false_r. reflexivity. }
  rewrite E. unfold in_the_way.
  destruct (Z.leb_spec (address p) a); [|lia].
  destruct (Z.ltb_spec a (address p)); [lia|].
  cbn. rewrite !orb_false_r. reflexivity.
Qed.

Lemma in_the_way_behind (a : Z) (d : list byte) (b : HexFileRegion)
    (post : list HexFileRegion) :
  gapped (b :: post) -> a < address b ->
  existsb (in_the_way a d) (b :: post)
  = (address b <? a + Z.of_nat (List.length d)).
Proof.
  intros Hg Hb. cbn [existsb]. unfold in_the_way at 1.
  destruct (Z.leb_spec (address b) a); [lia|].
  destruct (Z.ltb_spec a (address b)); [|lia]. cbn [andb orb].
  destruct (Z.ltb_spec (address b) (a + Z.of_nat (List.length d)));
    [reflexivity|].
  cbn [orb]. apply gapped_head_before in Hg.
  induction post as [|q post IH]; [reflexivity|].
  apply List.Forall_cons_iff in Hg. destruct Hg as [Hq Hg].
  cbn [existsb]. rewrite IH by assumption. unfold in_the_way.
  destruct (Z.leb_spec (address q) a); [lia|].
  destruct (Z.ltb_spec (address q) (a + Z.of_nat (List.length d))); [lia|].
  rewrite andb_false_r. reflexivity.
Qed.

(** The outcome of [check] on an image in order and a new region, from the
    two regions that come next to the new one in the sorted list. *)
Lemma check_with_new_outcome (l : list HexFileRegion) (a : Z)
    (d : list byte) :
  gapped l ->
  if existsb (in_the_way a d) l then
    check (l ++ [mkRegion a d])
    = Raise (HexFileException "Overlapping regions")
  else exists v, check (l ++ [mkRegion a d]) = Ok v.
Proof.
  intros Hg. set (r := mkRegion a d).
  pose proof (sort_appended l r (gapped_ascending _ Hg)) as Hs.
  destruct (insert_last_split r l) as (pre & post & Hl & Hins & Hpre & Hpost).
  rewrite Hins in Hs. clear Hins. subst l.
  change (address r) with a in Hpre, Hpost.
  pose proof (gapped_app_l _ _ Hg) as Hgpre.
  pose proof (gapped_app_r _ _ Hg) as Hgpost.
  assert (Hre : EndAddress r = a + Z.of_nat (List.length d)) by reflexivity.
  rewrite existsb_app.
  (* the region before the new one *)
  assert (Hleft :
    (existsb (in_the_way a d) pre = false /\ gapped (pre ++ [r])) \/
    (exists pre' p, pre = pre' ++ [p] /\ gapped (pre' ++ [p]) /\
       existsb (in_the_way a d) pre = (a <? EndAddress p) /\
       a <= EndAddress p)).
  { destruct pre as [|p pre' _] using rev_ind.
    - left. cbn. auto.
    - pose proof (in_the_way_before a d pre' p Hgpre) as E.
      rewrite Forall_app in Hpre. destruct Hpre as [_ Hp].
      apply List.Forall_inv in Hp. specialize (E Hp).
      destruct (Z.lt_ge_cases (EndAddress p) a) as [Hlt|Hge].
      + left. split; [|apply gapped_snoc_add; [exact Hgpre|exact Hlt]].
        rewrite E. apply Z.ltb_ge. lia.
      + right. exists pre', p. auto. }
  (* the region behind the new one *)
  assert (Hright :
    (existsb (in_the_way a d) post = false /\ gapped (r :: post)) \/
    (exists b post', post = b :: post' /\ a < address b /\
       existsb (in_the_way a d) post
       = (address b <? a + Z.of_nat (List.length d)) /\
       address b <= EndAddress r)).
  { destruct post as [|b post']; [left; cbn; auto|].
    pose proof (in_the_way_behind a d b post' Hgpost Hpost) as E.
    destruct (Z.lt_ge_cases (EndAddress r) (address b)) as [Hlt|Hge].
    - left. split; [rewrite E; apply Z.ltb_ge; lia|].
      apply gapped_cons2. split; [split; [exact Hpost|exact Hlt]|].
      exact Hgpost.
    - right. exists b, post'. auto. }
  destruct Hleft as [[E1 Hg1]|(pre' & p & -> & Hgp & E1 & Hp)];
    rewrite E1; clear E1.
  - (* apart from the region before *)
    destruct Hright as [[E2 Hg2]|(b & post' & -> & Hb & E2 & Hbr)];
      rewrite E2; clear E2; cbn [orb].
    + eexists. apply check_sorted_gapped. rewrite Hs.
      apply gapped_join_one; [exact Hg1| |eapply gapped_cons_tail, Hg2].
      destruct post as [|b post]; [exact I|].
      destruct (proj1 (gapped_cons2 _ _ _) Hg2) as [Hrb _]. exact Hrb.
    + destruct (Z.ltb_spec (address b) (a + Z.of_nat (List.length d)))
        as [Hov|Hnov].
      * apply (check_sorted_overlap _ pre r b post' Hs Hg1). lia.
      * eexists.
        apply (check_sorted_merge_next _ pre r b post' Hs Hg1 Hgpost);
          [lia|exact Hb].
  - (* the region before ends at or after the start of the new one *)
    replace ((pre' ++ [p]) ++ r :: post) with (pre' ++ p :: r :: post) in Hs
      by (rewrite <- app_assoc; reflexivity).
    destruct (Z.ltb_spec a (EndAddress p)) as [Hov|Hnov]; cbn [orb].
    { apply (check_sorted_overlap _ pre' p r post Hs Hgp). exact Hov. }
    assert (Hpe : EndAddress p = address r) by (cbn; lia).
    pose proof (EndAddress_ge p) as Hge.
    destruct Hright as [[E2 Hg2]|(b & post' & -> & Hb & E2 & Hbr)];
      rewrite E2; clear E2.
    + destruct (Z.eq_dec (address p) (address r)) as [Heq|Hne]; eexists.
      * apply (check_sorted_merge_same_address _ pre' p r post Hs Hgp Hg2 Hpe
                 Heq).
      * apply (check_sorted_merge_next _ pre' p r post Hs Hgp Hg2 Hpe).
        cbn in *. lia.
    + destruct (Z.ltb_spec (address b) (a + Z.of_nat (List.length d)))
        as [Hov|Hnov2].
      * apply (check_sorted_merge_overlap _ pre' p r b post' Hs Hgp Hpe).
        lia.
      * destruct (Z.eq_dec (address p) (address r)) as [Heq|Hne]; eexists.
        -- apply (check_sorted_merge_both_same_address _ pre' p r b post' Hs
                    Hgp Hgpost Hpe Heq); [lia|exact Hb].
        -- apply (check_sorted_merge_both _ pre' p r b post' Hs Hgp Hgpost
                    Hpe); [lia|cbn in *; lia|exact Hb].
Qed.

(** X16: On an image in order [addRegion] either returns or raises the error of
    overlapping regions, and it raises exactly when a region of the image
    is in the way: one that starts at or before the new address and ends
    after it, or one that starts after the new address and before the end
    of the new data.  (A new region without data is refused at every
    address that a region holds, also at the first; it is accepted at the
    end of a region.) *)
Theorem addRegion_raises_exactly (h : HexFile) (a : Z) (d : list byte) :
  gapped (regions h) ->
  if existsb (in_the_way a d) (regions h) then
    addRegion h a d = Raise (HexFileException "Overlapping regions")
  else exists h', addRegion h a d = Ok h'.
Proof.
  intros Hg. pose proof (check_with_new_outcome (regions h) a d Hg) as H.
  unfold addRegion. destruct (existsb (in_the_way a d) (regions h)).
  - rewrite H. reflexivity.
  - destruct H as [v ->]. eexists. reflexivity.
Qed.

Lemma addRegion_raises_exactly_witness :
  addRegion three_regions 17 []
  = Raise (HexFileException "Overlapping regions") /\
  exists h', addRegion three_regions 18 [] = Ok h'.
Proof.
  assert (Hg : gapped (regions three_regions))
    by (simpl; unfold EndAddress; simpl; lia).
  split.
  - apply (addRegion_raises_exactly three_regions 17 [] Hg).
  - apply (addRegion_raises_exactly three_regions 18 [] Hg).
Defined.

(** * The runtime routine [__sdiv] on every input *)

Lemma asm_run_S (fuel : nat) (prog : list asm_line) (pc : nat) (m : machine) :
  asm_run (S fuel) prog pc m
  = match asm_step prog pc m with
    | Next pc' m' => asm_run fuel prog pc' m'
    | Returned m' => Some m'
    | Fault => None
    end.
Proof. reflexivity. Qed.

(** The blocks of the routine. *)

Lemma sdiv_prologue (f : nat) (m : machine) :
  asm_run (3 + f) asm_src 0 m
  = asm_run f asm_src 3
      (set_reg (set_reg m R14 0) R28 (get_reg (set_reg m R14 0) R12)).
Proof. reflexivity. Qed.

Lemma sdiv_inc_again (f : nat) (m : machine) :
  signed32 (get_reg m R28) < signed32 (get_reg m R11) ->
  asm_run (5 + f) asm_src 3 m
  = asm_run f asm_src 3 (set_reg m R28 (Z.shiftl (get_reg m R28) 1)).
Proof.
  intros H. apply Z.ltb_lt in H.
  change (5 + f)%nat with (S (S (3 + f))).
  rewrite asm_run_S. change (asm_step asm_src 3 m) with (Next 4 m).
  cbv iota. rewrite asm_run_S.
  change (asm_step asm_src 4 m)
    with (if signed32 (get_reg m R28) <? signed32 (get_reg m R11)
          then Next 6 m else Next 5 m).
  rewrite H. reflexivity.
Qed.

Lemma sdiv_inc_done (f : nat) (m : machine) :
  signed32 (get_reg m R11) <= signed32 (get_reg m R28) ->
  asm_run (3 + f) asm_src 3 m = asm_run f asm_src 9 m.
Proof.
  intros H. apply Z.ltb_ge in H.
  change (3 + f)%nat with (S (S (1 + f))).
  rewrite asm_run_S. change (asm_step asm_src 3 m) with (Next 4 m).
  cbv iota. rewrite asm_run_S.
  change (asm_step asm_src 4 m)
    with (if signed32 (get_reg m R28) <? signed32 (get_reg m R11)
          then Next 6 m else Next 5 m).
  rewrite H. reflexivity.
Qed.

(** The subtraction of one round. *)
Lemma sdiv_dec_skip (f : nat) (m : machine) :
  signed32 (get_reg m R11) < signed32 (get_reg m R28) ->
  asm_run (2 + f) asm_src 9 m = asm_run f asm_src 13 m.
Proof.
  intros H. apply Z.ltb_lt in H.
  change (2 + f)%nat with (S (S f)).
  rewrite asm_run_S. change (asm_step asm_src 9 m) with (Next 10 m).
  cbv iota. rewrite asm_run_S.
  change (asm_step asm_src 10 m)
    with (if signed32 (get_reg m R11) <? signed32 (get_reg m R28)
          then Next 13 m else Next 11 m).
  rewrite H. reflexivity.
Qed.

Lemma sdiv_dec_sub (f : nat) (m : machine) :
  signed32 (get_reg m R28) <= signed32 (get_reg m R11) ->
  asm_run (4 + f) asm_src 9 m
  = asm_run f asm_src 13
      (set_reg (set_reg m R11 (get_reg m R11 - get_reg m R28)) R14
         (get_reg (set_reg m R11 (get_reg m R11 - get_reg m R28)) R14 + 1)).
Proof.
  intros H. apply Z.ltb_ge in H.
  change (4 + f)%nat with (S (S (2 + f))).
  rewrite asm_run_S. change (asm_step asm_src 9 m) with (Next 10 m).
  cbv iota. rewrite asm_run_S.
  change (asm_step asm_src 10 m)
    with (if signed32 (get_reg m R11) <? signed32 (get_reg m R28)
          then Next 13 m else Next 11 m).
  rewrite H. reflexivity.
Qed.

(** The shifts of one round and the test of the loop. *)
Lemma sdiv_shift (m : machine) :
  exists m' : machine,
    m' = set_reg (set_reg m R28 (Z.shiftr (signed32 (get_reg m R28)) 1)) R14
           (Z.shiftl
              (get_reg
                 (set_reg m R28 (Z.shiftr (signed32 (get_reg m R28)) 1)) R14)
              1) /\
    (signed32 (get_reg m' R12) < signed32 (get_reg m' R28) ->
     forall f : nat, asm_run (5 + f) asm_src 13 m = asm_run f asm_src 9 m') /\
    (signed32 (get_reg m' R28) <= signed32 (get_reg m' R12) ->
     forall f : nat,
       asm_run (7 + f) asm_src 13 m = Some (set_reg m' R10 (get_reg m' R14))).
Proof.
  eexists. split; [reflexivity|].
  set (m' := set_reg _ R14 _).
  assert (E : forall f : nat,
             asm_run (5 + f) asm_src 13 m
             = if signed32 (get_reg m' R28) >? signed32 (get_reg m' R12)
               then asm_run f asm_src 9 m' else asm_run f asm_src 18 m').
  { intros f. change (5 + f)%nat with (S (S (S (S (S f))))).
    rewrite asm_run_S.
    change (asm_step asm_src 13 m) with (Next 14 m). cbv iota.
    rewrite asm_run_S.
    change (asm_step asm_src 14 m)
      with (Next 15 (set_reg m R28 (Z.shiftr (signed32 (get_reg m R28)) 1))).
    cbv iota. rewrite asm_run_S.
    change (asm_step asm_src 15
              (set_reg m R28 (Z.shiftr (signed32 (get_reg m R28)) 1)))
      with (Next 16 m').
    cbv iota. rewrite asm_run_S.
    change (asm_step asm_src 16 m') with (Next 17 m'). cbv iota.
    rewrite asm_run_S.
    change (asm_step asm_src 17 m')
      with (if signed32 (get_reg m' R28) >? signed32 (get_reg m' R12)
            then Next 9 m' else Next 18 m').
    destruct (signed32 (get_reg m' R28) >? signed32 (get_reg m' R12));
      reflexivity. }
  split.
  - intros H f. rewrite E. apply Z.gt_lt_iff, Z.gtb_gt in H. rewrite H.
    reflexivity.
  - intros H f. change (7 + f)%nat with (5 + (2 + f))%nat. rewrite E.
    destruct (signed32 (get_reg m' R28) >? signed32 (get_reg m' R12)) eqn:G.
    + apply Z.gtb_gt in G. lia.
    + reflexivity.
Qed.

Lemma signed32_small (v : Z) : 0 <= v < 2 ^ 31 -> signed32 v = v.
Proof.
  intros H. unfold signed32. destruct (Z.ltb_spec v (2 ^ 31)); [reflexivity|].
  lia.
Qed.

Lemma sdiv_regs_R28 (m : machine) (n d t q v : Z) :
  sdiv_regs m n d t q -> sdiv_regs (set_reg m R28 v) n d (wrap32 v) q.
Proof.
  intros (H1 & H2 & H3 & H4). unfold sdiv_regs.
  rewrite get_set_same by discriminate.
  rewrite !get_set_other by discriminate. auto.
Qed.

Lemma sdiv_regs_R14 (m : machine) (n d t q v : Z) :
  sdiv_regs m n d t q -> sdiv_regs (set_reg m R14 v) n d t (wrap32 v).
Proof.
  intros (H1 & H2 & H3 & H4). unfold sdiv_regs.
  rewrite get_set_same by discriminate.
  rewrite !get_set_other by discriminate. auto.
Qed.

Lemma sdiv_regs_R11 (m : machine) (n d t q v : Z) :
  sdiv_regs m n d t q -> sdiv_regs (set_reg m R11 v) (wrap32 v) d t q.
Proof.
  intros (H1 & H2 & H3 & H4). unfold sdiv_regs.
  rewrite get_set_same by discriminate.
  rewrite !get_set_other by discriminate. auto.
Qed.

Ltac read_regs :=
  unfold sdiv_regs;
  repeat first [rewrite get_set_same by discriminate
               |rewrite get_set_other by discriminate].

(** One round of the second loop: the subtraction when the shifted divisor
    fits, the two shifts and the test. *)
Lemma sdiv_round (m : machine) (n d t q : Z) :
  sdiv_regs m n d t q ->
  0 <= n < 2 ^ 31 -> 0 <= d < 2 ^ 31 -> 0 <= t < 2 ^ 31 ->
  0 <= q < 2 ^ 31 - 1 ->
  exists (m' : machine) (k : nat),
    sdiv_regs m' (n - (if n <? t then 0 else 1) * t) d (t / 2)
      (2 * (q + (if n <? t then 0 else 1))) /\
    (d < t / 2 ->
     forall f : nat, asm_run (k + f) asm_src 9 m = asm_run f asm_src 9 m') /\
    (t / 2 <= d ->
     forall f : nat,
       asm_run (k + 2 + f) asm_src 9 m
       = Some (set_reg m' R10 (2 * (q + (if n <? t then 0 else 1))))).
Proof.
  intros Hm Hn Hd Ht Hq.
  set (b := if n <? t then 0 else 1).
  assert (Hb : (b = 0 /\ n < t) \/ (b = 1 /\ t <= n)).
  { unfold b. destruct (Z.ltb_spec n t); [left|right]; split; lia. }
  (* the state at [__sdiv_skip] *)
  assert (H13 : exists (m1 : machine) (k1 : nat),
             sdiv_regs m1 (n - b * t) d t (q + b) /\
             forall f : nat,
               asm_run (k1 + f) asm_src 9 m = asm_run f asm_src 13 m1).
  { pose proof Hm as (H1 & H2 & H3 & H4).
    destruct Hb as [[-> Hlt]|[-> Hge]].
    - exists m, 2%nat. split.
      + replace (n - 0 * t) with n by lia. replace (q + 0) with q by lia.
        exact Hm.
      + intros f. apply sdiv_dec_skip.
        rewrite H1, H3, !signed32_small by lia. exact Hlt.
    - exists (set_reg (set_reg m R11 (get_reg m R11 - get_reg m R28)) R14
                (get_reg (set_reg m R11 (get_reg m R11 - get_reg m R28)) R14
                 + 1)), 4%nat.
      split.
      + read_regs. rewrite H1, H2, H3, H4.
        rewrite !wrap32_small by lia. repeat split; lia.
      + intros f. apply sdiv_dec_sub.
        rewrite H1, H3, !signed32_small by lia. exact Hge. }
  destruct H13 as (m1 & k1 & Hm1 & Hrun1).
  destruct (sdiv_shift m1) as (m' & Em' & Hloop & Hret).
  assert (Hm' : sdiv_regs m' (n - b * t) d (t / 2) (2 * (q + b))).
  { pose proof Hm1 as (H1 & H2 & H3 & H4). rewrite Em'.
    read_regs. rewrite H1, H2, H3, H4.
    rewrite signed32_small by lia.
    rewrite Z.shiftr_div_pow2, Z.shiftl_mul_pow2 by lia.
    change (2 ^ 1) with 2.
    pose proof (Z.div_pos t 2 ltac:(lia) ltac:(lia)).
    pose proof (Z.div_lt_upper_bound t 2 (2 ^ 31) ltac:(lia) ltac:(lia)).
    rewrite !wrap32_small by lia. repeat split; lia. }
  assert (Ht2 : 0 <= t / 2 < 2 ^ 31).
  { pose proof (Z.div_pos t 2 ltac:(lia) ltac:(lia)).
    pose proof (Z.div_lt_upper_bound t 2 (2 ^ 31) ltac:(lia) ltac:(lia)).
    lia. }
  pose proof Hm' as (H1' & H2' & H3' & H4').
  exists m', (k1 + 5)%nat. split; [exact Hm'|]. split.
  - intros Hgt f. rewrite <- Nat.add_assoc, Hrun1. apply Hloop.
    rewrite H2', H3', !signed32_small by lia. exact Hgt.
  - intros Hle f.
    replace (k1 + 5 + 2 + f)%nat with (k1 + (7 + f))%nat by lia.
    rewrite Hrun1, Hret, H4'; [reflexivity|].
    rewrite H2', H3', !signed32_small by lia. exact Hle.
Qed.

(** The second loop, entered with the divisor shifted up at least once:
    the result so far is shifted with the divisor, and the quotient bits
    above the last one are added. *)
Lemma sdiv_dec_loop (d : Z) (j : nat) :
  forall (m : machine) (n q : Z),
    sdiv_regs m n d (d * 2 ^ Z.of_nat (S j)) q ->
    0 < d -> d * 2 ^ Z.of_nat (S j) < 2 ^ 31 ->
    0 <= n < 2 * (d * 2 ^ Z.of_nat (S j)) -> 0 <= q ->
    q * (d * 2 ^ Z.of_nat (S j)) + 2 * n < 2 ^ 31 ->
    exists (k : nat) (m' : machine),
      (forall f : nat, asm_run (k + f) asm_src 9 m = Some m') /\
      get_reg m' R10 = 2 ^ Z.of_nat (S j) * q + 2 * (n / (2 * d)).
Proof.
  induction j as [|j IH]; intros m n q Hm Hd Ht31 Hn Hq Hinv.
  - change (2 ^ Z.of_nat 1) with 2 in *.
    assert (Hqt : 0 <= q * (d * 2)) by (apply Z.mul_nonneg_nonneg; lia).
    assert (Hq' : 0 <= q < 2 ^ 31 - 1) by nia.
    destruct (sdiv_round m n d (d * 2) q Hm ltac:(lia) ltac:(lia) ltac:(lia)
                Hq') as (m' & k & Hm' & _ & Hret).
    rewrite Z.div_mul in Hret, Hm' by lia.
    exists (k + 2)%nat,
      (set_reg m' R10 (2 * (q + (if n <? d * 2 then 0 else 1)))).
    split; [apply Hret; lia|].
    rewrite get_set_same by discriminate.
    destruct (Z.ltb_spec n (d * 2)) as [Hlt|Hge].
    + rewrite Z.div_small by lia. rewrite wrap32_small by lia. lia.
    + replace (n / (2 * d)) with 1
        by (apply (Z.div_unique n (2 * d) 1 (n - 2 * d)); lia).
      rewrite wrap32_small by lia. lia.
  - set (t := d * 2 ^ Z.of_nat (S (S j))) in *.
    assert (Et : t = (d * 2 ^ Z.of_nat (S j)) * 2).
    { unfold t. rewrite (Nat2Z.inj_succ (S j)), Z.pow_succ_r by lia. lia. }
    assert (Hp : 2 <= 2 ^ Z.of_nat (S j)).
    { rewrite Nat2Z.inj_succ, Z.pow_succ_r by lia.
      pose proof (Z.pow_pos_nonneg 2 (Z.of_nat j) ltac:(lia) ltac:(lia)).
      lia. }
    set (h := d * 2 ^ Z.of_nat (S j)) in *.
    assert (Hh : 0 < h) by (unfold h; nia).
    assert (Hqt : 0 <= q * t) by (apply Z.mul_nonneg_nonneg; lia).
    assert (Hq' : 0 <= q < 2 ^ 31 - 1) by nia.
    destruct (sdiv_round m n d t q Hm ltac:(lia) ltac:(nia) ltac:(lia) Hq')
      as (m1 & k & Hm1 & Hloop & _).
    assert (Eh : t / 2 = h) by (rewrite Et; apply Z.div_mul; lia).
    rewrite Eh in Hm1, Hloop.
    set (b := if n <? t then 0 else 1) in *.
    assert (Hb : (b = 0 /\ n < t) \/ (b = 1 /\ t <= n)).
    { unfold b. destruct (Z.ltb_spec n t); [left|right]; split; lia. }
    assert (Hdh : d < h) by (unfold h; nia).
    assert (Hn' : 0 <= n - b * t < 2 * h) by (destruct Hb as [[-> ?]|[-> ?]]; lia).
    assert (Hinv' : 2 * (q + b) * h + 2 * (n - b * t) < 2 ^ 31).
    { rewrite Et in *. destruct Hb as [[-> ?]|[-> ?]]; nia. }
    destruct (IH m1 (n - b * t) (2 * (q + b)) Hm1 Hd ltac:(lia) Hn'
                ltac:(destruct Hb as [[-> ?]|[-> ?]]; lia) Hinv')
      as (k2 & m2 & Hrun2 & Hres).
    exists (k + k2)%nat, m2. split.
    + intros f. rewrite <- Nat.add_assoc, Hloop by exact Hdh. apply Hrun2.
    + rewrite Hres.
      assert (Ediv : n / (2 * d)
                     = (n - b * t) / (2 * d) + b * 2 ^ Z.of_nat (S j)).
      { rewrite <- Z.div_add by lia. f_equal. rewrite Et. unfold h. lia. }
      rewrite Ediv. rewrite (Nat2Z.inj_succ (S j)), Z.pow_succ_r by lia. lia.
Qed.

(** The first loop: the divisor is shifted up until it is not less than the
    dividend. *)
Lemma sdiv_inc_loop (n d : Z) (k : nat) :
  forall (m : machine) (i : nat),
    (Z.to_nat (n - d * 2 ^ Z.of_nat i) <= k)%nat ->
    sdiv_regs m n d (d * 2 ^ Z.of_nat i) 0 ->
    0 < d -> 0 < n < 2 ^ 30 -> d * 2 ^ Z.of_nat i < 2 ^ 31 ->
    exists (steps : nat) (m' : machine) (i' : nat),
      (forall f : nat,
         asm_run (steps + f) asm_src 3 m = asm_run f asm_src 9 m') /\
      sdiv_regs m' n d (d * 2 ^ Z.of_nat i') 0 /\
      n <= d * 2 ^ Z.of_nat i' < 2 ^ 31.
Proof.
  induction k as [|k IH]; intros m i Hk Hm Hd Hn Ht;
    pose proof Hm as (H1 & H2 & H3 & H4);
    assert (Hp : 0 < 2 ^ Z.of_nat i) by (apply Z.pow_pos_nonneg; lia);
    set (t := d * 2 ^ Z.of_nat i) in *;
    assert (Ht0 : 0 < t) by nia;
    destruct (Z.lt_ge_cases t n) as [Hlt|Hge].
  - lia.
  - exists 3%nat, m, i. split; [|split; [exact Hm|fold t; lia]].
    intros f. apply sdiv_inc_done. rewrite H1, H3, !signed32_small by lia.
    exact Hge.
  - assert (Et : d * 2 ^ Z.of_nat (S i) = t * 2).
    { unfold t. rewrite Nat2Z.inj_succ, Z.pow_succ_r by lia. lia. }
    destruct (IH (set_reg m R28 (Z.shiftl (get_reg m R28) 1)) (S i))
      as (steps & m' & i' & Hrun & Hm' & Hb).
    + rewrite Et. lia.
    + rewrite Et. read_regs. rewrite H1, H2, H3, H4.
      rewrite Z.shiftl_mul_pow2 by lia. change (2 ^ 1) with 2.
      rewrite wrap32_small by lia. auto.
    + exact Hd.
    + exact Hn.
    + rewrite Et. lia.
    + exists (5 + steps)%nat, m', i'. split; [|split; assumption].
      intros f. rewrite <- Nat.add_assoc, sdiv_inc_again; [apply Hrun|].
      rewrite H1, H3, !signed32_small by lia. exact Hlt.
  - exists 3%nat, m, i. split; [|split; [exact Hm|fold t; lia]].
    intros f. apply sdiv_inc_done. rewrite H1, H3, !signed32_small by lia.
    exact Hge.
Qed.

Lemma sdiv_entry_regs (n d : Z) :
  0 <= n < 2 ^ 32 -> 0 <= d < 2 ^ 32 ->
  sdiv_regs
    (set_reg (set_reg (sdiv_entry n d) R14 0) R28
       (get_reg (set_reg (sdiv_entry n d) R14 0) R12)) n d d 0.
Proof.
  intros Hn Hd.
  assert (H0 : sdiv_regs (sdiv_entry n d) n d 0 0).
  { unfold sdiv_regs, get_reg, sdiv_entry. cbn.
    rewrite !wrap32_small by lia. auto. }
  destruct H0 as (H1 & H2 & H3 & H4). read_regs.
  rewrite H1, H2, wrap32_small by lia. auto.
Qed.

(** X17: What [__sdiv] returns for a dividend larger than the divisor, both
    positive and below 2^30: the routine returns, and x10 holds twice the
    quotient of the dividend by twice the divisor, which is the quotient
    with its last bit cleared.  (The round for the divisor itself is never
    run, and the result is shifted once more after the last round.) *)
Theorem sdiv_clears_last_bit (n d : Z) :
  0 < d -> d < n -> n < 2 ^ 30 ->
  exists fuel : nat, run_sdiv fuel n d = Some (2 * (n / (2 * d))).
Proof.
  intros Hd Hdn Hn.
  pose proof (sdiv_entry_regs n d ltac:(lia) ltac:(lia)) as H0.
  set (m0 := set_reg _ R28 _) in H0.
  destruct (sdiv_inc_loop n d (Z.to_nat (n - d)) m0 0%nat)
    as (s1 & m1 & i & Hrun1 & Hm1 & Hi).
  - change (2 ^ Z.of_nat 0) with 1. rewrite Z.mul_1_r. lia.
  - change (2 ^ Z.of_nat 0) with 1. rewrite Z.mul_1_r. exact H0.
  - exact Hd.
  - lia.
  - change (2 ^ Z.of_nat 0) with 1. lia.
  - destruct i as [|j]; [change (2 ^ Z.of_nat 0) with 1 in Hi; lia|].
    destruct (sdiv_dec_loop d j m1 n 0 Hm1 Hd ltac:(lia) ltac:(lia)
                ltac:(lia) ltac:(lia)) as (k & m2 & Hrun2 & Hres).
    exists (3 + (s1 + (k + 0)))%nat. unfold run_sdiv.
    change (find_label "__sdiv" asm_src) with (Some 0%nat). cbv iota.
    rewrite sdiv_prologue. fold m0. rewrite Hrun1, Hrun2, Hres.
    f_equal. lia.
Qed.

Lemma sdiv_clears_last_bit_witness :
  exists fuel : nat, run_sdiv fuel 21 4 = Some (2 * (21 / (2 * 4))).
Proof. apply (sdiv_clears_last_bit 21 4); lia. Defined.




Lemma signed32_wrap32 (v : Z) :
  - 2 ^ 31 <= v < 2 ^ 31 -> signed32 (wrap32 v) = v.
Proof.
  intros H. unfold signed32, wrap32.
  destruct (Z.lt_ge_cases v 0) as [Hneg|Hpos].
  - replace (v mod 2 ^ 32) with (v + 2 ^ 32)
      by (apply (Z.mod_unique v (2 ^ 32) (-1)); lia).
    destruct (Z.ltb_spec (v + 2 ^ 32) (2 ^ 31)); lia.
  - rewrite Z.mod_small by lia.
    destruct (Z.ltb_spec v (2 ^ 31)); lia.
Qed.

(** X19: What [__sdiv] returns when the dividend is not larger than the divisor
    (as signed numbers, the divisor not negative): 2 when they are equal
    and 0 otherwise.  One round is run, for the divisor itself, and its
    bit is shifted once. *)
Theorem sdiv_small_dividend (n d : Z) :
  0 <= d < 2 ^ 31 -> - 2 ^ 31 <= n <= d ->
  run_sdiv 20 n d = Some (if n =? d then 2 else 0).
Proof.
  intros Hd Hn. unfold run_sdiv.
  change (find_label "__sdiv" asm_src) with (Some 0%nat). cbv iota.
  set (m0 := set_reg (set_reg (sdiv_entry n d) R14 0) R28
               (get_reg (set_reg (sdiv_entry n d) R14 0) R12)).
  assert (H0 : sdiv_regs m0 (wrap32 n) d d 0).
  { unfold m0. read_regs. unfold get_reg, sdiv_entry. cbn.
    rewrite (wrap32_small d) by lia. rewrite (wrap32_small d) by lia.
    auto. }
  assert (Hsn : signed32 (wrap32 n) = n) by (apply signed32_wrap32; lia).
  pose proof (wrap32_range n) as Hwn.
  (* the state at [__sdiv_skip] *)
  set (b := if n =? d then 1 else 0).
  assert (Hb : b = 0 \/ b = 1) by (unfold b; destruct (n =? d); auto).
  assert (H13 : exists (m1 : machine) (f : nat),
             sdiv_regs m1 (wrap32 (n - b * d)) d d b /\
             asm_run 20 asm_src 0 (sdiv_entry n d)
             = asm_run (7 + f) asm_src 13 m1).
  { destruct H0 as (H1 & H2 & H3 & H4).
    assert (Hinc : signed32 (get_reg m0 R11) <= signed32 (get_reg m0 R28))
      by (rewrite H1, H3, Hsn, signed32_small by lia; lia).
    unfold b. destruct (Z.eqb_spec n d) as [->|Hne].
    - exists (set_reg (set_reg m0 R11 (get_reg m0 R11 - get_reg m0 R28)) R14
                (get_reg
                   (set_reg m0 R11 (get_reg m0 R11 - get_reg m0 R28)) R14
                 + 1)), 3%nat.
      split.
      + read_regs. rewrite H1, H2, H3, H4.
        rewrite (wrap32_small d) by lia.
        replace (d - 1 * d) with (d - d) by lia. auto.
      + change 20%nat with (3 + (3 + (4 + (7 + 3))))%nat.
        rewrite sdiv_prologue. fold m0. rewrite sdiv_inc_done by exact Hinc.
        rewrite sdiv_dec_sub; [reflexivity|].
        rewrite H1, H3, (wrap32_small d) by lia. lia.
    - exists m0, 5%nat. split.
      + replace (n - 0 * d) with n by lia.
        unfold sdiv_regs. auto.
      + change 20%nat with (3 + (3 + (2 + (7 + 5))))%nat.
        rewrite sdiv_prologue. fold m0. rewrite sdiv_inc_done by exact Hinc.
        rewrite sdiv_dec_skip; [reflexivity|].
        rewrite H1, H3, Hsn, signed32_small; lia. }
  destruct H13 as (m1 & f & (H1 & H2 & H3 & H4) & ->).
  destruct (sdiv_shift m1) as (m' & Em' & _ & Hret).
  assert (Hd2 : 0 <= d / 2 <= d).
  { pose proof (Z.div_pos d 2 ltac:(lia) ltac:(lia)).
    pose proof (Z.div_le_upper_bound d 2 d ltac:(lia) ltac:(lia)). lia. }
  assert (Hm' : sdiv_regs m' (wrap32 (n - b * d)) d (d / 2) (2 * b)).
  { rewrite Em'. read_regs. rewrite H1, H2, H3, H4.
    rewrite signed32_small by lia.
    rewrite Z.shiftr_div_pow2, Z.shiftl_mul_pow2 by lia.
    change (2 ^ 1) with 2.
    rewrite (wrap32_small (d / 2)), (wrap32_small (b * 2)) by lia.
    repeat split; lia. }
  destruct Hm' as (H1' & H2' & H3' & H4').
  rewrite Hret by (rewrite H2', H3', !signed32_small by lia; lia).
  rewrite get_set_same by discriminate. rewrite H4', wrap32_small by lia.
  f_equal. unfold b. destruct (n =? d); reflexivity.
Qed.

Lemma sdiv_small_dividend_witness :
  run_sdiv 20 7 7 = Some 2 /\ run_sdiv 20 (-21) 4 = Some 0.
Proof.
  split.
  - apply (sdiv_small_dividend 7 7); lia.
  - apply (sdiv_small_dividend (-21) 4); lia.
Defined.

(** * The stack after [make_call] *)

Lemma run_add_memory (callee : string -> machine -> machine)
    (return_address : Z) (rd rs1 : register) (imm : Z) (m : machine) :
  memory (run callee return_address [Add rd rs1 imm] m) = memory m.
Proof. apply memory_set_reg. Qed.

(** X20: What [make_call] leaves on the stack, for a called function that
    returns with its stack pointer and leaves the stack above it alone: the
    word at the stack pointer itself is overwritten, it holds the first
    register of [live_regs], the one stored at offset 0, or ra when no
    register is live; the words above it, as far as the called function is
    known to keep them, are those of before. *)
Theorem make_call_stack_effect (callee : string -> machine -> machine)
    (return_address : Z) (live_regs : list register) (name : string)
    (m : machine) :
  keeps_stack callee -> valid_machine m -> ~ In SP live_regs ->
  4 * (Z.of_nat (List.length live_regs) + 1) <= 2048 ->
  load32 (memory (run callee return_address (make_call live_regs name) m))
    (get_reg m SP)
  = get_reg m (hd LR live_regs) /\
  (forall t : Z, 0 <= t ->
     4 * (Z.of_nat (List.length live_regs) + 2 + t) + 3 < 4096 ->
     load32 (memory (run callee return_address (make_call live_regs name) m))
       (get_reg m SP + 4 + 4 * t)
     = load32 (memory m) (get_reg m SP + 4 + 4 * t)).
Proof.
  intros Hcallee Hv Hsp Hn.
  rewrite make_call_core, run_app, run_add_memory.
  set (S0 := get_reg m SP).
  split.
  - destruct live_regs as [|r live].
    + cbn [hd]. rewrite call_core_nil.
      set (m1 := exec callee return_address (Sw LR 0 SP) m).
      set (m2 := set_reg (exec callee return_address (Add SP SP (0 - 4)) m1)
                   LR return_address).
      assert (Hrun : run callee return_address
                       [Sw LR 0 SP; Add SP SP (0 - 4); Bl LR name; Lw LR 4 SP]
                       m
                     = set_reg (callee name m2) LR
                         (load32 (memory (callee name m2))
                            (get_reg (callee name m2) SP + 4)))
        by reflexivity.
      rewrite Hrun, memory_set_reg.
      assert (Hsp2 : get_reg m2 SP = wrap32 (S0 - 4)).
      { unfold m2. rewrite get_set_other by discriminate.
        cbn [exec]. rewrite get_set_same by discriminate.
        f_equal; unfold S0; cbn; lia. }
      rewrite (callee_keeps_word callee Hcallee name m2 S0 4); [| |lia|lia].
      * unfold m2. rewrite memory_set_reg. cbn [exec].
        rewrite memory_set_reg. unfold m1. cbn [exec memory].
        fold S0. rewrite Z.add_0_r. apply load_store_same, Hv.
      * rewrite Hsp2, wrap32_add_l. f_equal. lia.
    + cbn [hd]. rewrite call_core_cons, run_cons, run_app.
      set (m1 := exec callee return_address (Sw r 0 SP) m).
      assert (Hregs1 : forall x, get_reg m1 x = get_reg m x) by reflexivity.
      assert (Hv1 : valid_machine m1)
        by (intros x; rewrite Hregs1; apply Hv).
      assert (Hsp' : ~ In SP live) by (intros H; apply Hsp; right; exact H).
      cbn [List.length] in Hn.
      destruct (call_core_run callee return_address Hcallee name live (0 - 4)
                  m1 Hv1 Hsp' ltac:(lia)) as (_ & _ & H3).
      specialize (H3 0 ltac:(lia) ltac:(lia)).
      rewrite Hregs1 in H3. fold S0 in H3.
      replace (S0 + (0 - 4) + 4 + 4 * 0) with (S0 + 0) in H3 by lia.
      assert (Hrun : forall m2,
                 memory (run callee return_address
                           [Lw r (4 * (Z.of_nat (List.length live) + 2)) SP]
                           m2)
                 = memory m2)
        by (intros m2; apply memory_set_reg).
      rewrite Hrun. rewrite <- (Z.add_0_r S0) at 1. rewrite H3.
      unfold m1. cbn [exec memory]. fold S0. apply load_store_same, Hv.
  - intros t Ht Hreach.
    destruct (call_core_run callee return_address Hcallee name live_regs 0 m
                Hv Hsp ltac:(lia)) as (_ & _ & H3).
    specialize (H3 t Ht Hreach). fold S0 in H3.
    rewrite Z.add_0_r in H3. exact H3.
Qed.

Lemma make_call_stack_effect_witness :
  load32
    (memory (run clobbering_callee 64 (make_call [9%nat; 18%nat] "foo")
               demo_machine))
    (get_reg demo_machine SP)
  = get_reg demo_machine (hd LR [9%nat; 18%nat]) /\
  (forall t : Z, 0 <= t ->
     4 * (Z.of_nat (List.length [9%nat; 18%nat]) + 2 + t) + 3 < 4096 ->
     load32
       (memory (run clobbering_callee 64 (make_call [9%nat; 18%nat] "foo")
                  demo_machine))
       (get_reg demo_machine SP + 4 + 4 * t)
     = load32 (memory demo_machine) (get_reg demo_machine SP + 4 + 4 * t)).
Proof.
  apply (make_call_stack_effect clobbering_callee 64 [9%nat; 18%nat] "foo"
           demo_machine clobbering_callee_keeps_stack demo_machine_valid).
  - simpl. intros [H|[H|[]]]; discriminate H.
  - simpl. lia.
Defined.

(** * What the runtime leaves alone *)

Lemma asm_step_frame (prog : list asm_line) (W : list register) :
  List.Forall (fun line => match written line with
                           | Some rd => In rd W
                           | None => True
                           end) prog ->
  forall (pc : nat) (m : machine) (o : outcome),
    asm_step prog pc m = o ->
    match o with
    | Next _ m' | Returned m' =>
        memory m' = memory m /\
        forall r : register, ~ In r W -> get_reg m' r = get_reg m r
    | Fault => True
    end.
Proof.
  intros Hprog pc m o <-. unfold asm_step.
  destruct (nth_error prog pc) as [line|] eqn:E; [|exact I].
  apply nth_error_In in E.
  rewrite List.Forall_forall in Hprog. specialize (Hprog line E).
  assert (Hset : forall rd v, In rd W ->
            memory (set_reg m rd v) = memory m /\
            forall r : register, ~ In r W ->
              get_reg (set_reg m rd v) r = get_reg m r).
  { intros rd v Hrd. split; [apply memory_set_reg|].
    intros r Hr. apply get_set_other. intros ->. contradiction. }
  assert (Hjump : forall target,
            match jump prog target m with
            | Next _ m' | Returned m' =>
                memory m' = memory m /\
                forall r : register, ~ In r W -> get_reg m' r = get_reg m r
            | Fault => True
            end).
  { intros target. unfold jump. destruct (find_label target prog); auto. }
  destruct line; cbn [written] in Hprog; try (apply Hset; exact Hprog);
    try apply Hjump; auto.
  - destruct (_ <? _); [apply Hjump|auto].
  - destruct (_ >? _); [apply Hjump|auto].
Qed.

(** X21: A run of the runtime that returns, from whatever line it starts,
    leaves the memory as it was and changes no register but x10, x11, x14
    and x28: the stack pointer, ra, the divisor in x12 and the registers
    that the called function has to keep hold their values. *)
Theorem sdiv_keeps_other_registers (fuel : nat) :
  forall (pc : nat) (m m' : machine),
    asm_run fuel asm_src pc m = Some m' ->
    memory m' = memory m /\
    forall r : register,
      ~ In r [R10; R11; R14; R28] -> get_reg m' r = get_reg m r.
Proof.
  assert (Hprog : List.Forall
            (fun line => match written line with
                         | Some rd => In rd [R0; R10; R11; R14; R28]
                         | None => True
                         end) asm_src).
  { unfold asm_src.
    repeat (apply List.Forall_cons; [cbn; auto 10|]). apply List.Forall_nil. }
  assert (Hzero : forall (m1 m2 : machine),
            (forall r : register,
               ~ In r [R0; R10; R11; R14; R28] -> get_reg m1 r = get_reg m2 r) ->
            forall r : register,
              ~ In r [R10; R11; R14; R28] -> get_reg m1 r = get_reg m2 r).
  { intros m1 m2 H r Hr. destruct (Nat.eq_dec r R0) as [->|Hne].
    - reflexivity.
    - apply H. intros [E|E]; [congruence|contradiction]. }
  induction fuel as [|fuel IH]; intros pc m m' Hrun; [discriminate|].
  cbn [asm_run] in Hrun.
  pose proof (asm_step_frame asm_src _ Hprog pc m _ eq_refl) as Hstep.
  destruct (asm_step asm_src pc m) as [pc1 m1|m1|]; [| |discriminate].
  - destruct Hstep as [Hmem Hregs].
    destruct (IH pc1 m1 m' Hrun) as [Hmem' Hregs'].
    split; [congruence|].
    intros r Hr. rewrite Hregs' by exact Hr.
    apply (Hzero m1 m Hregs r Hr).
  - injection Hrun as <-. destruct Hstep as [Hmem Hregs].
    split; [exact Hmem|]. apply (Hzero m1 m Hregs).
Qed.

Lemma sdiv_keeps_other_registers_witness :
  exists m' : machine,
    asm_run 100 asm_src 0 (sdiv_entry 21 4) = Some m' /\
    memory m' = memory (sdiv_entry 21 4) /\
    forall r : register,
      ~ In r [R10; R11; R14; R28] ->
      get_reg m' r = get_reg (sdiv_entry 21 4) r.
Proof.
  destruct (asm_run 100 asm_src 0 (sdiv_entry 21 4)) as [m'|] eqn:E.
  - exists m'. split; [reflexivity|].
    apply (sdiv_keeps_other_registers 100 0 (sdiv_entry 21 4) m' E).
  - exfalso.
    assert (H : run_sdiv 100 21 4 = Some 4) by (vm_compute; reflexivity).
    unfold run_sdiv in H.
    change (find_label "__sdiv" asm_src) with (Some 0%nat) in H.
    cbv iota in H. rewrite E in H. discriminate H.
Defined.

(** * Moves of the arguments: [gen_fill_arguments] *)

Lemma valid_set_reg (m : machine) (r : register) (v : Z) :
  valid_machine m -> valid_machine (set_reg m r v).
Proof.
  intros Hv x. destruct (Nat.eq_dec x r) as [->|Hne].
  - destruct (Nat.eq_dec r 0%nat) as [->|Hnz].
    + rewrite get_reg_zero. lia.
    + rewrite get_set_same by exact Hnz. apply wrap32_range.
  - rewrite get_set_other by exact Hne. apply Hv.
Qed.

Lemma run_moves_cons (i : move_instruction) (ins : list move_instruction)
    (m : machine) :
  run_moves (i :: ins) m = run_moves ins (exec_move i m).
Proof. reflexivity. Qed.

(** Moves in a row to registers that differ, when no source is the
    destination of an earlier move. *)
Lemma run_moves_places (dsts : list register) :
  forall (srcs : list register) (m : machine),
    valid_machine m -> List.NoDup dsts -> ~ In 0%nat dsts ->
    (forall (j k : nat) (d s : register),
       (j < k)%nat -> dsts !! j = Some d -> srcs !! k = Some s -> s <> d) ->
    (forall (k : nat) (d s : register),
       dsts !! k = Some d -> srcs !! k = Some s ->
       get_reg (run_moves (zip_with move dsts srcs) m) d = get_reg m s) /\
    (forall r : register,
       ~ In r dsts ->
       get_reg (run_moves (zip_with move dsts srcs) m) r = get_reg m r).
Proof.
  induction dsts as [|d0 dsts IH]; intros srcs m Hv Hnd Hz Hsrc.
  - split; [intros k d s H; discriminate H|reflexivity].
  - destruct srcs as [|s0 srcs].
    + split; [intros k d s _ H; discriminate H|reflexivity].
    + cbn [zip_with]. rewrite run_moves_cons. cbn [move exec_move].
      apply List.NoDup_cons_iff in Hnd. destruct Hnd as [Hd0 Hnd].
      assert (Hz' : ~ In 0%nat dsts) by (intros H; apply Hz; right; exact H).
      assert (Hd0z : d0 <> 0%nat) by (intros ->; apply Hz; left; reflexivity).
      destruct (IH srcs (set_reg m d0 (get_reg m s0))
                  (valid_set_reg _ _ _ Hv) Hnd Hz') as [IH1 IH2].
      { intros j k d s Hjk Hd Hs.
        apply (Hsrc (S j) (S k) d s); [lia|exact Hd|exact Hs]. }
      split.
      * intros [|k] d s Hd Hs.
        -- cbn in Hd, Hs. injection Hd as <-. injection Hs as <-.
           rewrite IH2 by exact Hd0.
           rewrite get_set_same by exact Hd0z.
           apply wrap32_small, Hv.
        -- cbn in Hd, Hs. rewrite (IH1 k d s Hd Hs).
           apply get_set_other.
           apply (Hsrc 0%nat (S k) d0 s); [lia|reflexivity|exact Hs].
      * intros r Hr. rewrite IH2 by (intros H; apply Hr; right; exact H).
        apply get_set_other. intros ->. apply Hr. left. reflexivity.
Qed.

Lemma arg_regs_lookup (n k : nat) (d : register) :
  firstn n arg_regs !! k = Some d -> d = (R11 + k)%nat /\ (k < n)%nat.
Proof.
  intros H. assert (Hk : (k < n)%nat).
  { apply lookup_lt_Some in H. rewrite length_firstn in H. lia. }
  split; [|exact Hk].
  change (@firstn register) with (@take register) in H.
  rewrite lookup_take_lt in H by exact Hk.
  do 7 (destruct k as [|k]; [injection H as <-; reflexivity|]).
  discriminate H.
Qed.

(** X22: [gen_fill_arguments] for at most seven argument types: the generator
    yields one move per argument into x11, x12, ... in order, and adds the
    registers of all argument types to [live].  When no argument comes from
    the register of an earlier argument, the register of each argument
    holds, after the moves, the value that its source held before them. *)
Theorem gen_fill_arguments_places_arguments {T : Type} (arg_types : list T)
    (args : list register) (live : gset register) (m : machine) :
  (List.length arg_types <= 7)%nat -> valid_machine m ->
  (forall (j k : nat) (s : register),
     (j < k)%nat -> args !! k = Some s -> s <> (R11 + j)%nat) ->
  exists (moves : list move_instruction) (live' : gset register),
    gen_fill_arguments arg_types args live = Ok (moves, live') /\
    moves = zip_with Mov2 (firstn (List.length arg_types) arg_regs) args /\
    (forall r : register,
       r ∈ live' <->
       r ∈ live \/ In r (firstn (List.length arg_types) arg_regs)) /\
    (forall (k : nat) (s : register),
       (k < List.length arg_types)%nat -> args !! k = Some s ->
       get_reg (run_moves moves m) (R11 + k)%nat = get_reg m s).
Proof.
  intros Hlen Hv Hsrc. unfold gen_fill_arguments, determine_arg_locations.
  rewrite arg_locations_loop_ok by exact Hlen. cbn [bind app].
  fold arg_regs. set (dsts := firstn (List.length arg_types) arg_regs).
  eexists _, _. split; [reflexivity|]. split; [reflexivity|]. split.
  - intros r.
    rewrite elem_of_union, (left_id_L ∅ (∪)), elem_of_list_to_set,
      list_elem_of_In.
    reflexivity.
  - intros k s Hk Hs.
    assert (Hnd : List.NoDup dsts).
    { unfold dsts. change (@firstn register) with (@take register).
      apply NoDup_ListNoDup.
      apply (sublist_NoDup _ arg_regs); [|apply sublist_take].
      apply NoDup_ListNoDup. unfold arg_regs.
      repeat (apply List.NoDup_cons; [cbn; intuition discriminate|]).
      apply List.NoDup_nil. }
    assert (Hz : ~ In 0%nat dsts).
    { intros H. apply list_elem_of_In, list_elem_of_lookup in H.
      destruct H as [i Hi]. apply arg_regs_lookup in Hi.
      destruct Hi as [Hi _]. unfold R11 in Hi. lia. }
    destruct (run_moves_places dsts args m Hv Hnd Hz) as [H1 _].
    + intros j k' d s' Hjk Hd Hs'.
      apply arg_regs_lookup in Hd. destruct Hd as [-> _].
      apply (Hsrc j k' s' Hjk Hs').
    + apply (H1 k); [|exact Hs].
      unfold dsts. change (@firstn register) with (@take register).
      rewrite lookup_take_lt by exact Hk.
      do 7 (destruct k as [|k]; [reflexivity|]).
      cbn in Hk. lia.
Qed.

Lemma gen_fill_arguments_places_arguments_witness :
  exists (moves : list move_instruction) (live' : gset register),
    gen_fill_arguments [tt; tt] [9%nat; 18%nat] ∅ = Ok (moves, live') /\
    moves = [Mov2 R11 9; Mov2 R12 18] /\
    (forall r : register, r ∈ live' <-> r ∈ (∅ : gset register) \/ In r [R11; R12]) /\
    (forall (k : nat) (s : register),
       (k < 2)%nat -> [9%nat; 18%nat] !! k = Some s ->
       get_reg (run_moves moves demo_machine) (R11 + k)%nat
       = get_reg demo_machine s).
Proof.
  apply (gen_fill_arguments_places_arguments [tt; tt] [9%nat; 18%nat] ∅
           demo_machine).
  - simpl. lia.
  - exact demo_machine_valid.
  - intros j [|[|k]] s Hjk Hs; simpl in Hs.
    + lia.
    + injection Hs as <-. unfold R11. lia.
    + discriminate Hs.
Defined.

(** X23: With more than seven argument types both functions raise the
    [IndexError] of [regs.pop(0)], whatever the arguments; the generator
    yields no move. *)
Theorem gen_fill_arguments_raises {T : Type} (arg_types : list T)
    (args : list register) (live : gset register) :
  (7 < List.length arg_types)%nat ->
  determine_arg_locations arg_types = Raise IndexError /\
  gen_fill_arguments arg_types args live = Raise IndexError.
Proof.
  intros H.
  assert (E : determine_arg_locations arg_types = Raise IndexError)
    by (apply arg_locations_loop_raises; exact H).
  split; [exact E|]. unfold gen_fill_arguments. rewrite E. reflexivity.
Qed.

Lemma gen_fill_arguments_raises_witness :
  determine_arg_locations (repeat tt 8) = Raise IndexError /\
  gen_fill_arguments (repeat tt 8) [9%nat] ∅ = Raise IndexError.
Proof. apply (gen_fill_arguments_raises (repeat tt 8)). simpl. lia. Defined.

(** * The literal pool *)

Lemma to_uint_nonnil (n : N) : N.to_uint n <> Decimal.Nil.
Proof.
  destruct n as [|p]; [discriminate|].
  apply DecimalPos.Unsigned.to_uint_nonnil.
Qed.

(** The decimal numerals of two numbers differ when the numbers do. *)
Lemma str_of_int_inj (a b : Z) :
  0 <= a -> 0 <= b -> str_of_int a = str_of_int b -> a = b.
Proof.
  intros Ha Hb H. unfold str_of_int in H.
  apply (f_equal NilZero.uint_of_string) in H.
  rewrite !NilZero.usu in H by apply to_uint_nonnil.
  injection H as H. apply DecimalN.Unsigned.to_uint_inj in H.
  apply Z2N.inj in H; assumption.
Qed.

Lemma lit_label_inj (a b : string) :
  ("_lit_" ++ a)%string = ("_lit_" ++ b)%string -> a = b.
Proof. intros H. cbv [String.append] in H. injection H as H. exact H. Qed.

Lemma flush_loop_spec (pool : list RiscvAssembler.item) :
  forall self : RiscvAssembler.assembler,
    RiscvAssembler.lit_pool self = pool ->
    RiscvAssembler.flush_loop pool self
    = {| RiscvAssembler.in_macro := RiscvAssembler.in_macro self;
         RiscvAssembler.stream := RiscvAssembler.stream self ++ pool;
         RiscvAssembler.lit_pool := [];
         RiscvAssembler.lit_counter := RiscvAssembler.lit_counter self |}.
Proof.
  induction pool as [|i pool IH]; intros self Hpool.
  - destruct self as [mac st lp lc]. cbn in *. subst lp.
    rewrite app_nil_r. reflexivity.
  - cbn [RiscvAssembler.flush_loop]. rewrite IH by reflexivity.
    cbn. rewrite <- app_assoc. reflexivity.
Qed.

(** The labels that a sequence of calls returns are numbered from the
    counter on, and nothing that enters the pool is lost or emitted
    twice. *)
Lemma calls_spec (cs : list RiscvAssembler.call) :
  forall self : RiscvAssembler.assembler,
    RiscvAssembler.in_macro self = false ->
    snd (RiscvAssembler.calls cs self)
    = map (fun k => ("_lit_"
                     ++ str_of_int (RiscvAssembler.lit_counter self
                                    + Z.of_nat k))%string)
        (seq 1 (List.length (RiscvAssembler.literals cs))) /\
    RiscvAssembler.stream (fst (RiscvAssembler.calls cs self))
    ++ RiscvAssembler.lit_pool (fst (RiscvAssembler.calls cs self))
    = RiscvAssembler.stream self ++ RiscvAssembler.lit_pool self
      ++ concat (zip_with
                   (fun l v => [RiscvAssembler.Label l; RiscvAssembler.dcd v])
                   (snd (RiscvAssembler.calls cs self))
                   (RiscvAssembler.literals cs)).
Proof.
  induction cs as [|[v|] cs IH]; intros self Hmac.
  - cbn. rewrite app_nil_r. auto.
  - cbn [RiscvAssembler.calls RiscvAssembler.literals List.length].
    unfold RiscvAssembler.add_literal.
    set (self1 := RiscvAssembler.mkAssembler _ _ _ _).
    destruct (IH self1 Hmac) as [IH1 IH2].
    destruct (RiscvAssembler.calls cs self1) as [self2 labels].
    cbn [fst snd] in *. split.
    + cbn [seq map]. rewrite IH1. rewrite <- (seq_shift _ 1), map_map.
      apply (f_equal2 cons); [reflexivity|].
      apply map_ext. intros k. unfold self1.
      cbn [RiscvAssembler.lit_counter]. rewrite Nat2Z.inj_succ.
      f_equal. f_equal. lia.
    + rewrite IH2. unfold self1. cbn.
      rewrite <- !app_assoc. reflexivity.
  - cbn [RiscvAssembler.calls RiscvAssembler.literals].
    unfold RiscvAssembler.flush. rewrite Hmac.
    rewrite flush_loop_spec by reflexivity.
    set (self1 := RiscvAssembler.mkAssembler _ _ _ _).
    destruct (IH self1 Hmac) as [IH1 IH2].
    split; [exact IH1|]. rewrite IH2. unfold self1. cbn.
    rewrite app_assoc. reflexivity.
Qed.

(** X24: Whatever calls of [add_literal] and [flush] a new assembler gets, in
    whatever order: every call of [add_literal] returns a label of its own,
    and what has been emitted followed by what is still in the pool is, for
    each literal in the order of the calls, its label and then its data
    word.  A [flush] loses nothing and emits nothing twice, and the counter
    is not reset by it. *)
Theorem literal_labels_unique (cs : list RiscvAssembler.call) :
  List.NoDup (snd (RiscvAssembler.calls cs RiscvAssembler.init)) /\
  List.length (snd (RiscvAssembler.calls cs RiscvAssembler.init))
  = List.length (RiscvAssembler.literals cs) /\
  RiscvAssembler.stream (fst (RiscvAssembler.calls cs RiscvAssembler.init))
  ++ RiscvAssembler.lit_pool
       (fst (RiscvAssembler.calls cs RiscvAssembler.init))
  = concat (zip_with
              (fun l v => [RiscvAssembler.Label l; RiscvAssembler.dcd v])
              (snd (RiscvAssembler.calls cs RiscvAssembler.init))
              (RiscvAssembler.literals cs)).
Proof.
  destruct (calls_spec cs RiscvAssembler.init eq_refl) as [H1 H2].
  split; [|split].
  - rewrite H1. apply NoDup_ListNoDup, NoDup_fmap_2.
    + intros j k E. apply lit_label_inj in E. cbn in E.
      apply str_of_int_inj in E; lia.
    + apply NoDup_ListNoDup, seq_NoDup.
  - rewrite H1, length_map, length_seq. reflexivity.
  - exact H2.
Qed.

(** X25: In a macro [flush] raises and emits nothing; outside of one it emits
    the pool in its order and leaves it empty. *)
Theorem flush_emits_pool (self : RiscvAssembler.assembler) :
  RiscvAssembler.flush self
  = if RiscvAssembler.in_macro self then None
    else Some {| RiscvAssembler.in_macro := false;
                 RiscvAssembler.stream :=
                   RiscvAssembler.stream self ++ RiscvAssembler.lit_pool self;
                 RiscvAssembler.lit_pool := [];
                 RiscvAssembler.lit_counter :=
                   RiscvAssembler.lit_counter self |}.
Proof.
  unfold RiscvAssembler.flush.
  destruct (RiscvAssembler.in_macro self) eqn:E; [reflexivity|].
  rewrite flush_loop_spec by reflexivity. rewrite E. reflexivity.
Qed.

(** * Fields of a structure type *)

(** X26: [findField] returns the first field of the name, and [hasField] tells
    whether it finds one: with a field of the name in the structure,
    [hasField] is true, [findField] returns the first such field and
    [fieldType] its type; without one, [hasField] is false and both lookups
    raise [KeyError] with the name. *)
Theorem findField_first (T : Type) (mems : list (StructField T))
    (n : string) :
  match findField mems n with
  | Found mem =>
      hasField mems n = true /\ fieldType mems n = Found (typ mem) /\
      exists pre post : list (StructField T),
        mems = pre ++ mem :: post /\ name mem = n /\
        List.Forall (fun x => name x <> n) pre
  | KeyError k =>
      k = n /\ hasField mems n = false /\ fieldType mems n = KeyError n /\
      List.Forall (fun x => name x <> n) mems
  end.
Proof.
  unfold fieldType. induction mems as [|mem mems IH].
  - cbn. auto.
  - cbn [findField hasField].
    destruct (String.eqb_spec n (name mem)) as [E|E].
    + split; [reflexivity|]. split; [reflexivity|].
      exists [], mems. split; [reflexivity|]. split; [congruence|].
      constructor.
    + destruct (findField mems n) as [found|k].
      * destruct IH as (H1 & H2 & pre & post & -> & Hn & Hpre).
        split; [exact H1|]. split; [exact H2|].
        exists (mem :: pre), post. split; [reflexivity|].
        split; [exact Hn|]. constructor; [congruence|exact Hpre].
      * destruct IH as (-> & H1 & H2 & Hall).
        split; [reflexivity|]. split; [exact H1|]. split; [reflexivity|].
        constructor; [congruence|exact Hall].
Qed.

(** * Addresses that a record cannot hold *)

(** The upper half word that [save] takes from an address, whatever the
    address: a multiple of 65536 from 0 to 0xFFFF0000. *)
Lemma land_upper_half_any (a : Z) :
  exists q : Z, Z.land a 4294901760 = 65536 * q /\ 0 <= q <= 65535.
Proof.
  exists ((a / 65536) mod 65536). split.
  - apply Z.bits_inj'. intros i Hi.
    rewrite Z.land_spec.
    change 4294901760 with (Z.shiftl (Z.ones 16) 16).
    change 65536 with (2 ^ 16).
    rewrite <- Z.land_ones, Z.mul_comm, <- Z.shiftl_mul_pow2,
      <- Z.shiftr_div_pow2 by lia.
    rewrite !Z.shiftl_spec by lia.
    destruct (Z.ltb_spec i 16) as [Hlt|Hge].
    + rewrite !(Z.testbit_neg_r _ (i - 16)) by lia. apply andb_false_r.
    + rewrite Z.land_spec, Z.shiftr_spec by lia.
      replace (i - 16 + 16) with i by lia. reflexivity.
  - pose proof (Z.mod_pos_bound (a / 65536) 65536 ltac:(lia)). lia.
Qed.

Lemma chunks_first (d : list byte) :
  d <> [] ->
  exists (c : list byte) (cs : list (list byte)),
    chunks d = c :: cs /\ (List.length c <= 16)%nat.
Proof.
  intros Hd.
  destruct (chunks_from_spec d (List.length d) 0 ltac:(lia) ltac:(lia))
    as (H1 & H2 & _).
  fold (chunks d) in H1, H2. rewrite skipn_O in H1.
  destruct (chunks d) as [|c cs].
  - cbn in H1. congruence.
  - exists c, cs. split; [reflexivity|].
    apply List.Forall_inv in H2. lia.
Qed.

Lemma emit_done (f : string) (addr typ : Z) (d : list byte) :
  0 <= addr < 65536 -> 0 <= typ < 256 -> (List.length d <= 255)%nat ->
  emit f addr typ d
  = Ok (print (String ":" (hexlify (record_bytes addr typ d))) f).
Proof.
  intros Ha Ht Hd. unfold emit. rewrite makeHexLine_ok by assumption.
  reflexivity.
Qed.

Lemma emit_no_room (f : string) (addr typ : Z) (d : list byte) :
  (List.length d <= 255)%nat -> addr < 0 \/ 65535 < addr ->
  emit f addr typ d = Raise StructError.
Proof.
  intros Hd Ha. unfold emit. rewrite makeHexLine_cases.
  replace (255 <? List.length d)%nat with false
    by (symmetry; apply Nat.ltb_ge; lia).
  replace ((addr <? 0) || (65535 <? addr)) with true; [reflexivity|].
  symmetry. apply orb_true_iff.
  destruct Ha; [left; apply Z.ltb_lt|right; apply Z.ltb_lt]; lia.
Qed.

(** X27: [save] raises the error of [struct.pack] when the first region has data
    and an address that is negative or not below 2^32: the record of the
    upper half word is written, and the data record that follows it, or the
    record of the next upper half word, has no room for the address. *)
Theorem save_refuses_wide_address (h : HexFile) (f : string)
    (r : HexFileRegion) (rest : list HexFileRegion) :
  regions h = r :: rest -> data r <> [] ->
  address r < 0 \/ 2 ^ 32 <= address r ->
  save h f = Raise StructError.
Proof.
  intros Hr Hd Ha. unfold save. rewrite Hr. cbn [save_regions].
  destruct (land_upper_half_any (address r)) as (q & Eq & Hq).
  rewrite Eq. rewrite Z.shiftr_div_pow2 by lia. change (2 ^ 16) with 65536.
  rewrite (Z.mul_comm 65536 q), Z.div_mul by lia.
  rewrite pack_H_ok by lia. cbn [bind].
  rewrite emit_done by (unfold EXTLINADR; cbn [List.length]; lia).
  cbn [bind].
  destruct (chunks_first (data r) Hd) as (c & cs & -> & Hc).
  cbn [save_chunks].
  destruct (Z.geb_spec (address r - q * 65536) 65536) as [Hge|Hlt].
  - destruct (Z.eq_dec q 65535) as [->|Hne].
    + rewrite pack_H_raises; [reflexivity|].
      rewrite Z.shiftr_div_pow2 by lia. change (2 ^ 16) with 65536.
      replace (65535 * 65536 + 65536) with (65536 * 65536) by lia.
      rewrite Z.div_mul by lia. lia.
    + rewrite Z.shiftr_div_pow2 by lia. change (2 ^ 16) with 65536.
      replace (q * 65536 + 65536) with ((q + 1) * 65536) by lia.
      rewrite Z.div_mul by lia.
      rewrite pack_H_ok by lia. cbn [bind].
      rewrite emit_done by (unfold EXTLINADR; cbn [List.length]; lia).
      cbn [bind].
      rewrite emit_no_room; [reflexivity|lia|].
      destruct Ha as [Ha|Ha]; lia.
  - rewrite emit_no_room; [reflexivity|lia|].
    destruct Ha as [Ha|Ha]; lia.
Qed.

Lemma save_refuses_wide_address_witness :
  save {| regions := [mkRegion 4294967296 [x00]]; startAddress := 0 |}
    EmptyString
  = Raise StructError.
Proof.
  apply (save_refuses_wide_address _ EmptyString (mkRegion 4294967296 [x00])
           []).
  - reflexivity.
  - discriminate.
  - right. simpl. lia.
Defined.
